(** * Graph isomorphism detection: a verification development

    Shallow embedding of [graph-isomorphism/src]: the [Graph] class and the
    functions of [isomorphism.js] ([checkInvariants], [permute],
    [isValidMapping], [detectIsomorphism], [detectIsomorphismOptimized]),
    and the tree classes of [tree.js] ([TreeNode], [Tree], [BinaryTreeNode],
    [BinaryTree]).

    - JavaScript values used as vertices are strings and integer numbers.
    - A JS [Set] and a JS [Map] keep insertion order; they are lists here.
    - A plain JS object used as a dictionary is a [gmap string _].
    - Objects passed by reference (the two graphs) live in a store; the search
      functions run in a small monad that threads the store, records the
      observable events of a run and propagates a thrown [TypeError].
    - Tree nodes refer to each other: they live in a heap, and the recursive
      methods that follow their references take fuel. *)

From Stdlib Require Import Sorting.Permutation Ascii.
From stdpp Require Import base tactics option sorting gmap strings pretty
  functions list.

#[local] Set Warnings "-clear-no-such-hyp,-register-all".

Open Scope Z_scope.
Open Scope nat_scope.

(** ** JavaScript values *)

(** Vertex identifiers: [string|number] in the JSDoc of the source. *)
Inductive vertex :=
  | VNum (n : Z)
  | VStr (s : string).

Global Instance vertex_eq_dec : EqDecision vertex.
Proof. solve_decision. Defined.

Global Instance vertex_countable : Countable vertex.
Proof.
  refine (inj_countable'
    (λ v, match v with VNum n => inl n | VStr s => inr s end)
    (λ x, match x with inl n => VNum n | inr s => VStr s end) _).
  by intros [].
Defined.

(** A value read out of an array or a [Map]: a vertex, or [undefined]. *)
Definition jsval := option vertex.
Definition undefined : jsval := None.

(** Property-key conversion, as [Object.fromEntries] and [obj[k]] apply it:
    a string is its own key, a number is its decimal numeral. *)
Definition ToPropertyKey (v : vertex) : string :=
  match v with
  | VNum n => pretty n
  | VStr s => s
  end.

(** [JSON.stringify] of an array of non-negative integers. *)
Definition JSON_stringify (a : list nat) : string :=
  "[" +:+ String.concat "," (pretty <$> a) +:+ "]".

(** ** JS [Map]: insertion-ordered, keys compared by SameValueZero *)
Module JsMap.
Section jsmap.
Context {K V : Type} `{EqDecision K}.

Definition t := list (K * V).

Definition empty : t := [].

Fixpoint get (k : K) (m : t) : option V :=
  match m with
  | [] => None
  | (k', v) :: m' => if decide (k' = k) then Some v else get k m'
  end.

Definition has (k : K) (m : t) : bool := bool_decide (is_Some (get k m)).

(** [set] replaces the value of a present key where it stands and appends
    an absent one. *)
Fixpoint set (k : K) (v : V) (m : t) : t :=
  match m with
  | [] => [(k, v)]
  | (k', v') :: m' =>
      if decide (k' = k) then (k', v) :: m' else (k', v') :: set k v m'
  end.

(** In-place mutation of the value stored under [k]
    (as in [m.get(k).push(x)]). *)
Fixpoint update (f : V → V) (k : K) (m : t) : t :=
  match m with
  | [] => []
  | (k', v') :: m' =>
      if decide (k' = k) then (k', f v') :: m' else (k', v') :: update f k m'
  end.

Definition keys (m : t) : list K := m.*1.
Definition size (m : t) : nat := length m.
End jsmap.
Global Arguments t : clear implicits.
End JsMap.

(** ** The [Graph] class *)

Record Graph := mkGraph {
  isDirected : bool;
  adjacencyList : gmap vertex (list vertex);
  vertices : list vertex;            (* a [Set], in insertion order *)
  edges : list (vertex * vertex);
}.

Module GraphM.

(** [new Graph(isDirected)] *)
Definition new (d : bool) : Graph :=
  {| isDirected := d; adjacencyList := ∅; vertices := []; edges := [] |}.

(** [Set.prototype.has] *)
Definition has (v : vertex) (s : list vertex) : bool := bool_decide (v ∈ s).

Definition addVertex (v : vertex) (this : Graph) : Graph :=
  if negb (has v (vertices this)) then
    {| isDirected := isDirected this;
       adjacencyList := <[v := []]> (adjacencyList this);
       vertices := vertices this ++ [v];
       edges := edges this |}
  else this.

(** [addEdge]; [None] is the [TypeError] of calling [push] on
    [undefined] when the adjacency list has no entry for an endpoint. *)
Definition addEdge (v1 v2 : vertex) (this : Graph) : option Graph :=
  let this := addVertex v1 this in
  let this := addVertex v2 this in
  l1 ← adjacencyList this !! v1;
  let this :=
    {| isDirected := isDirected this;
       adjacencyList := <[v1 := l1 ++ [v2]]> (adjacencyList this);
       vertices := vertices this;
       edges := edges this ++ [(v1, v2)] |} in
  if negb (isDirected this) then
    l2 ← adjacencyList this !! v2;
    Some {| isDirected := isDirected this;
            adjacencyList := <[v2 := l2 ++ [v1]]> (adjacencyList this);
            vertices := vertices this;
            edges := edges this |}
  else Some this.

Definition getNeighbors (v : vertex) (this : Graph) : list vertex :=
  default [] (adjacencyList this !! v).

Definition getDegree (v : vertex) (this : Graph) : nat :=
  length (getNeighbors v this).

(** [this.adjacencyList.get(v1)?.includes(v2) || false]; either argument
    may be [undefined], which is no key and no element. *)
Definition areAdjacent (v1 v2 : jsval) (this : Graph) : bool :=
  match v1 ≫= (λ v, adjacencyList this !! v) with
  | Some l =>
      match v2 with
      | Some w => bool_decide (w ∈ l)
      | None => false
      end
  | None => false
  end.

(** The comparator [(a, b) => b - a] puts [a] before [b] when [b ≤ a]:
    the array is sorted descending. *)
Definition desc : relation nat := λ a b, b ≤ a.

Global Instance desc_dec : RelDecision desc.
Proof. intros a b. unfold desc. apply _. Defined.

Definition sort_desc (l : list nat) : list nat := merge_sort desc l.

Definition getDegreeSequence (this : Graph) : list nat :=
  let degrees := (λ v, getDegree v this) <$> vertices this in
  sort_desc degrees.

Definition getVertexCount (this : Graph) : nat := length (vertices this).

Definition getEdgeCount (this : Graph) : nat :=
  if isDirected this then length (edges this) else length (edges this).

(** [getAdjacencyMatrix]. [Array(n).fill(0).map(() => Array(n).fill(0))]
    makes [n] rows that are distinct arrays; the two loops run [i] and [j]
    below [n], so every write [matrix[i][j] = 1] is inside the matrix. *)
Definition getAdjacencyMatrix (this : Graph) : list (list nat) :=
  let vertexArray := vertices this in
  let n := length vertexArray in
  let matrix := replicate n (replicate n 0) in
  foldl (λ matrix i,
    foldl (λ matrix j,
      if areAdjacent (vertexArray !! i) (vertexArray !! j) this
      then alter (insert j 1) i matrix
      else matrix) matrix (seq 0 n)) matrix (seq 0 n).

(** [clone]: a new graph object, the vertices added in the order of the
    vertex set, then the recorded edges added in order. [None] is the
    [TypeError] of [addEdge]. *)
Definition clone (this : Graph) : option Graph :=
  let newGraph := new (isDirected this) in
  let newGraph := foldl (λ g v, addVertex v g) newGraph (vertices this) in
  foldl (λ g '(v1, v2), g ≫= addEdge v1 v2) (Some newGraph) (edges this).

(** Construction histories. *)
Inductive op :=
  | AddVertex (v : vertex)
  | AddEdge (v1 v2 : vertex).

Definition apply_op (o : op) (g : Graph) : option Graph :=
  match o with
  | AddVertex v => Some (addVertex v g)
  | AddEdge v1 v2 => addEdge v1 v2 g
  end.

Fixpoint run_ops (ops : list op) (g : Graph) : option Graph :=
  match ops with
  | [] => Some g
  | o :: ops' => apply_op o g ≫= run_ops ops'
  end.

(** A graph obtained from the constructor through the class's methods. *)
Definition built (g : Graph) : Prop :=
  ∃ d ops, run_ops ops (new d) = Some g.

End GraphM.
Import GraphM.

(** ** Run-time model: store, events, exceptions *)

(** The arguments [g1], [g2] of the search functions are references. *)
Definition loc := nat.
Definition store := loc → Graph.

Inductive exn := TypeError.

(** The record handed to [onProgress]. The brute-force search also passes a
    [percentage] string computed from [checked] and [total] in floating
    point; it is determined by the two counts and is left out. *)
Record progress := mkProgress {
  checked : nat;
  total : option nat;
}.

(** What a run does besides returning: [Candidate] is a ghost event recorded
    each time the search loop draws a candidate (where the source increments
    [checkedCount]); [OnProgress] is a call of the caller's callback, which
    is environment code: the model records the call and its argument. *)
Inductive event :=
  | Candidate (mapping : JsMap.t vertex jsval)
  | OnProgress (p : progress).

Record outcome (A : Type) := Outcome {
  final : store;
  trace : list event;
  value : exn + A;
}.
Global Arguments Outcome {A}.
Global Arguments final {A}.
Global Arguments trace {A}.
Global Arguments value {A}.

Definition M (A : Type) : Type := store → outcome A.

Global Instance M_ret : MRet M := λ A a σ, Outcome σ [] (inr a).

Global Instance M_bind : MBind M := λ A B f m σ,
  let o := m σ in
  match value o with
  | inl e => Outcome (final o) (trace o) (inl e)
  | inr a =>
      let o' := f a (final o) in
      Outcome (final o') (trace o ++ trace o') (value o')
  end.

Definition throw {A} (e : exn) : M A := λ σ, Outcome σ [] (inl e).
Definition emit (e : event) : M unit := λ σ, Outcome σ [e] (inr ()).

(** A field read or a call of a method that only reads [this]. *)
Definition call {A} (g : loc) (method : Graph → A) : M A :=
  λ σ, Outcome σ [] (inr (method (σ g))).

(** A call of a method that mutates [this]. *)
Definition invoke (g : loc) (method : Graph → option Graph) : M unit :=
  λ σ, match method (σ g) with
       | Some g' => Outcome (<[g := g']> σ) [] (inr ())
       | None => Outcome σ [] (inl TypeError)
       end.

(** [if (c) { m }] *)
Definition when (c : bool) (m : M unit) : M unit :=
  if c then m else mret ().

(** [for (const x of l) { body }] with loop-carried variables [s]; the body
    either falls through to the next iteration or returns from the
    enclosing function. *)
Inductive flow (S R : Type) :=
  | Continue (s : S)
  | Return (r : R).
Global Arguments Continue {S R}.
Global Arguments Return {S R}.

Fixpoint for_of {A S R} (l : list A) (s : S) (body : A → S → M (flow S R))
    : M (flow S R) :=
  match l with
  | [] => mret (Continue s)
  | x :: l' =>
      f ← body x s;
      match f with
      | Continue s' => for_of l' s' body
      | Return r => mret (Return r)
      end
  end.

(** ** [isomorphism.js] *)

Record Checks := mkChecks {
  vertexCount : bool;
  edgeCount : bool;
  degreeSequence : bool;
}.

(** [Object.values(checks)], in property order. *)
Definition Object_values (c : Checks) : list bool :=
  [vertexCount c; edgeCount c; degreeSequence c].

Record Detail := mkDetail {
  d_vertices : nat;
  d_edges : nat;
  d_degrees : list nat;
}.

Record InvariantCheck := mkInvariantCheck {
  isomorphismPossible : bool;
  checks : Checks;
  details : Detail * Detail;
}.

Definition checkInvariants (g1 g2 : loc) : M InvariantCheck :=
  n1 ← call g1 GraphM.getVertexCount;
  n2 ← call g2 GraphM.getVertexCount;
  e1 ← call g1 GraphM.getEdgeCount;
  e2 ← call g2 GraphM.getEdgeCount;
  s1 ← call g1 GraphM.getDegreeSequence;
  s2 ← call g2 GraphM.getDegreeSequence;
  let checks :=
    {| vertexCount := bool_decide (n1 = n2);
       edgeCount := bool_decide (e1 = e2);
       degreeSequence := bool_decide (JSON_stringify s1 = JSON_stringify s2) |} in
  let allPass := forallb (λ v, v) (Object_values checks) in
  vertices1 ← call g1 GraphM.getVertexCount;
  edges1 ← call g1 GraphM.getEdgeCount;
  degrees1 ← call g1 GraphM.getDegreeSequence;
  vertices2 ← call g2 GraphM.getVertexCount;
  edges2 ← call g2 GraphM.getEdgeCount;
  degrees2 ← call g2 GraphM.getDegreeSequence;
  mret {| isomorphismPossible := allPass;
          checks := checks;
          details := (mkDetail vertices1 edges1 degrees1,
                      mkDetail vertices2 edges2 degrees2) |}.

(** [permute]: the recursion is on an array that is one element shorter, so
    [length arr] units of fuel are enough (see [permute_fuel_enough]). *)
Fixpoint permute_fuel {A} (fuel : nat) (arr : list A) : list (list A) :=
  if decide (length arr ≤ 1) then [arr]
  else
    match fuel with
    | 0 => []
    | S fuel' =>
        i ← seq 0 (length arr);
        match arr !! i with
        | Some current =>
            let remaining := take i arr ++ drop (i + 1) arr in
            let perms := permute_fuel fuel' remaining in
            (λ perm, current :: perm) <$> perms
        | None => []
        end
    end.

Definition permute {A} (arr : list A) : list (list A) :=
  permute_fuel (length arr) arr.

(** A candidate mapping is a JS [Map] from vertices to array reads. *)
Abbreviation Mapping := (JsMap.t vertex jsval).

(** [mapping.get(v)]: [undefined] for a missing key. *)
Definition mapping_get (v : vertex) (mapping : Mapping) : jsval :=
  mjoin (JsMap.get v mapping).

(** [for (let i = 0; i < keys.length; i++) mapping.set(keys[i], perm[i])],
    the loop both searches use to pair two arrays. *)
Definition assign (keys perm : list vertex) (mapping : Mapping) : Mapping :=
  foldl (λ m i,
           match keys !! i with
           | Some k => JsMap.set k (perm !! i) m
           | None => m
           end)
        mapping (seq 0 (length keys)).

Definition isValidMapping (g1 g2 : loc) (mapping : Mapping) : M bool :=
  vertices1 ← call g1 vertices;
  r ← for_of vertices1 () (λ v1 _,
        for_of vertices1 () (λ v2 _,
          adjacent1 ← call g1 (GraphM.areAdjacent (Some v1) (Some v2));
          adjacent2 ← call g2 (GraphM.areAdjacent (mapping_get v1 mapping)
                                                  (mapping_get v2 mapping));
          if bool_decide (adjacent1 ≠ adjacent2)
          then mret (Return false)
          else mret (Continue ())));
  match r with
  | Return b => mret b
  | Continue _ => mret true
  end.

Record Options := mkOptions {
  maxVertices : option Z;     (* absent: the function's default *)
  onProgress : bool;          (* whether a callback was supplied *)
}.

Definition no_options : Options :=
  {| maxVertices := None; onProgress := false |}.

(** The result object; an absent property is [None], as is [null]. *)
Record SearchResult := mkSearchResult {
  isIsomorphic : option bool;
  reason : option string;
  invariantCheck : InvariantCheck;
  mapping : option (gmap string jsval);
  permutationsChecked : option nat;
  optimized : option bool;
}.

(** [Object.fromEntries(mapping)]: entries in insertion order, a later entry
    overwriting an earlier one with the same property key. *)
Definition Object_fromEntries (mapping : Mapping) : gmap string jsval :=
  foldl (λ o '(k, v), <[ToPropertyKey k := v]> o) ∅ mapping.

Definition detectIsomorphism (g1 g2 : loc) (options : Options)
    : M SearchResult :=
  let maxVertices := default 10%Z (maxVertices options) in
  let onProgress := onProgress options in
  invariantCheck ← checkInvariants g1 g2;
  if negb (isomorphismPossible invariantCheck) then
    mret {| isIsomorphic := Some false;
            reason := Some "Invariants do not match";
            invariantCheck := invariantCheck;
            mapping := None;
            permutationsChecked := None;
            optimized := None |}
  else
    n ← call g1 GraphM.getVertexCount;
    if bool_decide (maxVertices < Z.of_nat n)%Z then
      mret {| isIsomorphic := None;
              reason := Some ("Graph too large (" +:+ pretty n
                          +:+ " vertices > " +:+ pretty maxVertices
                          +:+ " max). Use specialized algorithms.");
              invariantCheck := invariantCheck;
              mapping := None;
              permutationsChecked := None;
              optimized := None |}
    else
      vertices1 ← call g1 vertices;
      vertices2 ← call g2 vertices;
      let permutations := permute vertices2 in
      r ← for_of permutations 0 (λ perm checkedCount,
            let checkedCount := S checkedCount in
            let mapping := assign vertices1 perm JsMap.empty in
            emit (Candidate mapping);;
            when onProgress
              (emit (OnProgress {| checked := checkedCount;
                                   total := Some (length permutations) |}));;
            valid ← isValidMapping g1 g2 mapping;
            if (valid : bool) then
              mret (Return {| isIsomorphic := Some true;
                              reason := None;
                              invariantCheck := invariantCheck;
                              mapping := Some (Object_fromEntries mapping);
                              permutationsChecked := Some checkedCount;
                              optimized := None |})
            else mret (Continue checkedCount));
      match r with
      | Return result => mret result
      | Continue checkedCount =>
          mret {| isIsomorphic := Some false;
                  reason := Some "No valid mapping found after checking all permutations";
                  invariantCheck := invariantCheck;
                  mapping := None;
                  permutationsChecked := Some checkedCount;
                  optimized := None |}
      end.

(** The grouping loop of [detectIsomorphismOptimized]:
    [for (const v of g.vertices) { ... degreeGroups.get(degree).push(v) }]. *)
Definition groupByDegree (g : loc) : M (JsMap.t nat (list vertex)) :=
  vs ← call g vertices;
  r ← for_of (R := Empty_set) vs JsMap.empty (λ v degreeGroups,
        degree ← call g (GraphM.getDegree v);
        let degreeGroups :=
          if negb (JsMap.has degree degreeGroups)
          then JsMap.set degree [] degreeGroups
          else degreeGroups in
        mret (Continue (JsMap.update (λ group, group ++ [v]) degree degreeGroups)));
  match r with
  | Continue degreeGroups => mret degreeGroups
  | Return e => match (e : Empty_set) with end
  end.

(** What the generator [generateMappings] hands to its consumer, one item at
    a time: a composed mapping, or the exception that ends the iteration. *)
Inductive yielded :=
  | Yield (mapping : Mapping)
  | Raise (e : exn).

Section generateMappings.
(** The two maps the generator closes over. *)
Variables degreeGroups1 degreeGroups2 : JsMap.t nat (list vertex).

(** The recursion is on [index], which counts up to [length degrees]:
    [fuel] bounds the remaining distance. Reading a group that is
    [undefined] makes [permute] (or [group1.length]) throw. *)
Fixpoint generateMappings_fuel (fuel : nat) (degrees : list nat)
    (index : nat) (currentMapping : Mapping) : list yielded :=
  if decide (index = length degrees) then [Yield currentMapping]
  else
    match fuel with
    | 0 => []
    | S fuel' =>
        match degrees !! index ≫= (λ degree, JsMap.get degree degreeGroups2) with
        | None => [Raise TypeError]
        | Some group2 =>
            let perms := permute group2 in
            perm ← perms;
            match degrees !! index ≫= (λ degree, JsMap.get degree degreeGroups1) with
            | None => [Raise TypeError]
            | Some group1 =>
                let newMapping := assign group1 perm currentMapping in
                generateMappings_fuel fuel' degrees (index + 1) newMapping
            end
        end
    end.

Definition generateMappings (degrees : list nat) (index : nat)
    (currentMapping : Mapping) : list yielded :=
  generateMappings_fuel (length degrees - index) degrees index currentMapping.
End generateMappings.

Definition detectIsomorphismOptimized (g1 g2 : loc) (options : Options)
    : M SearchResult :=
  let maxVertices := default 12%Z (maxVertices options) in
  let onProgress := onProgress options in
  invariantCheck ← checkInvariants g1 g2;
  if negb (isomorphismPossible invariantCheck) then
    mret {| isIsomorphic := Some false;
            reason := Some "Invariants do not match";
            invariantCheck := invariantCheck;
            mapping := None;
            permutationsChecked := None;
            optimized := None |}
  else
    n ← call g1 GraphM.getVertexCount;
    if bool_decide (maxVertices < Z.of_nat n)%Z then
      mret {| isIsomorphic := None;
              reason := Some ("Graph too large (" +:+ pretty n
                          +:+ " vertices > " +:+ pretty maxVertices
                          +:+ " max)");
              invariantCheck := invariantCheck;
              mapping := None;
              permutationsChecked := None;
              optimized := None |}
    else
      degreeGroups1 ← groupByDegree g1;
      degreeGroups2 ← groupByDegree g2;
      if bool_decide (JsMap.size degreeGroups1 ≠ JsMap.size degreeGroups2) then
        mret {| isIsomorphic := Some false;
                reason := Some "Different number of degree groups";
                invariantCheck := invariantCheck;
                mapping := None;
                permutationsChecked := None;
                optimized := None |}
      else
        let degrees := JsMap.keys degreeGroups1 in
        r ← for_of (generateMappings degreeGroups1 degreeGroups2 degrees 0 JsMap.empty)
              0 (λ item checkedCount,
            match item with
            | Raise e => throw e
            | Yield mapping =>
                let checkedCount := S checkedCount in
                emit (Candidate mapping);;
                when (onProgress && bool_decide (checkedCount `mod` 100 = 0))
                  (emit (OnProgress {| checked := checkedCount; total := None |}));;
                valid ← isValidMapping g1 g2 mapping;
                if (valid : bool) then
                  mret (Return {| isIsomorphic := Some true;
                                  reason := None;
                                  invariantCheck := invariantCheck;
                                  mapping := Some (Object_fromEntries mapping);
                                  permutationsChecked := Some checkedCount;
                                  optimized := Some true |})
                else mret (Continue checkedCount)
            end);
        match r with
        | Return result => mret result
        | Continue checkedCount =>
            mret {| isIsomorphic := Some false;
                    reason := Some "No valid mapping found";
                    invariantCheck := invariantCheck;
                    mapping := None;
                    permutationsChecked := Some checkedCount;
                    optimized := Some true |}
        end.

(** ** Tree nodes: objects with identity

    A [TreeNode] is reached through a reference; its [children] array and
    its [parent] field hold references. The heap is the list of the node
    objects made so far, a reference is an index in it. A reference that is
    not in the heap stands for a value that is no node object ([null],
    [undefined]): reading a property through it throws. *)
Abbreviation ref := nat.

Module TreeNodeM.
Section tree_node.
Context {V : Type}.

Record TreeNode := mkTreeNode {
  value : V;
  children : list ref;
  parent : option ref;            (* [null] is [None] *)
}.

Local Abbreviation heap := (list TreeNode).

(** [new TreeNode(value)] *)
Definition new (v : V) (h : heap) : ref * heap :=
  (length h, h ++ [{| value := v; children := []; parent := None |}]).

(** [addChild]: [child.parent = this], then [this.children.push(child)].
    [None] is the [TypeError] of a [child] that is no object. *)
Definition addChild (this child : ref) (h : heap) : option heap :=
  c ← h !! child;
  let h := <[child := {| value := value c; children := children c;
                         parent := Some this |}]> h in
  t ← h !! this;
  Some (<[this := {| value := value t; children := children t ++ [child];
                     parent := parent t |}]> h).

(** [Array.prototype.indexOf]: the first index holding the reference. *)
Definition indexOf (x : ref) (l : list ref) : option nat :=
  fst <$> list_find (λ y, y = x) l.

(** [removeChild]: when [child] is found, [this.children.splice(index, 1)]
    and then [child.parent = null]. *)
Definition removeChild (this child : ref) (h : heap) : option heap :=
  t ← h !! this;
  match indexOf child (children t) with
  | Some index =>
      let h := <[this := {| value := value t;
                            children := delete index (children t);
                            parent := parent t |}]> h in
      c ← h !! child;
      Some (<[child := {| value := value c; children := children c;
                          parent := None |}]> h)
  | None => Some h
  end.

Definition isLeaf (this : TreeNode) : bool :=
  bool_decide (length (children this) = 0).

Definition isRoot (this : TreeNode) : bool :=
  bool_decide (parent this = None).

(** [getHeight]: the recursion follows the [children] references, which
    end only when no node is reachable from itself: [fuel] bounds the depth
    of the calls, and [None] is a run that needs more (or that reads a
    reference that is no node). [Math.max] is applied to a non-empty list. *)
Fixpoint getHeight (fuel : nat) (h : heap) (this : ref) : option nat :=
  match fuel with
  | 0 => None
  | S fuel =>
      t ← h !! this;
      if isLeaf t then Some 0
      else
        heights ← mapM (getHeight fuel h) (children t);
        Some (1 + max_list heights)
  end.

(** [getLevel]: the loop [while (current.parent)] walks the [parent]
    references; [fuel] bounds its iterations. *)
Fixpoint getLevel_loop (fuel : nat) (h : heap) (current : ref) (level : nat)
    : option nat :=
  match fuel with
  | 0 => None
  | S fuel =>
      c ← h !! current;
      match parent c with
      | Some p => getLevel_loop fuel h p (S level)
      | None => Some level
      end
  end.

Definition getLevel (fuel : nat) (h : heap) (this : ref) : option nat :=
  getLevel_loop fuel h this 0.
End tree_node.
Global Arguments TreeNode : clear implicits.
Abbreviation heap V := (list (TreeNode V)).
End TreeNodeM.

(** ** The [Tree] class

    A callback is environment code. The traversals are modelled for
    callbacks that keep a state of their own and leave the nodes alone, as
    the callbacks of [find], [countNodes] and [getLeaves] do: a callback is
    a function from the node it is called on (its reference and the
    object) and its state to its next state. *)
Module TreeM.
Import TreeNodeM.
Section tree.
Context {V : Type} `{EqDecision V}.

Record Tree := mkTree {
  root : option ref;              (* [null] is [None] *)
}.

(** [new Tree(rootValue)]; an absent argument is [None]. *)
Definition new (rootValue : option V) (h : heap V) : Tree * heap V :=
  match rootValue with
  | Some v => let '(r, h) := TreeNodeM.new v h in ({| root := Some r |}, h)
  | None => ({| root := None |}, h)
  end.

(** [getHeight]: [-1] for the empty tree. *)
Definition getHeight (fuel : nat) (h : heap V) (this : Tree) : option Z :=
  match root this with
  | Some r => Z.of_nat <$> TreeNodeM.getHeight fuel h r
  | None => Some (-1)%Z
  end.

(** [preOrder(node, callback)]; [node] is a node or [null]. *)
Fixpoint preOrder {St} (fuel : nat) (h : heap V) (node : option ref)
    (callback : ref → TreeNode V → St → St) (s : St) : option St :=
  match fuel with
  | 0 => None
  | S fuel =>
      match node with
      | None => Some s
      | Some l =>
          n ← h !! l;
          foldl (λ s child, s ≫= preOrder fuel h (Some child) callback)
                (Some (callback l n s)) (children n)
      end
  end.

Fixpoint postOrder {St} (fuel : nat) (h : heap V) (node : option ref)
    (callback : ref → TreeNode V → St → St) (s : St) : option St :=
  match fuel with
  | 0 => None
  | S fuel =>
      match node with
      | None => Some s
      | Some l =>
          n ← h !! l;
          s ← foldl (λ s child, s ≫= postOrder fuel h (Some child) callback)
                    (Some s) (children n);
          Some (callback l n s)
      end
  end.

(** The loop of [levelOrder]: [queue.shift()], the callback, then
    [queue.push(...node.children)]. *)
Fixpoint levelOrder_loop {St} (fuel : nat) (h : heap V) (queue : list ref)
    (callback : ref → TreeNode V → St → St) (s : St) : option St :=
  match fuel with
  | 0 => None
  | S fuel =>
      match queue with
      | [] => Some s
      | l :: queue =>
          node ← h !! l;
          levelOrder_loop fuel h (queue ++ children node) callback
                          (callback l node s)
      end
  end.

Definition levelOrder {St} (fuel : nat) (h : heap V) (this : Tree)
    (callback : ref → TreeNode V → St → St) (s : St) : option St :=
  match root this with
  | None => Some s
  | Some r => levelOrder_loop fuel h [r] callback s
  end.

(** [find]: the callback overwrites [result] at every node that matches.
    [===] on the values is equality: the values are strings, or numbers
    other than [NaN]. *)
Definition find (fuel : nat) (h : heap V) (this : Tree) (v : V)
    : option (option ref) :=
  preOrder fuel h (root this)
    (λ l node result, if decide (value node = v) then Some l else result)
    None.

Definition countNodes (fuel : nat) (h : heap V) (this : Tree) : option nat :=
  preOrder fuel h (root this) (λ _ _ count, S count) 0.

Definition getLeaves (fuel : nat) (h : heap V) (this : Tree)
    : option (list ref) :=
  preOrder fuel h (root this)
    (λ l node leaves, if isLeaf node then leaves ++ [l] else leaves) [].
End tree.
End TreeM.

(** ** Binary trees *)
Module BinaryTreeNodeM.
Section binary_tree_node.
Context {V : Type}.

Record BinaryTreeNode := mkBinaryTreeNode {
  value : V;
  left : option ref;
  right : option ref;
  parent : option ref;
}.

Local Abbreviation heap := (list BinaryTreeNode).

(** [new BinaryTreeNode(value)] *)
Definition new (v : V) (h : heap) : ref * heap :=
  (length h,
   h ++ [{| value := v; left := None; right := None; parent := None |}]).

Definition isLeaf (this : BinaryTreeNode) : bool :=
  negb (bool_decide (is_Some (left this)))
  && negb (bool_decide (is_Some (right this))).
End binary_tree_node.
Global Arguments BinaryTreeNode : clear implicits.
Abbreviation heap V := (list (BinaryTreeNode V)).
End BinaryTreeNodeM.

Module BinaryTreeM.
Import BinaryTreeNodeM.
Section binary_tree.
Context {V : Type}.

Record BinaryTree := mkBinaryTree {
  root : option ref;
}.

Definition new (rootValue : option V) (h : heap V) : BinaryTree * heap V :=
  match rootValue with
  | Some v => let '(r, h) := BinaryTreeNodeM.new v h in ({| root := Some r |}, h)
  | None => ({| root := None |}, h)
  end.

Fixpoint inOrder {St} (fuel : nat) (h : heap V) (node : option ref)
    (callback : ref → BinaryTreeNode V → St → St) (s : St) : option St :=
  match fuel with
  | 0 => None
  | S fuel =>
      match node with
      | None => Some s
      | Some l =>
          n ← h !! l;
          s ← inOrder fuel h (left n) callback s;
          inOrder fuel h (right n) callback (callback l n s)
      end
  end.

Fixpoint preOrder {St} (fuel : nat) (h : heap V) (node : option ref)
    (callback : ref → BinaryTreeNode V → St → St) (s : St) : option St :=
  match fuel with
  | 0 => None
  | S fuel =>
      match node with
      | None => Some s
      | Some l =>
          n ← h !! l;
          s ← preOrder fuel h (left n) callback (callback l n s);
          preOrder fuel h (right n) callback s
      end
  end.

Fixpoint postOrder {St} (fuel : nat) (h : heap V) (node : option ref)
    (callback : ref → BinaryTreeNode V → St → St) (s : St) : option St :=
  match fuel with
  | 0 => None
  | S fuel =>
      match node with
      | None => Some s
      | Some l =>
          n ← h !! l;
          s ← postOrder fuel h (left n) callback s;
          s ← postOrder fuel h (right n) callback s;
          Some (callback l n s)
      end
  end.

(** [getHeight(node)]: [-1] for [null]. *)
Fixpoint getHeight (fuel : nat) (h : heap V) (node : option ref) : option Z :=
  match fuel with
  | 0 => None
  | S fuel =>
      match node with
      | None => Some (-1)%Z
      | Some l =>
          n ← h !! l;
          hl ← getHeight fuel h (left n);
          hr ← getHeight fuel h (right n);
          Some (1 + hl `max` hr)%Z
      end
  end.
End binary_tree.
End BinaryTreeM.

(** * Specification-level definitions

    Nothing below is part of the program: these are the notions the
    statements and proofs about it are phrased with. *)

(** ** Runs that leave the store alone *)

(** [runs m σ t v]: started in [σ], [m] ends in [σ] with trace [t] and
    value [v]. *)
Definition runs {A} (m : M A) (σ : store) (t : list event) (v : exn + A) : Prop :=
  m σ = Outcome σ t v.

Definition read_only {A} (m : M A) : Prop := ∀ σ, final (m σ) = σ.

(** The result a run returned, if it did not throw. *)
Definition returned {A} (o : outcome A) : option A :=
  match value o with inr a => Some a | inl _ => None end.

(** The verdict of a search: [isIsomorphic] of the returned result. *)
Definition verdict (o : outcome SearchResult) : option (option bool) :=
  isIsomorphic <$> returned o.

Definition is_candidate (e : event) : bool :=
  match e with Candidate _ => true | OnProgress _ => false end.

(** How many candidates a run drew from its enumeration. *)
Definition count_candidates (t : list event) : nat :=
  length (List.filter is_candidate t).

(** The trace and value of [for_of] when each iteration leaves the store
    alone, has trace [tr x s] and value [f x s]. *)
Fixpoint loop {A S R} (f : A → S → exn + flow S R) (tr : A → S → list event)
    (l : list A) (s : S) : list event * (exn + flow S R) :=
  match l with
  | [] => ([], inr (Continue s))
  | x :: l' =>
      match f x s with
      | inr (Continue s') =>
          let r := loop f tr l' s' in (tr x s ++ r.1, r.2)
      | inr (Return r) => (tr x s ++ [], inr (Return r))
      | inl e => (tr x s, inl e)
      end
  end.

(** The first element of [l] that passes [check], with its 1-based position
    counted from [c]. *)
Fixpoint first_valid {A} (check : A → bool) (l : list A) (c : nat)
    : option (A * nat) :=
  match l with
  | [] => None
  | x :: l' => if check x then Some (x, S c) else first_valid check l' (S c)
  end.

(** ** Values the searches compute *)

(** The value of [checkInvariants] on two graphs. *)
Definition invariants (G1 G2 : Graph) : InvariantCheck :=
  let checks :=
    {| vertexCount := bool_decide (getVertexCount G1 = getVertexCount G2);
       edgeCount := bool_decide (getEdgeCount G1 = getEdgeCount G2);
       degreeSequence :=
         bool_decide (JSON_stringify (getDegreeSequence G1)
                      = JSON_stringify (getDegreeSequence G2)) |} in
  {| isomorphismPossible := forallb (λ v, v) (Object_values checks);
     checks := checks;
     details := (mkDetail (getVertexCount G1) (getEdgeCount G1) (getDegreeSequence G1),
                 mkDetail (getVertexCount G2) (getEdgeCount G2) (getDegreeSequence G2)) |}.

Definition preserves (G1 G2 : Graph) (mapping : Mapping) (v1 v2 : vertex) : bool :=
  bool_decide (areAdjacent (Some v1) (Some v2) G1
               = areAdjacent (mapping_get v1 mapping) (mapping_get v2 mapping) G2).

(** The value of [isValidMapping]. *)
Definition valid (G1 G2 : Graph) (mapping : Mapping) : bool :=
  forallb (λ v1, forallb (preserves G1 G2 mapping v1) (vertices G1)) (vertices G1).

(** The pairs the loop [assign] adds: the i-th key with the i-th array read. *)
Definition paired (keys perm : list vertex) : Mapping :=
  imap (λ i k, (k, perm !! i)) keys.

(** A list of vertex pairs that preserves adjacency and non-adjacency. *)
Definition pairs_preserve (G1 G2 : Graph) (L : list (vertex * vertex)) : Prop :=
  ∀ u x v y, (u, x) ∈ L → (v, y) ∈ L →
    areAdjacent (Some u) (Some v) G1 = areAdjacent (Some x) (Some y) G2.

(** A mapping that pairs the vertices of one list, in some order, with the
    vertices of another, in some order. *)
Definition pairing (vs1 vs2 : list vertex) (m : Mapping) : Prop :=
  ∃ ks ps, m = paired ks ps ∧ ks ≡ₚ vs1 ∧ ps ≡ₚ vs2.

(** Some permutation of the second graph's vertices is a valid mapping. *)
Definition has_valid (G1 G2 : Graph) : Prop :=
  ∃ perm, perm ≡ₚ vertices G2
    ∧ valid G1 G2 (assign (vertices G1) perm JsMap.empty) = true.

(** The result object of a successful search. *)
Definition found (mapping : Mapping) (ic : InvariantCheck) (k : nat)
    (opt : option bool) : SearchResult :=
  {| isIsomorphic := Some true;
     reason := None;
     invariantCheck := ic;
     mapping := Some (Object_fromEntries mapping);
     permutationsChecked := Some k;
     optimized := opt |}.

(** One iteration of the loop of [detectIsomorphism]. *)
Definition brute_step (G1 G2 : Graph) (ic : InvariantCheck)
    (perm : list vertex) (c : nat) : exn + flow nat SearchResult :=
  let mapping := assign (vertices G1) perm JsMap.empty in
  inr (if valid G1 G2 mapping
       then Return (found mapping ic (S c) None)
       else Continue (S c)).

Definition brute_events (G1 : Graph) (onP : bool) (tot : nat)
    (perm : list vertex) (c : nat) : list event :=
  [Candidate (assign (vertices G1) perm JsMap.empty)]
  ++ (if onP then [OnProgress {| checked := S c; total := Some tot |}] else [])
  ++ [] ++ [].

(** What [detectIsomorphism] returns after its loop. *)
Definition brute_finish (ic : InvariantCheck)
    (v : exn + flow nat SearchResult) : exn + SearchResult :=
  match v with
  | inl e => inl e
  | inr (Return r) => inr r
  | inr (Continue c) =>
      inr {| isIsomorphic := Some false;
             reason := Some "No valid mapping found after checking all permutations";
             invariantCheck := ic;
             mapping := None;
             permutationsChecked := Some c;
             optimized := None |}
  end.

(** One iteration of the grouping loop, and the groups of a graph. *)
Definition group_step (G : Graph) (degreeGroups : JsMap.t nat (list vertex))
    (v : vertex) : JsMap.t nat (list vertex) :=
  let degree := getDegree v G in
  let degreeGroups :=
    if negb (JsMap.has degree degreeGroups)
    then JsMap.set degree [] degreeGroups
    else degreeGroups in
  JsMap.update (λ group, group ++ [v]) degree degreeGroups.

Definition groups_of (G : Graph) : JsMap.t nat (list vertex) :=
  foldl (group_step G) JsMap.empty (vertices G).

(** The degrees of the vertices, in the order of the vertex set. *)
Definition degrees_of (G : Graph) : list nat :=
  (λ v, getDegree v G) <$> vertices G.

(** The groups after the grouping loop has seen the vertices [vs]. *)
Definition groups_from (G : Graph) (vs : list vertex) : JsMap.t nat (list vertex) :=
  foldl (group_step G) JsMap.empty vs.

(** The vertices of [vs] that have degree [d] in [G], in the order of [vs]. *)
Definition with_degree (G : Graph) (d : nat) (vs : list vertex) : list vertex :=
  filter (λ v, getDegree v G = d) vs.

(** [generateMappings], by recursion on the degrees that remain. *)
Fixpoint compose (degreeGroups1 degreeGroups2 : JsMap.t nat (list vertex))
    (ds : list nat) (currentMapping : Mapping) : list yielded :=
  match ds with
  | [] => [Yield currentMapping]
  | degree :: ds' =>
      match JsMap.get degree degreeGroups2 with
      | None => [Raise TypeError]
      | Some group2 =>
          perm ← permute group2;
          match JsMap.get degree degreeGroups1 with
          | None => [Raise TypeError]
          | Some group1 =>
              compose degreeGroups1 degreeGroups2 ds'
                      (assign group1 perm currentMapping)
          end
      end
  end.

(** The mapping after the assignment loop has run for each group in turn. *)
Definition assigns (groups perms : list (list vertex)) (m : Mapping) : Mapping :=
  foldl (λ m gp, assign gp.1 gp.2 m) m (zip groups perms).

(** One iteration of the loop of [detectIsomorphismOptimized]. *)
Definition optimized_step (G1 G2 : Graph) (ic : InvariantCheck)
    (item : yielded) (c : nat) : exn + flow nat SearchResult :=
  match item with
  | Raise e => inl e
  | Yield mapping =>
      inr (if valid G1 G2 mapping
           then Return (found mapping ic (S c) (Some true))
           else Continue (S c))
  end.

Definition optimized_events (onP : bool) (item : yielded) (c : nat)
    : list event :=
  match item with
  | Raise e => []
  | Yield mapping =>
      [Candidate mapping]
      ++ (if onP && bool_decide (S c `mod` 100 = 0)
          then [OnProgress {| checked := S c; total := None |}] else [])
      ++ [] ++ []
  end.

Definition optimized_items (G1 G2 : Graph) : list yielded :=
  generateMappings (groups_of G1) (groups_of G2)
                   (JsMap.keys (groups_of G1)) 0 JsMap.empty.

Definition optimized_finish (ic : InvariantCheck)
    (v : exn + flow nat SearchResult) : exn + SearchResult :=
  match v with
  | inl e => inl e
  | inr (Return r) => inr r
  | inr (Continue c) =>
      inr {| isIsomorphic := Some false;
             reason := Some "No valid mapping found";
             invariantCheck := ic;
             mapping := None;
             permutationsChecked := Some c;
             optimized := Some true |}
  end.

(** Some mapping the generator yields is valid. *)
Definition has_valid_item (G1 G2 : Graph) : Prop :=
  ∃ m, Yield m ∈ optimized_items G1 G2 ∧ valid G1 G2 m = true.

(** ** Properties of graphs and mappings *)

(** The four properties of a graph object are what they were. *)
Definition unchanged (before after : Graph) : Prop :=
  vertices after = vertices before
  ∧ adjacencyList after = adjacencyList before
  ∧ edges after = edges before
  ∧ isDirected after = isDirected before.

(** The invariant of the [Graph] class. *)
Record class_inv (g : Graph) : Prop := {
  inv_set : NoDup (vertices g);
  inv_keys : ∀ v, is_Some (adjacencyList g !! v) ↔ v ∈ vertices g;
  inv_closed : ∀ u v, v ∈ getNeighbors u g → u ∈ vertices g ∧ v ∈ vertices g;
  inv_edges : ∀ u v, (u, v) ∈ edges g → v ∈ getNeighbors u g;
  inv_sym : isDirected g = false →
            ∀ u v, v ∈ getNeighbors u g → u ∈ getNeighbors v g;
}.

(** A graph without repeated entries in its neighbour lists: no edge added
    twice and, when undirected, no self-loop. *)
Definition simple (G : Graph) : Prop := ∀ u, NoDup (getNeighbors u G).

(** The returned object read as a function: [mapping[v]]. *)
Definition image (m : gmap string jsval) (v : vertex) : jsval :=
  mjoin (m !! ToPropertyKey v).

(** What the header of [isomorphism.js] calls an isomorphism: a bijection
    [f] between the vertex sets under which two vertices are adjacent
    exactly when their images are. *)
Record isomorphism (G1 G2 : Graph) (f : vertex → jsval) : Prop := {
  iso_into : ∀ u, u ∈ vertices G1 → ∃ x, f u = Some x ∧ x ∈ vertices G2;
  iso_inj : ∀ u v, u ∈ vertices G1 → v ∈ vertices G1 → f u = f v → u = v;
  iso_onto : ∀ x, x ∈ vertices G2 → ∃ u, u ∈ vertices G1 ∧ f u = Some x;
  iso_adjacent : ∀ u v, u ∈ vertices G1 → v ∈ vertices G1 →
    areAdjacent (Some u) (Some v) G1 = areAdjacent (f u) (f v) G2;
}.

(** Decimal digits, the only characters of a printed degree. *)
Definition is_digit (c : ascii) : Prop :=
  c ∈ ["0"; "1"; "2"; "3"; "4"; "5"; "6"; "7"; "8"; "9"]%char.

Fixpoint digits (s : string) : Prop :=
  match s with
  | EmptyString => True
  | String c s' => is_digit c ∧ digits s'
  end.

(** The arguments of the calls of [onProgress] a run made, in order. *)
Definition reports (t : list event) : list progress :=
  omap (λ e, match e with OnProgress p => Some p | Candidate _ => None end) t.


(** What one call [addEdge(v1, v2)], recorded as the edge [e], pushes on the
    neighbour list of [u]: [v2] when [u] is [v1], then [v1] when the graph
    is undirected and [u] is [v2]. *)
Definition pushed (d : bool) (u : vertex) (e : vertex * vertex) : list vertex :=
  (if decide (e.1 = u) then [e.2] else [])
  ++ (if negb d && bool_decide (e.2 = u) then [e.1] else []).

(** The neighbour list of [u] that the recorded edges dictate. *)
Definition neighbors_from (d : bool) (es : list (vertex * vertex)) (u : vertex)
    : list vertex :=
  es ≫= pushed d u.

(** The fields of a graph object agree with each other. *)
Record consistent (g : Graph) : Prop := {
  cons_set : NoDup (vertices g);
  cons_edges : ∀ u v, (u, v) ∈ edges g → u ∈ vertices g ∧ v ∈ vertices g;
  cons_adj : ∀ u, adjacencyList g !! u
                  = if decide (u ∈ vertices g)
                    then Some (neighbors_from (isDirected g) (edges g) u)
                    else None;
}.

(** The vertices a construction history mentions, and the edges it adds. *)
Definition mentioned (o : op) : list vertex :=
  match o with
  | AddVertex v => [v]
  | AddEdge v1 v2 => [v1; v2]
  end.

Definition added (o : op) : list (vertex * vertex) :=
  match o with
  | AddVertex _ => []
  | AddEdge v1 v2 => [(v1, v2)]
  end.

(** ** Trees in the heap *)

(** A finite tree of references: the unfolding of the [children] arrays
    below a node, when no node is reachable from itself. *)
Inductive rose := Rose (l : ref) (kids : list rose).

Definition rose_root (t : rose) : ref :=
  match t with Rose l _ => l end.

(** The nodes in pre-order, in post-order, and the height. *)
Fixpoint pre (t : rose) : list ref :=
  match t with Rose l kids => l :: (kids ≫= pre) end.

Fixpoint post (t : rose) : list ref :=
  match t with Rose l kids => (kids ≫= post) ++ [l] end.

Fixpoint height (t : rose) : nat :=
  match t with
  | Rose _ [] => 0
  | Rose _ kids => 1 + max_list (height <$> kids)
  end.

(** [shape h t]: below the node [rose_root t], the heap [h] holds the tree
    [t]. *)
Inductive shape {V} (h : TreeNodeM.heap V) : rose → Prop :=
  | shape_node l n kids :
      h !! l = Some n →
      TreeNodeM.children n = rose_root <$> kids →
      Forall (shape h) kids →
      shape h (Rose l kids).

(** What a traversal that calls [callback] on the nodes [ls], in this order,
    makes of the callback's state. *)
Definition visits {V S} (h : TreeNodeM.heap V)
    (callback : ref → TreeNodeM.TreeNode V → S → S) (s : S) (ls : list ref) : S :=
  foldl (λ s (l : ref),
           match h !! l with Some n => callback l n s | None => s end) s ls.

(** Binary trees of references. *)
Inductive bin :=
  | Tip
  | Bin (l : ref) (lt rt : bin).

Definition bin_root (t : bin) : option ref :=
  match t with Tip => None | Bin l _ _ => Some l end.

Fixpoint bin_in (t : bin) : list ref :=
  match t with Tip => [] | Bin l lt rt => bin_in lt ++ l :: bin_in rt end.

Fixpoint bin_pre (t : bin) : list ref :=
  match t with Tip => [] | Bin l lt rt => l :: bin_pre lt ++ bin_pre rt end.

Fixpoint bin_post (t : bin) : list ref :=
  match t with Tip => [] | Bin l lt rt => bin_post lt ++ bin_post rt ++ [l] end.

(** The number of nodes on the longest path from the root. *)
Fixpoint bin_depth (t : bin) : nat :=
  match t with Tip => 0 | Bin _ lt rt => S (bin_depth lt `max` bin_depth rt) end.

Inductive bin_shape {V} (h : BinaryTreeNodeM.heap V) : bin → Prop :=
  | bin_shape_tip : bin_shape h Tip
  | bin_shape_node l n lt rt :
      h !! l = Some n →
      BinaryTreeNodeM.left n = bin_root lt →
      BinaryTreeNodeM.right n = bin_root rt →
      bin_shape h lt → bin_shape h rt →
      bin_shape h (Bin l lt rt).

Definition bin_visits {V S} (h : BinaryTreeNodeM.heap V)
    (callback : ref → BinaryTreeNodeM.BinaryTreeNode V → S → S) (s : S)
    (ls : list ref) : S :=
  foldl (λ s (l : ref),
           match h !! l with Some n => callback l n s | None => s end) s ls.

(** The nodes level by level, each level from left to right: the roots of
    the forest [q], then the levels of the forest of their children, down
    to depth [d]. *)
Definition rose_kids (t : rose) : list rose :=
  match t with Rose _ kids => kids end.

Fixpoint levels (d : nat) (q : list rose) : list ref :=
  match d with
  | 0 => []
  | S d => (rose_root <$> q) ++ levels d (q ≫= rose_kids)
  end.

(** ** Example graphs *)

(** The graph a construction history builds from [new Graph(d)]. *)
Definition graph_of (d : bool) (ops : list op) : Graph :=
  default (new d) (run_ops ops (new d)).

(** A store holding [a] at reference 0 and [b] at every other reference. *)
Definition store_of (a b : Graph) : store :=
  λ l, match l with 0 => a | _ => b end.

Definition triangle_abc : Graph :=
  graph_of false [AddEdge (VStr "A") (VStr "B"); AddEdge (VStr "B") (VStr "C");
                  AddEdge (VStr "C") (VStr "A")].

Definition triangle_123 : Graph :=
  graph_of false [AddEdge (VNum 1) (VNum 2); AddEdge (VNum 2) (VNum 3);
                  AddEdge (VNum 3) (VNum 1)].

Definition path_abc : Graph :=
  graph_of false [AddEdge (VStr "A") (VStr "B"); AddEdge (VStr "B") (VStr "C")].

Definition square : Graph :=
  graph_of false [AddEdge (VStr "A") (VStr "B"); AddEdge (VStr "B") (VStr "C");
                  AddEdge (VStr "C") (VStr "D"); AddEdge (VStr "D") (VStr "A")].

Definition path_abcd : Graph :=
  graph_of false [AddEdge (VStr "A") (VStr "B"); AddEdge (VStr "B") (VStr "C");
                  AddEdge (VStr "C") (VStr "D")].

(** [n] vertices [1 .. n] and no edge. *)
Definition isolated (n : nat) : Graph :=
  graph_of false (AddVertex <$> (VNum <$> (Z.of_nat <$> seq 1 n))).

(** A graph whose vertices are the number [1] and the string ["1"]. *)
Definition mixed_graph : Graph :=
  graph_of false [AddVertex (VNum 1); AddVertex (VStr "1")].

Definition ab_graph : Graph :=
  graph_of false [AddVertex (VStr "a"); AddVertex (VStr "b")].

(** Two paths a-b-c-d and 1-2-3-4 whose edges are repeated 1,3,2 and 1,1,4
    times: the same degree sequence [5;4;2;1], on different vertices. *)
Definition multi_a : Graph :=
  graph_of false [AddEdge (VStr "a") (VStr "b");
                  AddEdge (VStr "b") (VStr "c"); AddEdge (VStr "b") (VStr "c");
                  AddEdge (VStr "b") (VStr "c");
                  AddEdge (VStr "c") (VStr "d"); AddEdge (VStr "c") (VStr "d")].

Definition multi_b : Graph :=
  graph_of false [AddEdge (VNum 1) (VNum 2); AddEdge (VNum 2) (VNum 3);
                  AddEdge (VNum 3) (VNum 4); AddEdge (VNum 3) (VNum 4);
                  AddEdge (VNum 3) (VNum 4); AddEdge (VNum 3) (VNum 4)].

Definition triangles : store := store_of triangle_abc triangle_123.
Definition path_and_triangle : store := store_of path_abc triangle_123.
Definition square_and_path : store := store_of square path_abcd.
Definition large_pair : store := store_of (isolated 11) (isolated 13).
Definition empty_pair : store := store_of (new false) (new true).
Definition mixed_pair : store := store_of mixed_graph ab_graph.
Definition multi_pair : store := store_of multi_a multi_b.

(** ** Further examples *)

Definition hexagon : Graph :=
  graph_of false [AddEdge (VNum 1) (VNum 2); AddEdge (VNum 2) (VNum 3);
                  AddEdge (VNum 3) (VNum 4); AddEdge (VNum 4) (VNum 5);
                  AddEdge (VNum 5) (VNum 6); AddEdge (VNum 6) (VNum 1)].

Definition two_triangles : Graph :=
  graph_of false [AddEdge (VStr "a") (VStr "b"); AddEdge (VStr "b") (VStr "c");
                  AddEdge (VStr "c") (VStr "a");
                  AddEdge (VStr "x") (VStr "y"); AddEdge (VStr "y") (VStr "z");
                  AddEdge (VStr "z") (VStr "x")].

Definition hexagon_pair : store := store_of hexagon two_triangles.

Definition with_callback : Options :=
  {| maxVertices := None; onProgress := true |}.

Definition identity_pairing : Mapping :=
  assign (vertices triangle_abc) (vertices triangle_123) JsMap.empty.

(** The tree of the README: a root with two children, built through the
    classes. References are given out in creation order. *)
Definition readme_tree : TreeM.Tree * TreeNodeM.heap string :=
  let '(tree, h) := TreeM.new (Some "root") [] in
  let '(child1, h) := TreeNodeM.new "child1" h in
  let '(child2, h) := TreeNodeM.new "child2" h in
  let h := default h (r ← TreeM.root tree; TreeNodeM.addChild r child1 h) in
  let h := default h (r ← TreeM.root tree; TreeNodeM.addChild r child2 h) in
  (tree, h).

Definition readme_rose : rose := Rose 0 [Rose 1 []; Rose 2 []].

(** Three binary nodes linked by hand, as the class has no method that
    links them: "b" with the children "a" and "c". *)
Definition small_binary_heap : BinaryTreeNodeM.heap string :=
  [ {| BinaryTreeNodeM.value := "b"; BinaryTreeNodeM.left := Some 1;
       BinaryTreeNodeM.right := Some 2; BinaryTreeNodeM.parent := None |};
    {| BinaryTreeNodeM.value := "a"; BinaryTreeNodeM.left := None;
       BinaryTreeNodeM.right := None; BinaryTreeNodeM.parent := Some 0 |};
    {| BinaryTreeNodeM.value := "c"; BinaryTreeNodeM.left := None;
       BinaryTreeNodeM.right := None; BinaryTreeNodeM.parent := Some 0 |} ].

Definition small_bin : bin := Bin 0 (Bin 1 Tip Tip) (Bin 2 Tip Tip).

(** Two fresh nodes, not linked yet. *)
Definition two_nodes : TreeNodeM.heap string :=
  let '(_, h) := TreeNodeM.new "parent" [] in
  let '(_, h) := TreeNodeM.new "child" h in
  h.

(** * Proofs *)

Section permute.
Context {A : Type}.
Implicit Types arr p : list A.

Lemma short_Permutation arr p : length arr ≤ 1 → p ≡ₚ arr → p = arr.
Proof.
  destruct arr as [|x [|y arr]]; simpl; intros Hlen Hp.
  - by apply Permutation_nil_r.
  - by apply Permutation_singleton_r.
  - lia.
Qed.

Lemma remaining_Permutation arr i x :
  arr !! i = Some x → arr ≡ₚ x :: (take i arr ++ drop (i + 1) arr).
Proof.
  intros Hi. rewrite Nat.add_1_r, <-delete_take_drop.
  by apply delete_Permutation.
Qed.

Lemma permute_fuel_spec fuel arr p :
  length arr ≤ fuel → p ∈ permute_fuel fuel arr ↔ p ≡ₚ arr.
Proof.
  revert arr p. induction fuel as [|fuel IH]; intros arr p Hfuel.
  - destruct arr; [|simpl in Hfuel; lia]. simpl.
    rewrite list_elem_of_singleton. split; [by intros ->|].
    by intros ?%Permutation_nil_r.
  - simpl. destruct (decide (length arr ≤ 1)) as [Hshort|Hlong].
    { rewrite list_elem_of_singleton. split; [by intros ->|].
      by apply short_Permutation. }
    rewrite list_elem_of_bind. split.
    + intros (i & Hp & Hi). apply elem_of_seq in Hi.
      destruct (arr !! i) as [x|] eqn:Hx; [|by apply elem_of_nil in Hp].
      apply list_elem_of_fmap in Hp as (perm & -> & Hperm).
      apply IH in Hperm.
      * rewrite Hperm. symmetry. by apply remaining_Permutation.
      * apply remaining_Permutation, Permutation_length in Hx.
        simpl in Hx. lia.
    + intros Hp. destruct p as [|x perm].
      { apply Permutation_nil_l in Hp. subst. simpl in Hlong. lia. }
      assert (x ∈ arr) as Hx by (rewrite <-Hp; left).
      apply list_elem_of_lookup in Hx as [i Hi].
      exists i. split; [|apply elem_of_seq; apply lookup_lt_Some in Hi; lia].
      rewrite Hi. apply list_elem_of_fmap. exists perm. split; [done|].
      pose proof (remaining_Permutation _ _ _ Hi) as Hrem.
      apply IH.
      * apply Permutation_length in Hrem. simpl in Hrem. lia.
      * apply (Permutation_cons_inv (a := x)). by rewrite Hp.
Qed.

Lemma permute_spec arr p : p ∈ permute arr ↔ p ≡ₚ arr.
Proof. by apply permute_fuel_spec. Qed.

Lemma permute_fuel_irrel fuel1 fuel2 arr :
  length arr ≤ fuel1 → length arr ≤ fuel2 →
  permute_fuel fuel1 arr = permute_fuel fuel2 arr.
Proof.
  revert fuel2 arr.
  induction fuel1 as [|fuel1 IH]; intros [|fuel2] arr H1 H2; simpl;
    case_decide; try done; try lia.
  apply list_bind_ext; [|done]. intros i.
  destruct (arr !! i) as [x|] eqn:Hx; [|done].
  apply remaining_Permutation, Permutation_length in Hx. simpl in Hx.
  f_equal. apply IH; lia.
Qed.

Lemma permute_fuel_enough fuel arr :
  length arr ≤ fuel → permute_fuel fuel arr = permute arr.
Proof. intros. by apply permute_fuel_irrel. Qed.

Lemma permute_self arr : arr ∈ permute arr.
Proof. by apply permute_spec. Qed.
End permute.

Section jsmap_facts.
Context {K V : Type} `{EqDecision K}.
Implicit Types m : JsMap.t K V.

Lemma get_None k m : JsMap.get k m = None ↔ k ∉ JsMap.keys m.
Proof.
  unfold JsMap.keys. induction m as [|[k' v] m IH]; simpl.
  - split; [intros _; apply not_elem_of_nil|done].
  - rewrite not_elem_of_cons. case_decide; subst.
    + split; [done|]. by intros [].
    + rewrite IH. split; [by split|by intros []].
Qed.

Lemma get_Some_elem_of k v m : JsMap.get k m = Some v → (k, v) ∈ m.
Proof.
  induction m as [|[k' v'] m IH]; simpl; [done|].
  case_decide; subst.
  - intros [= ->]. left.
  - intros. right. auto.
Qed.

Lemma elem_of_get k v m : NoDup (JsMap.keys m) → (k, v) ∈ m → JsMap.get k m = Some v.
Proof.
  unfold JsMap.keys.
  induction m as [|[k' v'] m IH]; simpl; intros Hnd Hin.
  - by apply elem_of_nil in Hin.
  - apply NoDup_cons in Hnd as [Hk' Hnd].
    apply elem_of_cons in Hin as [[= -> ->]|Hin].
    + by rewrite decide_True.
    + rewrite decide_False; [auto|]. intros ->. apply Hk'.
      apply list_elem_of_fmap. by exists (k, v).
Qed.

Lemma set_fresh k v m : k ∉ JsMap.keys m → JsMap.set k v m = m ++ [(k, v)].
Proof.
  unfold JsMap.keys. induction m as [|[k' v'] m IH]; simpl; [done|].
  rewrite not_elem_of_cons. intros [Hne Hk].
  rewrite decide_False by done. by rewrite IH.
Qed.

Lemma keys_set k v m :
  JsMap.keys (JsMap.set k v m)
  = if decide (k ∈ JsMap.keys m) then JsMap.keys m else JsMap.keys m ++ [k].
Proof.
  unfold JsMap.keys. induction m as [|[k' v'] m IH]; csimpl.
  - done.
  - destruct (decide (k' = k)) as [->|Hne]; csimpl.
    + by rewrite decide_True by set_solver.
    + rewrite IH. destruct (decide (k ∈ m.*1)).
      * by rewrite decide_True by set_solver.
      * by rewrite decide_False by set_solver.
Qed.

Lemma keys_update f k m : JsMap.keys (JsMap.update f k m) = JsMap.keys m.
Proof.
  unfold JsMap.keys. induction m as [|[k' v'] m IH]; simpl; [done|].
  case_decide; simpl; by f_equal.
Qed.
End jsmap_facts.

Section assign.
Implicit Types keys perm : list vertex.
Implicit Types m : Mapping.

Lemma paired_keys keys perm : JsMap.keys (paired keys perm) = keys.
Proof.
  unfold JsMap.keys, paired. apply list_eq. intros i.
  rewrite list_lookup_fmap, list_lookup_imap.
  by destruct (keys !! i).
Qed.

Lemma assign_fresh keys perm m :
  NoDup (JsMap.keys m ++ keys) →
  assign keys perm m = m ++ paired keys perm.
Proof.
  unfold assign. intros Hnd.
  cut (∀ j, j ≤ length keys →
    foldl (λ m i, match keys !! i with
                  | Some k => JsMap.set k (perm !! i) m
                  | None => m
                  end) m (seq 0 j) = m ++ paired (take j keys) perm).
  { intros Hj. rewrite Hj by done. by rewrite firstn_all. }
  induction j as [|j IH]; intros Hj.
  - simpl. by rewrite app_nil_r.
  - rewrite seq_S, foldl_app, IH by lia. simpl.
    destruct (lookup_lt_is_Some_2 keys j) as [k Hk]; [lia|].
    rewrite Hk, (take_S_r _ _ _ Hk).
    unfold paired. rewrite imap_app. simpl.
    rewrite length_take, Nat.min_l, Nat.add_0_r, app_assoc by lia.
    apply set_fresh.
    unfold JsMap.keys. rewrite fmap_app.
    fold (paired (take j keys) perm).
    change (?l.*1) with (JsMap.keys l) at 2. rewrite paired_keys.
    apply NoDup_app in Hnd as (_ & Hdisj & Hkeys).
    rewrite not_elem_of_app. split.
    + intros Hin. apply (Hdisj _ Hin). by eapply list_elem_of_lookup_2.
    + rewrite <-(take_drop_middle _ _ _ Hk) in Hkeys.
      apply NoDup_app in Hkeys as (_ & Hdisj' & _).
      intros Hin. apply (Hdisj' _ Hin). left.
Qed.
End assign.

Section symmetry.
Implicit Types L : list (vertex * vertex).

Lemma pairs_preserve_swap G1 G2 L :
  pairs_preserve G1 G2 L → pairs_preserve G2 G1 (prod_swap <$> L).
Proof.
  intros HL x u y v Hxu Hyv.
  apply list_elem_of_fmap in Hxu as ([u' x'] & [= -> ->] & Hxu).
  apply list_elem_of_fmap in Hyv as ([v' y'] & [= -> ->] & Hyv).
  symmetry. by apply HL.
Qed.

Lemma pairs_preserve_Permutation G1 G2 L L' :
  L ≡ₚ L' → pairs_preserve G1 G2 L → pairs_preserve G1 G2 L'.
Proof.
  intros HLL HL u x v y Hux Hvy. apply HL; by rewrite HLL.
Qed.

Lemma mapping_get_zip keys perm u x :
  NoDup keys → (u, x) ∈ zip keys perm →
  mapping_get u (assign keys perm JsMap.empty) = Some x.
Proof.
  intros Hnd Hux. rewrite assign_fresh by done. simpl.
  apply list_elem_of_lookup in Hux as [i Hi].
  apply lookup_zip_with_Some in Hi as (u' & x' & [= <- <-] & Hu & Hx).
  unfold mapping_get. erewrite elem_of_get; [done| |].
  - by rewrite paired_keys.
  - apply list_elem_of_lookup. exists i. unfold paired.
    by rewrite list_lookup_imap, Hu.
Qed.

Lemma valid_pairs_preserve G1 G2 perm :
  NoDup (vertices G1) → length perm = length (vertices G1) →
  valid G1 G2 (assign (vertices G1) perm JsMap.empty) = true
  ↔ pairs_preserve G1 G2 (zip (vertices G1) perm).
Proof.
  intros Hnd Hlen. unfold valid.
  rewrite <-Is_true_true, forallb_True, Forall_forall.
  setoid_rewrite forallb_True. setoid_rewrite Forall_forall.
  unfold preserves. setoid_rewrite bool_decide_spec. split.
  - intros Hv u x v y Hux Hvy.
    rewrite (Hv u), (mapping_get_zip _ _ u x), (mapping_get_zip _ _ v y);
      eauto using elem_of_zip_l.
  - intros HL v1 Hv1 v2 Hv2.
    apply list_elem_of_lookup in Hv1 as [i Hi], Hv2 as [j Hj].
    destruct (lookup_lt_is_Some_2 perm i) as [x Hx];
      [apply lookup_lt_Some in Hi; lia|].
    destruct (lookup_lt_is_Some_2 perm j) as [y Hy];
      [apply lookup_lt_Some in Hj; lia|].
    assert ((v1, x) ∈ zip (vertices G1) perm) as Hv1.
    { apply list_elem_of_lookup. exists i. apply lookup_zip_with_Some. eauto. }
    assert ((v2, y) ∈ zip (vertices G1) perm) as Hv2.
    { apply list_elem_of_lookup. exists j. apply lookup_zip_with_Some. eauto. }
    rewrite (mapping_get_zip _ _ v1 x), (mapping_get_zip _ _ v2 y) by done.
    by apply HL.
Qed.

Lemma fst_swap L : (prod_swap <$> L).*1 = L.*2.
Proof. induction L as [|[] L IH]; csimpl; by f_equal. Qed.

Lemma snd_swap L : (prod_swap <$> L).*2 = L.*1.
Proof. induction L as [|[] L IH]; csimpl; by f_equal. Qed.

(** An adjacency-preserving pairing of [vertices G1] with a permutation of
    [vertices G2] can be read backwards. *)
Lemma valid_reverse G1 G2 perm :
  NoDup (vertices G1) → NoDup (vertices G2) →
  perm ≡ₚ vertices G2 →
  length (vertices G1) = length (vertices G2) →
  valid G1 G2 (assign (vertices G1) perm JsMap.empty) = true →
  ∃ perm', perm' ≡ₚ vertices G1
    ∧ valid G2 G1 (assign (vertices G2) perm' JsMap.empty) = true.
Proof.
  intros Hnd1 Hnd2 Hperm Hlen Hvalid.
  assert (length perm = length (vertices G1)) as Hlenp.
  { by rewrite Hperm. }
  apply valid_pairs_preserve in Hvalid; [|done..].
  apply pairs_preserve_swap in Hvalid.
  set (L := prod_swap <$> zip (vertices G1) perm) in *.
  assert (L.*1 = perm) as HL1.
  { unfold L. rewrite fst_swap. apply snd_zip. lia. }
  assert (L.*2 = vertices G1) as HL2.
  { unfold L. rewrite snd_swap. apply fst_zip. lia. }
  destruct (Permutation_map_inv fst L (l1 := vertices G2)) as (L' & HL' & HLL').
  { change (vertices G2 ≡ₚ L.*1). by rewrite HL1. }
  change (vertices G2 = L'.*1) in HL'.
  exists (L'.*2). split.
  - by rewrite <-HLL', HL2.
  - apply valid_pairs_preserve; [done|..].
    + by rewrite !length_fmap, <-HLL', <-(length_fmap snd L), HL2.
    + rewrite HL', zip_fst_snd. by eapply pairs_preserve_Permutation.
Qed.
End symmetry.

Section runs.
Context {A B : Type}.

Lemma runs_ret (a : A) σ : runs (mret a) σ [] (inr a).
Proof. done. Qed.

Lemma runs_call g (f : Graph → A) σ : runs (call g f) σ [] (inr (f (σ g))).
Proof. done. Qed.

Lemma runs_throw e σ : runs (throw (A := A) e) σ [] (inl e).
Proof. done. Qed.

Lemma runs_bind (m : M A) (f : A → M B) σ t a t' v :
  runs m σ t (inr a) → runs (f a) σ t' v → runs (m ≫= f) σ (t ++ t') v.
Proof.
  unfold runs, mbind, M_bind. intros -> . simpl. by intros ->.
Qed.

Lemma runs_bind_throw (m : M A) (f : A → M B) σ t e :
  runs m σ t (inl e) → runs (m ≫= f) σ t (inl e).
Proof. unfold runs, mbind, M_bind. by intros ->. Qed.

Lemma runs_final (m : M A) σ t v : runs m σ t v → final (m σ) = σ.
Proof. by intros ->. Qed.
End runs.

Lemma runs_emit e σ : runs (emit e) σ [e] (inr ()).
Proof. done. Qed.

Lemma runs_when c m σ t :
  runs m σ t (inr ()) → runs (when c m) σ (if c then t else []) (inr ()).
Proof. by destruct c. Qed.

Lemma runs_for_of {A S R} (f : A → S → exn + flow S R) tr body σ l s :
  (∀ x s, runs (body x s) σ (tr x s) (f x s)) →
  runs (for_of l s body) σ (loop f tr l s).1 (loop f tr l s).2.
Proof.
  intros Hbody. revert s. induction l as [|x l IH]; intros s; simpl.
  - apply runs_ret.
  - specialize (Hbody x s). destruct (f x s) as [e|[s'|r]]; simpl.
    + by apply runs_bind_throw.
    + eapply runs_bind; [done|]. apply IH.
    + eapply runs_bind; [done|]. apply runs_ret.
Qed.

Lemma checkInvariants_runs g1 g2 σ :
  runs (checkInvariants g1 g2) σ [] (inr (invariants (σ g1) (σ g2))).
Proof. done. Qed.

Lemma runs_for_of_forallb {A} (P : A → bool) body σ (l : list A) :
  (∀ x, runs (body x ()) σ [] (inr (if P x then Continue () else Return false))) →
  runs (for_of (S := ()) (R := bool) l () body) σ []
       (inr (if forallb P l then Continue () else Return false)).
Proof.
  intros Hbody. induction l as [|x l IH]; simpl.
  - apply runs_ret.
  - specialize (Hbody x). eapply (runs_bind _ _ _ []); [done|].
    destruct (P x); simpl; [apply IH|apply runs_ret].
Qed.

Lemma isValidMapping_runs g1 g2 mapping σ :
  runs (isValidMapping g1 g2 mapping) σ [] (inr (valid (σ g1) (σ g2) mapping)).
Proof.
  unfold isValidMapping.
  eapply (runs_bind _ _ _ []); [apply runs_call|].
  eapply (runs_bind _ _ _ []).
  - apply (runs_for_of_forallb
      (λ v1, forallb (preserves (σ g1) (σ g2) mapping v1) (vertices (σ g1)))).
    intros v1.
    apply (runs_for_of_forallb (preserves (σ g1) (σ g2) mapping v1)).
    intros v2.
    eapply (runs_bind _ _ _ []); [apply runs_call|].
    eapply (runs_bind _ _ _ []); [apply runs_call|].
    unfold preserves.
    destruct (decide (areAdjacent (Some v1) (Some v2) (σ g1)
      = areAdjacent (mapping_get v1 mapping) (mapping_get v2 mapping) (σ g2))) as [Heq|Hne].
    + rewrite bool_decide_false, bool_decide_true by auto. apply runs_ret.
    + rewrite bool_decide_true, bool_decide_false by auto. apply runs_ret.
  - fold (valid (σ g1) (σ g2) mapping).
    destruct (valid _ _ _); apply runs_ret.
Qed.

Section first_valid.
Context {A : Type} (check : A → bool).

Lemma first_valid_Some l c x k :
  first_valid check l c = Some (x, k) →
  x ∈ l ∧ check x = true ∧ c < k ≤ c + length l.
Proof.
  revert c. induction l as [|y l IH]; intros c; simpl; [done|].
  destruct (check y) eqn:Hy.
  - intros [= -> <-]. split; [left|]. split; [done|lia].
  - intros (? & ? & ?)%IH. split; [by right|]. split; [done|lia].
Qed.

Lemma first_valid_None l c :
  first_valid check l c = None ↔ ∀ x, x ∈ l → check x = false.
Proof.
  revert c. induction l as [|y l IH]; intros c; simpl.
  - split; [|done]. by intros _ x ?%elem_of_nil.
  - destruct (check y) eqn:Hy.
    + split; [done|]. intros H. rewrite H in Hy; [done|left].
    + rewrite IH. split.
      * intros H x [->|?]%elem_of_cons; auto.
      * intros H x ?. apply H. by right.
Qed.

Lemma first_valid_is_Some l c :
  is_Some (first_valid check l c) ↔ ∃ x, x ∈ l ∧ check x = true.
Proof.
  split.
  - intros [[x k] (? & ? & _)%first_valid_Some]. eauto.
  - intros (x & Hx & Hc). apply not_eq_None_Some. intros Hn.
    rewrite first_valid_None in Hn. rewrite (Hn x Hx) in Hc. done.
Qed.

Lemma loop_search {R} (res : A → nat → R) tr l c :
  (loop (λ x c, inr (if check x then Return (res x (S c)) else Continue (S c)))
        tr l c).2
  = inr (match first_valid check l c with
         | Some (x, k) => Return (res x k)
         | None => Continue (c + length l)
         end).
Proof.
  revert c. induction l as [|y l IH]; intros c; simpl.
  - by rewrite Nat.add_0_r.
  - destruct (check y); simpl; [done|]. rewrite IH.
    by replace (S c + length l) with (c + S (length l)) by lia.
Qed.
End first_valid.

Section brute_force.
Context (σ : store) (g1 g2 : loc) (options : Options).
Let G1 := σ g1.
Let G2 := σ g2.
Let ic := invariants G1 G2.
Let ceiling := default 10%Z (maxVertices options).

Lemma detectIsomorphism_mismatch :
  isomorphismPossible ic = false →
  ∃ r, runs (detectIsomorphism g1 g2 options) σ [] (inr r)
    ∧ isIsomorphic r = Some false
    ∧ reason r = Some "Invariants do not match"
    ∧ mapping r = None
    ∧ permutationsChecked r = None.
Proof.
  intros Hic. eexists. split.
  - unfold detectIsomorphism.
    eapply (runs_bind _ _ _ []); [apply checkInvariants_runs|].
    fold G1 G2 ic. rewrite Hic. apply runs_ret.
  - done.
Qed.

Lemma detectIsomorphism_too_large :
  isomorphismPossible ic = true →
  (ceiling < Z.of_nat (getVertexCount G1))%Z →
  ∃ r, runs (detectIsomorphism g1 g2 options) σ [] (inr r)
    ∧ isIsomorphic r = None
    ∧ reason r = Some ("Graph too large (" +:+ pretty (getVertexCount G1)
                  +:+ " vertices > " +:+ pretty ceiling
                  +:+ " max). Use specialized algorithms.")
    ∧ mapping r = None
    ∧ permutationsChecked r = None.
Proof.
  intros Hic Hn. eexists. split.
  - unfold detectIsomorphism.
    eapply (runs_bind _ _ _ []); [apply checkInvariants_runs|].
    fold G1 G2 ic. rewrite Hic. simpl.
    eapply (runs_bind _ _ _ []); [apply runs_call|].
    fold G1 ceiling. rewrite bool_decide_true by done. apply runs_ret.
  - done.
Qed.

Let candidate (perm : list vertex) : Mapping :=
  assign (vertices G1) perm JsMap.empty.
Let perms := permute (vertices G2).

Lemma detectIsomorphism_search :
  isomorphismPossible ic = true →
  ¬ (ceiling < Z.of_nat (getVertexCount G1))%Z →
  ∃ r, runs (detectIsomorphism g1 g2 options) σ
         ((loop (brute_step G1 G2 ic)
                (brute_events G1 (onProgress options) (length perms))
                perms 0).1 ++ [])
         (inr r)
    ∧ r = match first_valid (λ perm, valid G1 G2 (candidate perm)) perms 0 with
          | Some (perm, k) => found (candidate perm) ic k None
          | None =>
              {| isIsomorphic := Some false;
                 reason := Some "No valid mapping found after checking all permutations";
                 invariantCheck := ic;
                 mapping := None;
                 permutationsChecked := Some (length perms);
                 optimized := None |}
          end.
Proof.
  intros Hic Hn. eexists. split; [|reflexivity].
  - unfold detectIsomorphism.
    eapply (runs_bind _ _ _ []); [apply checkInvariants_runs|].
    fold G1 G2 ic. rewrite Hic. simpl.
    eapply (runs_bind _ _ _ []); [apply runs_call|].
    fold G1 ceiling. rewrite bool_decide_false by done.
    eapply (runs_bind _ _ _ []); [apply runs_call|].
    eapply (runs_bind _ _ _ []); [apply runs_call|].
    fold G1 G2 perms.
    lazymatch goal with
    | |- runs (for_of ?l ?s ?body ≫= _) _ _ _ =>
        eassert (runs (for_of l s body) σ _ _) as Hloop
    end.
    { apply (runs_for_of (brute_step G1 G2 ic)
               (brute_events G1 (onProgress options) (length perms))).
      intros perm c. unfold brute_step. cbv zeta.
      eapply runs_bind; [apply runs_emit|].
      eapply runs_bind; [apply runs_when, runs_emit|].
      eapply runs_bind; [apply isValidMapping_runs|].
      fold G1 G2 (candidate perm).
      destruct (valid G1 G2 (candidate perm)); apply runs_ret. }
    unfold brute_step in Hloop at 2.
    rewrite (loop_search (λ perm, valid G1 G2 (candidate perm))
               (λ perm k, found (candidate perm) ic k None)) in Hloop.
    eapply runs_bind; [exact Hloop|].
    destruct (first_valid _ _ _) as [[perm k]|]; apply runs_ret.
Qed.
End brute_force.

Section json.
Lemma append_nil (s : string) : "" +:+ s = s.
Proof. done. Qed.

Lemma append_cons c (s1 s2 : string) :
  String c s1 +:+ s2 = String c (s1 +:+ s2).
Proof. done. Qed.

Lemma append_assoc (s1 s2 s3 : string) :
  (s1 +:+ s2) +:+ s3 = s1 +:+ s2 +:+ s3.
Proof.
  induction s1 as [|c s1 IH]; [done|]. by rewrite !append_cons, IH.
Qed.

Lemma pretty_N_char_digit x : is_digit (pretty_N_char x).
Proof.
  unfold is_digit, pretty_N_char.
  repeat case_match; set_solver.
Qed.

Lemma pretty_N_go_digits x s : digits s → digits (pretty_N_go x s).
Proof.
  revert s. induction (N.lt_wf_0 x) as [x _ IH]; intros s Hs.
  assert (x = 0 ∨ 0 < x)%N as [->|?] by lia.
  - by rewrite pretty_N_go_0.
  - rewrite pretty_N_go_step by done. apply IH.
    + by apply N.div_lt.
    + split; [apply pretty_N_char_digit|done].
Qed.

Lemma pretty_N_go_nonempty x s : s ≠ "" → pretty_N_go x s ≠ "".
Proof.
  revert s. induction (N.lt_wf_0 x) as [x _ IH]; intros s Hs.
  assert (x = 0 ∨ 0 < x)%N as [->|?] by lia.
  - by rewrite pretty_N_go_0.
  - rewrite pretty_N_go_step by done. apply IH; [by apply N.div_lt|done].
Qed.

Lemma pretty_nat_digits (n : nat) : digits (pretty n) ∧ pretty n ≠ "".
Proof.
  unfold pretty, pretty_nat, pretty, pretty_N. case_decide.
  - split; [|done]. split; [|done]. unfold is_digit. set_solver.
  - split; [by apply pretty_N_go_digits|].
    rewrite pretty_N_go_step by lia. by apply pretty_N_go_nonempty.
Qed.

(** A digit string followed by a non-digit determines both parts. *)
Lemma digits_split x y c d r r' :
  digits x → digits y → ¬ is_digit c → ¬ is_digit d →
  x +:+ String c r = y +:+ String d r' → x = y ∧ c = d ∧ r = r'.
Proof.
  revert y. induction x as [|a x IH]; intros [|b y];
    rewrite ?append_nil, ?append_cons; simpl; intros Hx Hy Hc Hd Heq.
  - by injection Heq as -> ->.
  - injection Heq as -> _. by destruct Hy.
  - injection Heq as <- _. by destruct Hx.
  - injection Heq as -> Heq. destruct Hx, Hy.
    destruct (IH y) as (-> & -> & ->); auto.
Qed.

Lemma concat_cons_close x xs :
  String.concat "," (x :: xs) +:+ "]"
  = x +:+ (match xs with
           | [] => "]"
           | _ => String "," (String.concat "," xs +:+ "]")
           end).
Proof.
  destruct xs; [done|]. cbn [String.concat].
  by rewrite !append_assoc, append_cons, append_nil.
Qed.

Lemma bracket_not_digit : ¬ is_digit "]".
Proof. unfold is_digit. set_solver. Qed.

Lemma comma_not_digit : ¬ is_digit ",".
Proof. unfold is_digit. set_solver. Qed.

Lemma concat_inj (ps qs : list string) :
  Forall (λ s, digits s ∧ s ≠ "") ps → Forall (λ s, digits s ∧ s ≠ "") qs →
  String.concat "," ps +:+ "]" = String.concat "," qs +:+ "]" → ps = qs.
Proof.
  intros Hps. revert qs.
  induction Hps as [|x xs [Hx Hx'] Hxs IH]; intros qs Hqs Heq.
  - destruct Hqs as [|y ys [Hy Hy'] Hys]; [done|].
    rewrite concat_cons_close in Heq. destruct y as [|b y]; [done|].
    rewrite append_nil, append_cons in Heq.
    injection Heq as <- _. destruct Hy as [Hb _].
    by destruct bracket_not_digit.
  - destruct Hqs as [|y ys [Hy Hy'] Hys].
    { rewrite concat_cons_close in Heq. destruct x as [|a x]; [done|].
      rewrite append_nil, append_cons in Heq.
      injection Heq as -> _. destruct Hx as [Ha _].
      by destruct bracket_not_digit. }
    rewrite !concat_cons_close in Heq.
    destruct xs as [|x' xs], ys as [|y' ys].
    + apply digits_split in Heq as (-> & _ & _);
        auto using bracket_not_digit.
    + apply digits_split in Heq as (_ & [=] & _);
        auto using bracket_not_digit, comma_not_digit.
    + apply digits_split in Heq as (_ & [=] & _);
        auto using bracket_not_digit, comma_not_digit.
    + apply digits_split in Heq as (-> & _ & Heq);
        auto using comma_not_digit.
      f_equal. by apply IH.
Qed.

Lemma JSON_stringify_inj : Inj (=) (=) JSON_stringify.
Proof.
  intros a b Heq. unfold JSON_stringify in Heq.
  rewrite !append_cons, !append_nil in Heq. injection Heq as Heq.
  apply concat_inj in Heq.
  - revert Heq. apply (inj (fmap pretty)).
  - apply Forall_fmap, Forall_forall. intros n _. apply pretty_nat_digits.
  - apply Forall_fmap, Forall_forall. intros n _. apply pretty_nat_digits.
Qed.
End json.

Section sort.
Global Instance desc_total : Total desc.
Proof. intros a b. unfold desc. lia. Qed.
Global Instance desc_trans : Transitive desc.
Proof. intros a b c. unfold desc. lia. Qed.
Global Instance desc_antisymm : AntiSymm (=) desc.
Proof. intros a b. unfold desc. lia. Qed.

Lemma sort_desc_Sorted l : Sorted desc (sort_desc l).
Proof. apply Sorted_merge_sort. apply _. Qed.

Lemma sort_desc_Permutation l : sort_desc l ≡ₚ l.
Proof. apply merge_sort_Permutation. Qed.

Lemma sort_desc_eq l1 l2 : sort_desc l1 = sort_desc l2 ↔ l1 ≡ₚ l2.
Proof.
  split.
  - intros Heq. by rewrite <-(sort_desc_Permutation l1), Heq, sort_desc_Permutation.
  - intros Hp. apply (Sorted_unique desc); auto using sort_desc_Sorted.
    by rewrite !sort_desc_Permutation.
Qed.
End sort.

Lemma runs_for_of_fold {A S} (f : S → A → S) body σ (l : list A) s :
  (∀ x s, runs (body x s) σ [] (inr (Continue (f s x)))) →
  runs (for_of (R := Empty_set) l s body) σ [] (inr (Continue (foldl f s l))).
Proof.
  intros Hbody. revert s. induction l as [|x l IH]; intros s; simpl.
  - apply runs_ret.
  - eapply (runs_bind _ _ _ []); [apply Hbody|]. apply IH.
Qed.

Lemma groupByDegree_runs g σ :
  runs (groupByDegree g) σ [] (inr (groups_of (σ g))).
Proof.
  unfold groupByDegree.
  eapply (runs_bind _ _ _ []); [apply runs_call|].
  eapply (runs_bind _ _ _ []).
  - apply (runs_for_of_fold (group_step (σ g))). intros v groups.
    eapply (runs_bind _ _ _ []); [apply runs_call|]. apply runs_ret.
  - apply runs_ret.
Qed.

Section groups.
Context (G : Graph).
Implicit Types groups : JsMap.t nat (list vertex).

Lemma has_keys {V} (m : JsMap.t nat V) k :
  JsMap.has k m = true ↔ k ∈ JsMap.keys m.
Proof.
  unfold JsMap.has. rewrite bool_decide_eq_true, <-not_eq_None_Some, get_None.
  split; [apply dec_stable|auto].
Qed.

Lemma keys_group_step groups v :
  JsMap.keys (group_step G groups v)
  = if decide (getDegree v G ∈ JsMap.keys groups)
    then JsMap.keys groups
    else JsMap.keys groups ++ [getDegree v G].
Proof.
  unfold group_step. rewrite keys_update.
  destruct (JsMap.has _ groups) eqn:Hhas; simpl.
  - apply has_keys in Hhas. by rewrite decide_True.
  - rewrite keys_set. case_decide as Hin; [|done].
    apply has_keys in Hin. congruence.
Qed.

Lemma keys_foldl_group_step groups vs :
  NoDup (JsMap.keys groups) →
  NoDup (JsMap.keys (foldl (group_step G) groups vs))
  ∧ ∀ d, d ∈ JsMap.keys (foldl (group_step G) groups vs)
         ↔ d ∈ JsMap.keys groups ∨ d ∈ (λ v, getDegree v G) <$> vs.
Proof.
  revert groups. induction vs as [|v vs IH]; intros groups Hnd; csimpl.
  - split; [done|]. intros d. rewrite elem_of_nil. naive_solver.
  - destruct (IH (group_step G groups v)) as [Hnd' Hin].
    { rewrite keys_group_step. case_decide; [done|].
      apply NoDup_app. split_and!; [done| |apply NoDup_singleton].
      intros d ? ->%list_elem_of_singleton. done. }
    split; [done|]. intros d. rewrite Hin, keys_group_step, elem_of_cons.
    case_decide; [|rewrite elem_of_app, list_elem_of_singleton]; naive_solver.
Qed.

Lemma groups_of_keys :
  NoDup (JsMap.keys (groups_of G))
  ∧ ∀ d, d ∈ JsMap.keys (groups_of G) ↔ d ∈ degrees_of G.
Proof.
  destruct (keys_foldl_group_step JsMap.empty (vertices G)) as [Hnd Hin].
  { apply NoDup_nil_2. }
  split; [done|]. intros d. unfold groups_of. rewrite Hin.
  unfold JsMap.keys, JsMap.empty. csimpl. rewrite elem_of_nil.
  unfold degrees_of. naive_solver.
Qed.
End groups.

Lemma groups_of_size G1 G2 :
  getDegreeSequence G1 = getDegreeSequence G2 →
  JsMap.size (groups_of G1) = JsMap.size (groups_of G2).
Proof.
  unfold getDegreeSequence. intros Hseq%sort_desc_eq.
  fold (degrees_of G1) (degrees_of G2) in Hseq.
  destruct (groups_of_keys G1) as [Hnd1 Hin1], (groups_of_keys G2) as [Hnd2 Hin2].
  unfold JsMap.size.
  rewrite <-(length_fmap fst (groups_of G1)), <-(length_fmap fst (groups_of G2)).
  apply Permutation_length, NoDup_Permutation; [done..|].
  intros d. change ((?l).*1) with (JsMap.keys l).
  by rewrite Hin1, Hin2, Hseq.
Qed.

Lemma invariants_possible G1 G2 :
  isomorphismPossible (invariants G1 G2) = true
  ↔ getVertexCount G1 = getVertexCount G2
    ∧ getEdgeCount G1 = getEdgeCount G2
    ∧ getDegreeSequence G1 = getDegreeSequence G2.
Proof.
  unfold invariants, Object_values. simpl.
  rewrite !andb_true_iff, !bool_decide_eq_true.
  split.
  - intros (? & ? & ?%JSON_stringify_inj & _). done.
  - intros (? & ? & ->). done.
Qed.

Lemma invariants_sym G1 G2 :
  isomorphismPossible (invariants G1 G2) = isomorphismPossible (invariants G2 G1).
Proof.
  apply eq_true_iff_eq. rewrite !invariants_possible. naive_solver.
Qed.

Section graph.
Implicit Types g : Graph.

Lemma new_inv d : class_inv (new d).
Proof.
  split; simpl; unfold getNeighbors; simpl.
  - apply NoDup_nil_2.
  - intros v. rewrite lookup_empty, elem_of_nil. split; [by intros []|done].
  - intros u v. rewrite lookup_empty. simpl. by intros ?%elem_of_nil.
  - intros u v ?%elem_of_nil. done.
  - intros _ u v. rewrite lookup_empty. simpl. by intros ?%elem_of_nil.
Qed.

Lemma addVertex_vertices v g :
  ∀ u, u ∈ vertices (addVertex v g) ↔ u ∈ vertices g ∨ u = v.
Proof.
  intros u. unfold addVertex, has. case_bool_decide; simpl.
  - naive_solver.
  - rewrite elem_of_app, list_elem_of_singleton. naive_solver.
Qed.

Lemma addVertex_neighbors v g :
  class_inv g → ∀ u, getNeighbors u (addVertex v g) = getNeighbors u g.
Proof.
  intros Hinv u. unfold addVertex, has. case_bool_decide as Hv; simpl; [done|].
  unfold getNeighbors. simpl. destruct (decide (v = u)) as [->|Hne].
  - rewrite lookup_insert_eq.
    destruct (adjacencyList g !! u) eqn:Hu; [|done].
    destruct Hv. apply (inv_keys _ Hinv). eauto.
  - by rewrite lookup_insert_ne.
Qed.

Lemma addVertex_inv v g : class_inv g → class_inv (addVertex v g).
Proof.
  intros Hinv. pose proof (addVertex_neighbors v g Hinv) as HN.
  pose proof (addVertex_vertices v g) as HV.
  split.
  - unfold addVertex, has. case_bool_decide as Hv; simpl; [apply Hinv|].
    apply NoDup_app. split_and!; [apply Hinv| |apply NoDup_singleton].
    intros u ? ->%list_elem_of_singleton. done.
  - intros u. rewrite HV. unfold addVertex, has.
    case_bool_decide as Hv; simpl.
    + rewrite (inv_keys _ Hinv). naive_solver.
    + destruct (decide (v = u)) as [->|Hne].
      * rewrite lookup_insert_eq. naive_solver.
      * rewrite lookup_insert_ne, (inv_keys _ Hinv) by done. naive_solver.
  - intros u w. rewrite HN, !HV. intros []%(inv_closed _ Hinv). auto.
  - intros u w. rewrite HN. unfold addVertex.
    destruct (negb _); simpl; apply Hinv.
  - intros Hd u w. rewrite !HN. apply (inv_sym _ Hinv).
    revert Hd. unfold addVertex. by destruct (negb _).
Qed.

Lemma addVertex_isDirected v g : isDirected (addVertex v g) = isDirected g.
Proof. unfold addVertex. by destruct (negb _). Qed.

Lemma addVertex_edges v g : edges (addVertex v g) = edges g.
Proof. unfold addVertex. by destruct (negb _). Qed.

(** [addEdge] on a graph that satisfies the invariant never throws, and
    adds exactly the new neighbour entries. *)
Lemma addEdge_spec v1 v2 g :
  class_inv g →
  ∃ g', addEdge v1 v2 g = Some g'
    ∧ isDirected g' = isDirected g
    ∧ vertices g' = vertices (addVertex v2 (addVertex v1 g))
    ∧ edges g' = edges g ++ [(v1, v2)]
    ∧ (∀ u, is_Some (adjacencyList g' !! u) ↔ u ∈ vertices g')
    ∧ (∀ u w, w ∈ getNeighbors u g'
              ↔ w ∈ getNeighbors u g
                ∨ (u = v1 ∧ w = v2)
                ∨ (isDirected g = false ∧ u = v2 ∧ w = v1)).
Proof.
  intros Hinv.
  pose proof (addVertex_inv v2 _ (addVertex_inv v1 _ Hinv)) as Hinv2.
  pose proof (λ u, eq_trans (addVertex_neighbors v2 _ (addVertex_inv v1 _ Hinv) u)
                            (addVertex_neighbors v1 _ Hinv u)) as HN.
  assert (isDirected (addVertex v2 (addVertex v1 g)) = isDirected g) as Hd.
  { by rewrite !addVertex_isDirected. }
  assert (edges (addVertex v2 (addVertex v1 g)) = edges g) as He.
  { by rewrite !addVertex_edges. }
  unfold addEdge. set (g2 := addVertex v2 (addVertex v1 g)) in *.
  destruct (proj2 (inv_keys _ Hinv2 v1)) as [l1 Hl1].
  { apply addVertex_vertices. left. apply addVertex_vertices. by right. }
  destruct (proj2 (inv_keys _ Hinv2 v2)) as [l2 Hl2].
  { apply addVertex_vertices. by right. }
  assert (∀ u, getNeighbors u g = default [] (adjacencyList g2 !! u)) as HN'.
  { intros u. by rewrite <-HN. }
  rewrite Hl1. simpl. rewrite Hd, He.
  destruct (isDirected g) eqn:Hdir; simpl.
  - eexists. split; [done|]. simpl. split_and!; try done.
    + intros u. rewrite <-(inv_keys _ Hinv2 u).
      destruct (decide (v1 = u)) as [->|Hne].
      * rewrite lookup_insert_eq, Hl1. split; eauto.
      * by rewrite lookup_insert_ne.
    + intros u w. unfold getNeighbors at 1. simpl. rewrite HN'.
      destruct (decide (v1 = u)) as [->|Hne].
      * rewrite lookup_insert_eq, Hl1. simpl.
        rewrite elem_of_app, list_elem_of_singleton. naive_solver.
      * rewrite lookup_insert_ne by done. naive_solver.
  - assert (<[v1:=l1 ++ [v2]]> (adjacencyList g2) !! v2
            = Some (if decide (v1 = v2) then l1 ++ [v2] else l2)) as Hl2'.
    { case_decide as Heq; [subst; by rewrite lookup_insert_eq|].
      by rewrite lookup_insert_ne. }
    rewrite Hl2'. simpl. eexists. split; [done|]. simpl. split_and!; try done.
    + intros u. rewrite <-(inv_keys _ Hinv2 u).
      destruct (decide (v2 = u)) as [->|Hne2].
      { rewrite lookup_insert_eq, Hl2. split; eauto. }
      rewrite lookup_insert_ne by done.
      destruct (decide (v1 = u)) as [->|Hne1].
      * rewrite lookup_insert_eq, Hl1. split; eauto.
      * by rewrite lookup_insert_ne.
    + intros u w. unfold getNeighbors at 1. simpl. rewrite HN'.
      destruct (decide (v2 = u)) as [->|Hne2].
      * rewrite lookup_insert_eq. simpl. case_decide as Heq.
        -- subst. rewrite Hl1. simpl.
           rewrite !elem_of_app, !list_elem_of_singleton. naive_solver.
        -- rewrite Hl2. simpl.
           rewrite !elem_of_app, !list_elem_of_singleton. naive_solver.
      * rewrite lookup_insert_ne by done.
        destruct (decide (v1 = u)) as [->|Hne1].
        -- rewrite lookup_insert_eq, Hl1. simpl.
           rewrite elem_of_app, list_elem_of_singleton. naive_solver.
        -- rewrite lookup_insert_ne by done. naive_solver.
Qed.

Lemma addEdge_inv v1 v2 g :
  class_inv g → ∃ g', addEdge v1 v2 g = Some g' ∧ class_inv g'
    ∧ isDirected g' = isDirected g.
Proof.
  intros Hinv.
  destruct (addEdge_spec v1 v2 g Hinv) as (g' & Hg' & Hd & HV & HE & HK & HN).
  pose proof (addVertex_inv v2 _ (addVertex_inv v1 _ Hinv)) as Hinv2.
  exists g'. split; [done|]. split; [|done]. split.
  - rewrite HV. apply Hinv2.
  - done.
  - intros u w. rewrite HN, HV, !addVertex_vertices.
    intros [[]%(inv_closed _ Hinv)|[[-> ->]|(_ & -> & ->)]]; auto.
  - intros u w. rewrite HE, HN, elem_of_app, list_elem_of_singleton.
    intros [?%(inv_edges _ Hinv)|[= -> ->]]; auto.
  - rewrite Hd. intros Hdir u w. rewrite !HN.
    intros [?%(inv_sym _ Hinv Hdir)|[[-> ->]|(_ & -> & ->)]]; auto.
Qed.

Lemma run_ops_inv ops g :
  class_inv g →
  ∃ g', run_ops ops g = Some g' ∧ class_inv g' ∧ isDirected g' = isDirected g.
Proof.
  revert g. induction ops as [|o ops IH]; intros g Hinv; simpl.
  - by exists g.
  - destruct o as [v|v1 v2]; simpl.
    + destruct (IH _ (addVertex_inv v g Hinv)) as (g' & ? & ? & Hd).
      exists g'. by rewrite Hd, addVertex_isDirected.
    + destruct (addEdge_inv v1 v2 g Hinv) as (g1 & -> & Hinv1 & Hd1). simpl.
      destruct (IH _ Hinv1) as (g' & ? & ? & Hd).
      exists g'. by rewrite Hd, Hd1.
Qed.

Lemma built_inv g : built g → class_inv g.
Proof.
  intros (d & ops & Hrun).
  destruct (run_ops_inv ops (new d) (new_inv d)) as (g' & Hg' & ? & _).
  congruence.
Qed.

Lemma built_empty g :
  built g → vertices g = [] → g = new (isDirected g).
Proof.
  intros Hinv%built_inv Hv. destruct g as [d adj vs es]. simpl in *. subst.
  unfold new. f_equal.
  - apply map_eq. intros v. rewrite lookup_empty.
    apply eq_None_not_Some. rewrite (inv_keys _ Hinv). simpl.
    apply not_elem_of_nil.
  - destruct es as [|[u v] es]; [done|].
    destruct (inv_closed _ Hinv u v) as [Hu _].
    + apply (inv_edges _ Hinv). left.
    + by apply elem_of_nil in Hu.
Qed.

Lemma areAdjacent_neighbors u v g :
  areAdjacent (Some u) (Some v) g = bool_decide (v ∈ getNeighbors u g).
Proof.
  unfold areAdjacent, getNeighbors. simpl.
  by destruct (adjacencyList g !! u).
Qed.
End graph.

Section read_only.
Context {A B : Type}.

Lemma read_only_ret (a : A) : read_only (mret a).
Proof. done. Qed.
Lemma read_only_call g (f : Graph → A) : read_only (call g f).
Proof. done. Qed.
Lemma read_only_throw e : read_only (throw (A := A) e).
Proof. done. Qed.
Lemma read_only_bind (m : M A) (f : A → M B) :
  read_only m → (∀ a, read_only (f a)) → read_only (m ≫= f).
Proof.
  intros Hm Hf σ. unfold mbind, M_bind. specialize (Hm σ).
  destruct (m σ) as [σ' t [e|a]]; simpl in *; [done|].
  subst. apply Hf.
Qed.
End read_only.

Lemma read_only_emit e : read_only (emit e).
Proof. done. Qed.
Lemma read_only_when c m : read_only m → read_only (when c m).
Proof. by destruct c. Qed.

Lemma read_only_for_of {A S R} (l : list A) (s : S) (body : A → S → M (flow S R)) :
  (∀ x s, read_only (body x s)) → read_only (for_of l s body).
Proof.
  intros Hbody. revert s. induction l as [|x l IH]; intros s; simpl.
  - apply read_only_ret.
  - apply read_only_bind; [done|]. intros [s'|r]; [apply IH|apply read_only_ret].
Qed.

Lemma read_only_runs {A} (m : M A) σ t v : runs m σ t v → final (m σ) = σ.
Proof. by intros ->. Qed.

Lemma checkInvariants_read_only g1 g2 : read_only (checkInvariants g1 g2).
Proof. done. Qed.

Lemma isValidMapping_read_only g1 g2 mapping :
  read_only (isValidMapping g1 g2 mapping).
Proof. intros σ. eapply read_only_runs, isValidMapping_runs. Qed.

Lemma groupByDegree_read_only g : read_only (groupByDegree g).
Proof. intros σ. eapply read_only_runs, groupByDegree_runs. Qed.

Lemma detectIsomorphism_read_only g1 g2 options :
  read_only (detectIsomorphism g1 g2 options).
Proof.
  unfold detectIsomorphism.
  apply read_only_bind; [apply checkInvariants_read_only|]. intros ic.
  destruct (negb _); [apply read_only_ret|].
  apply read_only_bind; [apply read_only_call|]. intros n.
  case_bool_decide; [apply read_only_ret|].
  apply read_only_bind; [apply read_only_call|]. intros vertices1.
  apply read_only_bind; [apply read_only_call|]. intros vertices2.
  apply read_only_bind.
  - apply read_only_for_of. intros perm c. cbv zeta.
    apply read_only_bind; [apply read_only_emit|]. intros _.
    apply read_only_bind; [apply read_only_when, read_only_emit|]. intros _.
    apply read_only_bind; [apply isValidMapping_read_only|].
    intros []; apply read_only_ret.
  - intros [c|r]; apply read_only_ret.
Qed.

Lemma detectIsomorphismOptimized_read_only g1 g2 options :
  read_only (detectIsomorphismOptimized g1 g2 options).
Proof.
  unfold detectIsomorphismOptimized.
  apply read_only_bind; [apply checkInvariants_read_only|]. intros ic.
  destruct (negb _); [apply read_only_ret|].
  apply read_only_bind; [apply read_only_call|]. intros n.
  case_bool_decide; [apply read_only_ret|].
  apply read_only_bind; [apply groupByDegree_read_only|]. intros dg1.
  apply read_only_bind; [apply groupByDegree_read_only|]. intros dg2.
  case_bool_decide; [apply read_only_ret|].
  apply read_only_bind.
  - apply read_only_for_of. intros [mapping|e] c; [|apply read_only_throw].
    cbv zeta.
    apply read_only_bind; [apply read_only_emit|]. intros _.
    apply read_only_bind; [apply read_only_when, read_only_emit|]. intros _.
    apply read_only_bind; [apply isValidMapping_read_only|].
    intros []; apply read_only_ret.
  - intros [c|r]; apply read_only_ret.
Qed.

Section optimized.
Context (σ : store) (g1 g2 : loc) (options : Options).
Let G1 := σ g1.
Let G2 := σ g2.
Let ic := invariants G1 G2.
Let ceiling := default 12%Z (maxVertices options).

Lemma detectIsomorphismOptimized_mismatch :
  isomorphismPossible ic = false →
  ∃ r, runs (detectIsomorphismOptimized g1 g2 options) σ [] (inr r)
    ∧ isIsomorphic r = Some false
    ∧ reason r = Some "Invariants do not match"
    ∧ invariantCheck r = ic
    ∧ mapping r = None
    ∧ permutationsChecked r = None.
Proof.
  intros Hic. eexists. split.
  - unfold detectIsomorphismOptimized.
    eapply (runs_bind _ _ _ []); [apply checkInvariants_runs|].
    fold G1 G2 ic. rewrite Hic. apply runs_ret.
  - done.
Qed.

Lemma detectIsomorphismOptimized_too_large :
  isomorphismPossible ic = true →
  (ceiling < Z.of_nat (getVertexCount G1))%Z →
  ∃ r, runs (detectIsomorphismOptimized g1 g2 options) σ [] (inr r)
    ∧ isIsomorphic r = None
    ∧ reason r = Some ("Graph too large (" +:+ pretty (getVertexCount G1)
                  +:+ " vertices > " +:+ pretty ceiling +:+ " max)")
    ∧ mapping r = None
    ∧ permutationsChecked r = None.
Proof.
  intros Hic Hn. eexists. split.
  - unfold detectIsomorphismOptimized.
    eapply (runs_bind _ _ _ []); [apply checkInvariants_runs|].
    fold G1 G2 ic. rewrite Hic. simpl.
    eapply (runs_bind _ _ _ []); [apply runs_call|].
    fold G1 ceiling. rewrite bool_decide_true by done. apply runs_ret.
  - done.
Qed.
End optimized.

Lemma verdict_runs m σ t r :
  runs m σ t (inr r) → verdict (m σ) = Some (isIsomorphic r).
Proof. by intros ->. Qed.

Section brute_verdict.
Context (σ : store) (g1 g2 : loc) (options : Options).
Let G1 := σ g1.
Let G2 := σ g2.

Lemma search_verdict :
  isomorphismPossible (invariants G1 G2) = true →
  ¬ (default 10 (maxVertices options) < Z.of_nat (getVertexCount G1))%Z →
  (has_valid G1 G2
     ∧ verdict (detectIsomorphism g1 g2 options σ) = Some (Some true))
  ∨ (¬ has_valid G1 G2
     ∧ verdict (detectIsomorphism g1 g2 options σ) = Some (Some false)).
Proof.
  intros Hic Hn.
  destruct (detectIsomorphism_search σ g1 g2 options Hic Hn)
    as (r & Hruns & Hr).
  rewrite (verdict_runs _ _ _ _ Hruns), Hr. fold G1 G2.
  destruct (first_valid _ _ _) as [[perm k]|] eqn:Hfirst; simpl.
  - left. split; [|done].
    apply first_valid_Some in Hfirst as (Hperm%permute_spec & Hvalid & _).
    by exists perm.
  - right. split; [|done]. intros (perm & Hperm%permute_spec & Hvalid).
    rewrite first_valid_None in Hfirst.
    specialize (Hfirst perm Hperm). simpl in Hfirst.
    unfold G1, G2 in *. congruence.
Qed.
End brute_verdict.

Lemma has_valid_sym G1 G2 :
  NoDup (vertices G1) → NoDup (vertices G2) →
  length (vertices G1) = length (vertices G2) →
  has_valid G1 G2 → has_valid G2 G1.
Proof.
  intros Hnd1 Hnd2 Hlen (perm & Hperm & Hvalid).
  by apply (valid_reverse G1 G2 perm).
Qed.

Lemma loop_Return {A S R} (f : A → S → exn + flow S R) tr l s r :
  (loop f tr l s).2 = inr (Return r) →
  ∃ x s', x ∈ l ∧ f x s' = inr (Return r).
Proof.
  revert s. induction l as [|x l IH]; intros s; simpl; [done|].
  destruct (f x s) as [e|[s'|r']] eqn:Hf; simpl.
  - done.
  - intros (y & s'' & ? & ?)%IH. exists y, s''. split; [by right|done].
  - intros [= ->]. exists x, s. split; [left|done].
Qed.

Section optimized_search.
Context (σ : store) (g1 g2 : loc) (options : Options).
Let G1 := σ g1.
Let G2 := σ g2.
Let ic := invariants G1 G2.

Lemma detectIsomorphismOptimized_search :
  isomorphismPossible ic = true →
  ¬ (default 12 (maxVertices options) < Z.of_nat (getVertexCount G1))%Z →
  runs (detectIsomorphismOptimized g1 g2 options) σ
       (loop (optimized_step G1 G2 ic)
             (optimized_events (onProgress options))
             (optimized_items G1 G2) 0).1
       (optimized_finish ic
          (loop (optimized_step G1 G2 ic)
                (optimized_events (onProgress options))
                (optimized_items G1 G2) 0).2).
Proof.
  intros Hic Hn.
  unfold detectIsomorphismOptimized.
  eapply (runs_bind _ _ _ []); [apply checkInvariants_runs|].
  fold G1 G2 ic. rewrite Hic. simpl.
  eapply (runs_bind _ _ _ []); [apply runs_call|].
  fold G1. rewrite bool_decide_false by done.
  eapply (runs_bind _ _ _ []); [apply groupByDegree_runs|].
  eapply (runs_bind _ _ _ []); [apply groupByDegree_runs|].
  fold G1 G2. rewrite bool_decide_false.
  2: { intros Hsize. apply Hsize, groups_of_size.
       by apply invariants_possible in Hic as (_ & _ & ?). }
  lazymatch goal with
  | |- runs (for_of ?l ?s ?body ≫= _) _ _ _ =>
      assert (runs (for_of l s body) σ
                (loop (optimized_step G1 G2 ic)
                      (optimized_events (onProgress options)) l s).1
                (loop (optimized_step G1 G2 ic)
                      (optimized_events (onProgress options)) l s).2) as Hloop
  end.
  { apply runs_for_of. intros [mapping|e] c; [|apply runs_throw].
    cbv zeta.
    eapply runs_bind; [apply runs_emit|].
    eapply runs_bind; [apply runs_when, runs_emit|].
    eapply runs_bind; [apply isValidMapping_runs|].
    fold G1 G2. unfold optimized_step.
    destruct (valid G1 G2 mapping); apply runs_ret. }
  fold (optimized_items G1 G2) in Hloop |- *.
  destruct (loop _ _ _ _) as [t [e|[c|r]]]; cbn [fst snd optimized_finish] in *.
  - by apply runs_bind_throw.
  - rewrite <-(app_nil_r t). eapply runs_bind; [done|]. apply runs_ret.
  - rewrite <-(app_nil_r t). eapply runs_bind; [done|]. apply runs_ret.
Qed.
End optimized_search.

Lemma value_runs {A} (m : M A) σ t v : runs m σ t v → value (m σ) = v.
Proof. by intros ->. Qed.

Lemma optimized_reason σ g1 g2 options r :
  value (detectIsomorphismOptimized g1 g2 options σ) = inr r →
  reason r ≠ Some "Different number of degree groups".
Proof.
  intros Hr.
  destruct (isomorphismPossible (invariants (σ g1) (σ g2))) eqn:Hic.
  - destruct (decide (default 12 (maxVertices options)
                      < Z.of_nat (getVertexCount (σ g1)))%Z) as [Hbig|Hsmall].
    + destruct (detectIsomorphismOptimized_too_large σ g1 g2 options Hic Hbig)
        as (r' & Hr' & _ & Hreason & _).
      rewrite (value_runs _ _ _ _ Hr') in Hr. injection Hr as <-.
      rewrite Hreason, append_cons. discriminate.
    + pose proof (detectIsomorphismOptimized_search σ g1 g2 options Hic Hsmall) as Hs.
      rewrite (value_runs _ _ _ _ Hs) in Hr.
      destruct (loop _ _ _ _).2 as [e|[c|r']] eqn:Hloop; simpl in Hr;
        [done|by injection Hr as <-|].
      injection Hr as ->.
      apply loop_Return in Hloop as ([mapping|e] & c & _ & Hstep); [|done].
      unfold optimized_step in Hstep.
      destruct (valid _ _ _); [|done]. by injection Hstep as <-.
  - destruct (detectIsomorphismOptimized_mismatch σ g1 g2 options Hic)
      as (r' & Hr' & _ & Hreason & _).
    rewrite (value_runs _ _ _ _ Hr') in Hr. injection Hr as <-.
    by rewrite Hreason.
Qed.

(** The store does record mutation: a call of a mutating method changes it. *)
Example invoke_mutates :
  vertices (final (invoke 0 (λ g, Some (addVertex (VNum 7) g))
                          (store_of (new false) (new false))) 0)
  = [VNum 7].
Proof. reflexivity. Qed.

(** ** The searches in full *)

Section brute_loop.
Context (σ : store) (g1 g2 : loc) (options : Options).
Let G1 := σ g1.
Let G2 := σ g2.
Let ic := invariants G1 G2.
Let perms := permute (vertices G2).

Lemma detectIsomorphism_search_loop :
  isomorphismPossible ic = true →
  ¬ (default 10 (maxVertices options) < Z.of_nat (getVertexCount G1))%Z →
  runs (detectIsomorphism g1 g2 options) σ
       (loop (brute_step G1 G2 ic)
             (brute_events G1 (onProgress options) (length perms)) perms 0).1
       (brute_finish ic
          (loop (brute_step G1 G2 ic)
                (brute_events G1 (onProgress options) (length perms)) perms 0).2).
Proof.
  intros Hic Hn.
  unfold detectIsomorphism.
  eapply (runs_bind _ _ _ []); [apply checkInvariants_runs|].
  fold G1 G2 ic. rewrite Hic. simpl.
  eapply (runs_bind _ _ _ []); [apply runs_call|].
  fold G1. rewrite bool_decide_false by done.
  eapply (runs_bind _ _ _ []); [apply runs_call|].
  eapply (runs_bind _ _ _ []); [apply runs_call|].
  fold G1 G2 perms.
  lazymatch goal with
  | |- runs (for_of ?l ?s ?body ≫= _) _ _ _ =>
      assert (runs (for_of l s body) σ
                (loop (brute_step G1 G2 ic)
                      (brute_events G1 (onProgress options) (length perms)) l s).1
                (loop (brute_step G1 G2 ic)
                      (brute_events G1 (onProgress options) (length perms)) l s).2)
        as Hloop
  end.
  { apply runs_for_of. intros perm c. unfold brute_step. cbv zeta.
    eapply runs_bind; [apply runs_emit|].
    eapply runs_bind; [apply runs_when, runs_emit|].
    eapply runs_bind; [apply isValidMapping_runs|].
    fold G1 G2.
    destruct (valid G1 G2 _); apply runs_ret. }
  destruct (loop _ _ _ _) as [t [e|[c|r]]]; cbn [fst snd brute_finish] in *.
  - by apply runs_bind_throw.
  - rewrite <-(app_nil_r t). eapply runs_bind; [done|]. apply runs_ret.
  - rewrite <-(app_nil_r t). eapply runs_bind; [done|]. apply runs_ret.
Qed.
End brute_loop.

Lemma count_candidates_app t1 t2 :
  count_candidates (t1 ++ t2) = count_candidates t1 + count_candidates t2.
Proof. unfold count_candidates. by rewrite List.filter_app, length_app. Qed.

(** The counter of a search loop and the candidates in its trace advance
    together. *)
Lemma loop_counts {A} (f : A → nat → exn + flow nat SearchResult) tr
    (l : list A) c :
  (∀ x c v, f x c = inr v → count_candidates (tr x c) = 1) →
  (∀ x c c', f x c = inr (Continue c') → c' = S c) →
  (∀ x c r, f x c = inr (Return r) → permutationsChecked r = Some (S c)) →
  match (loop f tr l c).2 with
  | inr (Continue c') => c' = c + count_candidates (loop f tr l c).1
  | inr (Return r) =>
      permutationsChecked r = Some (c + count_candidates (loop f tr l c).1)
  | inl _ => True
  end.
Proof.
  intros Htr Hcont Hret. revert c.
  induction l as [|x l IH]; intros c; simpl.
  - unfold count_candidates. simpl. lia.
  - destruct (f x c) as [e|[c'|r]] eqn:Hfx; simpl; [done|..].
    + specialize (IH c'). rewrite (Hcont _ _ _ Hfx) in IH |- *.
      destruct (loop f tr l (S c)).2 as [e|[c''|r]]; [done|..];
        rewrite count_candidates_app, (Htr _ _ _ Hfx).
      * lia.
      * rewrite IH. f_equal. lia.
    + rewrite (Hret _ _ _ Hfx), app_nil_r, (Htr _ _ _ Hfx). f_equal. lia.
Qed.

Lemma brute_events_count G1 onP tot perm c :
  count_candidates (brute_events G1 onP tot perm c) = 1.
Proof. by destruct onP. Qed.

Lemma optimized_events_count onP mapping c :
  count_candidates (optimized_events onP (Yield mapping) c) = 1.
Proof. unfold optimized_events. by destruct (onP && _). Qed.

(** Whenever a search returns, the number of candidates it drew is the
    [permutationsChecked] of its result, and zero when the result has no
    such property. *)
Lemma candidates_counted σ g1 g2 options :
  (∀ r, value (detectIsomorphism g1 g2 options σ) = inr r →
     count_candidates (trace (detectIsomorphism g1 g2 options σ))
     = default 0 (permutationsChecked r))
  ∧ (∀ r, value (detectIsomorphismOptimized g1 g2 options σ) = inr r →
     count_candidates (trace (detectIsomorphismOptimized g1 g2 options σ))
     = default 0 (permutationsChecked r)).
Proof.
  destruct (isomorphismPossible (invariants (σ g1) (σ g2))) eqn:Hic.
  - split; intros r Hr.
    + destruct (decide (default 10 (maxVertices options)
                        < Z.of_nat (getVertexCount (σ g1)))%Z) as [Hbig|Hsmall].
      * destruct (detectIsomorphism_too_large σ g1 g2 options Hic Hbig)
          as (r' & Hr' & _ & _ & _ & Hpc).
        rewrite Hr' in Hr |- *. simpl in *. injection Hr as <-. by rewrite Hpc.
      * pose proof (detectIsomorphism_search_loop σ g1 g2 options Hic Hsmall) as Hs.
        rewrite Hs in Hr |- *. simpl in *.
        pose proof (loop_counts (brute_step (σ g1) (σ g2) (invariants (σ g1) (σ g2)))
          (brute_events (σ g1) (onProgress options)
             (length (permute (vertices (σ g2)))))
          (permute (vertices (σ g2))) 0) as Hcount.
        assert (∀ x c r,
          brute_step (σ g1) (σ g2) (invariants (σ g1) (σ g2)) x c
          = inr (Return r) → permutationsChecked r = Some (S c)) as H3.
        { unfold brute_step. intros ??? [= Hv].
          destruct (valid _ _ _); [|done]. by injection Hv as <-. }
        assert (∀ x c c',
          brute_step (σ g1) (σ g2) (invariants (σ g1) (σ g2)) x c
          = inr (Continue c') → c' = S c) as H2.
        { unfold brute_step. intros ??? [= Hv].
          destruct (valid _ _ _); congruence. }
        specialize (Hcount (λ x c _ _, brute_events_count _ _ _ x c) H2 H3).
        destruct (loop _ _ _ _).2 as [e|[c|r']]; simpl in Hr; [done|..];
          injection Hr as <-; simpl; by rewrite Hcount.
    + destruct (decide (default 12 (maxVertices options)
                        < Z.of_nat (getVertexCount (σ g1)))%Z) as [Hbig|Hsmall].
      * destruct (detectIsomorphismOptimized_too_large σ g1 g2 options Hic Hbig)
          as (r' & Hr' & _ & _ & _ & Hpc).
        rewrite Hr' in Hr |- *. simpl in *. injection Hr as <-. by rewrite Hpc.
      * pose proof (detectIsomorphismOptimized_search σ g1 g2 options Hic Hsmall) as Hs.
        rewrite Hs in Hr |- *. simpl in *.
        pose proof (loop_counts
          (optimized_step (σ g1) (σ g2) (invariants (σ g1) (σ g2)))
          (optimized_events (onProgress options))
          (optimized_items (σ g1) (σ g2)) 0) as Hcount.
        assert (∀ x c v,
          optimized_step (σ g1) (σ g2) (invariants (σ g1) (σ g2)) x c = inr v →
          count_candidates (optimized_events (onProgress options) x c) = 1) as H1.
        { intros [m|e] c v; [|done]. intros _. apply optimized_events_count. }
        assert (∀ x c c',
          optimized_step (σ g1) (σ g2) (invariants (σ g1) (σ g2)) x c
          = inr (Continue c') → c' = S c) as H2.
        { intros [m|e] c c'; [|done]. unfold optimized_step.
          intros [= Hv]. destruct (valid _ _ _); congruence. }
        assert (∀ x c r,
          optimized_step (σ g1) (σ g2) (invariants (σ g1) (σ g2)) x c
          = inr (Return r) → permutationsChecked r = Some (S c)) as H3.
        { intros [m|e] c r'; [|done]. unfold optimized_step.
          intros [= Hv]. destruct (valid _ _ _); [|done]. by injection Hv as <-. }
        specialize (Hcount H1 H2 H3).
        destruct (loop _ _ _ _).2 as [e|[c|r']]; simpl in Hr; [done|..];
          injection Hr as <-; simpl; by rewrite Hcount.
  - destruct (detectIsomorphism_mismatch σ g1 g2 options Hic)
      as (r1 & Hr1 & _ & _ & _ & Hpc1).
    destruct (detectIsomorphismOptimized_mismatch σ g1 g2 options Hic)
      as (r2 & Hr2 & _ & _ & _ & _ & Hpc2).
    rewrite Hr1, Hr2. simpl.
    split; intros r [= <-]; [by rewrite Hpc1|by rewrite Hpc2].
Qed.

Section jsmap_get.
Context {K V : Type} `{EqDecision K}.
Implicit Types m : JsMap.t K V.

Lemma get_set k v m d :
  JsMap.get d (JsMap.set k v m) = if decide (k = d) then Some v else JsMap.get d m.
Proof.
  induction m as [|[k' v'] m IH]; simpl.
  - by destruct (decide (k = d)).
  - destruct (decide (k' = k)) as [->|Hne]; simpl.
    + by destruct (decide (k = d)).
    + destruct (decide (k' = d)) as [->|Hne'].
      * by rewrite decide_False by done.
      * done.
Qed.

Lemma get_update f k m d :
  JsMap.get d (JsMap.update f k m)
  = if decide (k = d) then f <$> JsMap.get d m else JsMap.get d m.
Proof.
  induction m as [|[k' v'] m IH]; simpl.
  - by destruct (decide (k = d)).
  - destruct (decide (k' = k)) as [->|Hne]; simpl.
    + by destruct (decide (k = d)).
    + destruct (decide (k' = d)) as [->|Hne'].
      * by rewrite decide_False by done.
      * done.
Qed.

Lemma has_get k m : JsMap.has k m = bool_decide (is_Some (JsMap.get k m)).
Proof. done. Qed.
End jsmap_get.

Section grouping.
Context (G : Graph).

Lemma get_group_step groups v d :
  JsMap.get d (group_step G groups v)
  = if decide (getDegree v G = d)
    then Some (default [] (JsMap.get d groups) ++ [v])
    else JsMap.get d groups.
Proof.
  unfold group_step. rewrite get_update.
  destruct (decide (getDegree v G = d)) as [<-|Hne].
  - rewrite has_get. case_bool_decide as Hhas; simpl.
    + destruct Hhas as [grp ->]. done.
    + rewrite get_set, decide_True by done.
      by apply eq_None_not_Some in Hhas as ->.
  - destruct (negb _); [|done]. by rewrite get_set, decide_False.
Qed.

Lemma groups_from_snoc vs v :
  groups_from G (vs ++ [v]) = group_step G (groups_from G vs) v.
Proof. unfold groups_from. by rewrite foldl_app. Qed.

(** The group of degree [d] holds the vertices of degree [d], in order. *)
Lemma groups_from_get vs d :
  JsMap.get d (groups_from G vs)
  = if decide (with_degree G d vs = []) then None
    else Some (with_degree G d vs).
Proof.
  induction vs as [|v vs IH] using rev_ind; [done|].
  rewrite groups_from_snoc, get_group_step, IH.
  unfold with_degree. rewrite filter_app, filter_cons, filter_nil.
  destruct (decide (getDegree v G = d)) as [Hd|Hd].
  - rewrite (decide_False (P := _ ++ [v] = [])).
    2: { by intros [_ ?]%app_eq_nil. }
    by destruct (decide (filter _ vs = [])) as [->|].
  - by rewrite app_nil_r.
Qed.

Lemma groups_of_get d :
  JsMap.get d (groups_of G)
  = if decide (with_degree G d (vertices G) = []) then None
    else Some (with_degree G d (vertices G)).
Proof. apply groups_from_get. Qed.

Lemma with_degree_nil d vs :
  with_degree G d vs = [] ↔ d ∉ (λ v, getDegree v G) <$> vs.
Proof.
  unfold with_degree. rewrite list_elem_of_fmap. split.
  - intros Hnil (v & -> & Hv).
    assert (v ∈ filter (λ v', getDegree v' G = getDegree v G) vs) as Hin.
    { by apply list_elem_of_filter. }
    rewrite Hnil in Hin. by apply elem_of_nil in Hin.
  - intros Hd. induction vs as [|v vs IH]; [done|].
    rewrite filter_cons_False.
    + apply IH. intros (v' & ? & ?). apply Hd. exists v'. split; [done|by right].
    + intros Heq. apply Hd. exists v. split; [done|left].
Qed.

Lemma with_degree_length d vs :
  length (with_degree G d vs)
  = length (filter (λ n, n = d) ((λ v, getDegree v G) <$> vs)).
Proof.
  unfold with_degree. induction vs as [|v vs IH]; [done|]. csimpl.
  rewrite !filter_cons. case_decide; simpl; by rewrite IH.
Qed.
End grouping.

Section compose.
Context (degreeGroups1 degreeGroups2 : JsMap.t nat (list vertex)).

Lemma generateMappings_fuel_compose fuel degrees index m :
  index ≤ length degrees → length degrees - index ≤ fuel →
  generateMappings_fuel degreeGroups1 degreeGroups2 fuel degrees index m
  = compose degreeGroups1 degreeGroups2 (drop index degrees) m.
Proof.
  revert index m. induction fuel as [|fuel IH]; intros index m Hindex Hfuel.
  - assert (index = length degrees) as -> by lia.
    simpl. rewrite decide_True by done. by rewrite drop_all.
  - simpl. case_decide as Hend.
    { subst. by rewrite drop_all. }
    destruct (lookup_lt_is_Some_2 degrees index) as [d Hd]; [lia|].
    rewrite (drop_S _ _ _ Hd), Hd. simpl.
    destruct (JsMap.get d degreeGroups2) as [group2|]; [|done].
    apply list_bind_ext; [|done]. intros perm.
    destruct (JsMap.get d degreeGroups1) as [group1|]; [|done].
    rewrite Nat.add_1_r. apply IH; lia.
Qed.

(** Enough fuel: the generator is the composition over all degrees. *)
Lemma generateMappings_compose degrees m :
  generateMappings degreeGroups1 degreeGroups2 degrees 0 m
  = compose degreeGroups1 degreeGroups2 degrees m.
Proof.
  unfold generateMappings. rewrite generateMappings_fuel_compose by lia. done.
Qed.

Lemma elem_of_compose (F1 F2 : nat → list vertex) ds m item :
  (∀ d, d ∈ ds → JsMap.get d degreeGroups1 = Some (F1 d)
                 ∧ JsMap.get d degreeGroups2 = Some (F2 d)) →
  item ∈ compose degreeGroups1 degreeGroups2 ds m
  ↔ ∃ pss, Forall2 (λ d ps, ps ≡ₚ F2 d) ds pss
      ∧ item = Yield (assigns (F1 <$> ds) pss m).
Proof.
  revert m. induction ds as [|d ds IH]; intros m Hget; simpl.
  - rewrite list_elem_of_singleton. split.
    + intros ->. exists []. by split; [constructor|].
    + intros (pss & ->%Forall2_nil_inv_l & ->). done.
  - destruct (Hget d) as [-> ->]; [left|].
    rewrite list_elem_of_bind. split.
    + intros (perm & Hitem & Hperm%permute_spec).
      apply IH in Hitem as (pss & Hpss & ->).
      2: { intros d' Hd'. apply Hget. by right. }
      exists (perm :: pss). split; [by constructor|done].
    + intros (pss & Hpss & ->).
      apply Forall2_cons_inv_l in Hpss as (perm & pss' & Hperm & Hpss & ->).
      exists perm. split; [|by apply permute_spec].
      apply IH; [intros d' Hd'; apply Hget; by right|].
      by exists pss'.
Qed.
End compose.

Section paired.
Implicit Types ks ps : list vertex.

Lemma paired_app ks1 ks2 ps1 ps2 :
  length ks1 = length ps1 →
  paired (ks1 ++ ks2) (ps1 ++ ps2) = paired ks1 ps1 ++ paired ks2 ps2.
Proof.
  intros Hlen. unfold paired. rewrite imap_app. f_equal.
  - apply imap_ext. intros i k Hk. simpl.
    by rewrite lookup_app_l by (apply lookup_lt_Some in Hk; lia).
  - apply imap_ext. intros i k Hk. simpl.
    rewrite lookup_app_r by lia. do 2 f_equal. lia.
Qed.

Lemma assigns_paired groups perms m :
  Forall2 (λ g ps, length g = length ps) groups perms →
  NoDup (JsMap.keys m ++ mjoin groups) →
  assigns groups perms m = m ++ paired (mjoin groups) (mjoin perms).
Proof.
  intros Hlen. revert m.
  induction Hlen as [|g ps groups perms Hg Hlen IH]; intros m Hnd.
  - unfold assigns. simpl. by rewrite app_nil_r.
  - unfold assigns. simpl. fold (assigns groups perms (assign g ps m)).
    simpl in Hnd. rewrite app_assoc in Hnd.
    rewrite assign_fresh by (by apply NoDup_app in Hnd as (? & _ & _)).
    rewrite IH.
    + by rewrite paired_app, app_assoc.
    + unfold JsMap.keys. rewrite fmap_app.
      change ((paired g ps).*1) with (JsMap.keys (paired g ps)).
      by rewrite paired_keys.
Qed.
End paired.

Section partition.
Context {A : Type} (f : A → nat).

Lemma partition_insert (g : nat → list A) (v : A) (ks : list nat) :
  NoDup ks → f v ∈ ks →
  mjoin ((λ d, if decide (f v = d) then v :: g d else g d) <$> ks)
  ≡ₚ v :: mjoin (g <$> ks).
Proof.
  induction ks as [|k ks IH]; intros Hnd Hin; csimpl.
  - by apply elem_of_nil in Hin.
  - apply NoDup_cons in Hnd as [Hk Hnd].
    destruct (decide (f v = k)) as [Heq|Hne].
    + assert ((λ d, if decide (f v = d) then v :: g d else g d) <$> ks
              = g <$> ks) as ->; [|done].
      apply list_fmap_ext. intros i d Hd.
      rewrite decide_False; [done|]. intros <-. subst.
      by apply list_elem_of_lookup_2 in Hd.
    + rewrite IH; [|done|].
      * by rewrite Permutation_middle.
      * apply elem_of_cons in Hin as [?|?]; [congruence|done].
Qed.

(** Grouping by the value of [f] rearranges the list. *)
Lemma partition_Permutation (ks : list nat) (vs : list A) :
  NoDup ks → (∀ v, v ∈ vs → f v ∈ ks) →
  mjoin ((λ d, filter (λ v, f v = d) vs) <$> ks) ≡ₚ vs.
Proof.
  intros Hnd. induction vs as [|v vs IH]; intros Hin.
  - clear Hnd Hin. induction ks as [|k ks IHk]; [done|]. csimpl.
    by rewrite IHk.
  - trans (v :: mjoin ((λ d, filter (λ v, f v = d) vs) <$> ks)).
    2: { apply Permutation_skip, IH. intros; apply Hin; by right. }
    rewrite <-(partition_insert (λ d, filter (λ v, f v = d) vs) v ks);
      [|done|apply Hin; left].
    assert ((λ d, filter (λ v0, f v0 = d) (v :: vs)) <$> ks
            = (λ d, if decide (f v = d)
                    then v :: filter (λ v0, f v0 = d) vs
                    else filter (λ v0, f v0 = d) vs) <$> ks) as ->; [|done].
    apply list_fmap_ext. intros i d _. by rewrite filter_cons.
Qed.
End partition.

Lemma mjoin_Forall2_Permutation {A} (ls ks : list (list A)) :
  Forall2 (≡ₚ) ls ks → mjoin ls ≡ₚ mjoin ks.
Proof. induction 1 as [|l k ls ks Hl _ IH]; csimpl; [done|]. by rewrite Hl, IH. Qed.

Section optimized_items.
Context (G1 G2 : Graph).
Context (Hposs : isomorphismPossible (invariants G1 G2) = true).
Context (Hnd1 : NoDup (vertices G1)).
Let ds := JsMap.keys (groups_of G1).
Let F1 (d : nat) := with_degree G1 d (vertices G1).
Let F2 (d : nat) := with_degree G2 d (vertices G2).

Lemma degrees_Permutation : degrees_of G1 ≡ₚ degrees_of G2.
Proof.
  apply invariants_possible in Hposs as (_ & _ & Hseq).
  by apply sort_desc_eq.
Qed.

Lemma groups_defined d :
  d ∈ ds → JsMap.get d (groups_of G1) = Some (F1 d)
           ∧ JsMap.get d (groups_of G2) = Some (F2 d).
Proof.
  intros Hd. apply (groups_of_keys G1) in Hd.
  rewrite !groups_of_get. split.
  - rewrite decide_False; [done|]. intros Hnil%with_degree_nil. by apply Hnil.
  - rewrite decide_False; [done|]. intros Hnil%with_degree_nil. apply Hnil.
    fold (degrees_of G2). by rewrite <-degrees_Permutation.
Qed.

Lemma groups_same_length d : length (F1 d) = length (F2 d).
Proof.
  unfold F1, F2. rewrite !with_degree_length.
  fold (degrees_of G1) (degrees_of G2). by rewrite degrees_Permutation.
Qed.

Lemma groups1_Permutation : mjoin (F1 <$> ds) ≡ₚ vertices G1.
Proof.
  apply (partition_Permutation (λ v, getDegree v G1)).
  - apply groups_of_keys.
  - intros v Hv. apply groups_of_keys, list_elem_of_fmap. by exists v.
Qed.

Lemma groups2_Permutation : mjoin (F2 <$> ds) ≡ₚ vertices G2.
Proof.
  apply (partition_Permutation (λ v, getDegree v G2)).
  - apply groups_of_keys.
  - intros v Hv. apply groups_of_keys.
    rewrite degrees_Permutation. apply list_elem_of_fmap. by exists v.
Qed.

Lemma groups_perms_length (ds' : list nat) (pss : list (list vertex)) :
  Forall2 (λ d ps, ps ≡ₚ F2 d) ds' pss →
  Forall2 (λ g ps, length g = length ps) (F1 <$> ds') pss.
Proof.
  induction 1 as [|d ps ds' pss Hps _ IH]; csimpl; constructor; [|done].
  by rewrite groups_same_length, Hps.
Qed.

Lemma groups_perms_Permutation (ds' : list nat) (pss : list (list vertex)) :
  Forall2 (λ d ps, ps ≡ₚ F2 d) ds' pss → Forall2 (≡ₚ) pss (F2 <$> ds').
Proof. induction 1; csimpl; by constructor. Qed.

(** What the generator yields: no exception, and exactly the mappings that
    pair each group of the first graph, in order, with a permutation of the
    same-degree group of the second. *)
Lemma elem_of_optimized_items item :
  item ∈ optimized_items G1 G2
  ↔ ∃ pss, Forall2 (λ d ps, ps ≡ₚ F2 d) ds pss
      ∧ item = Yield (paired (mjoin (F1 <$> ds)) (mjoin pss)).
Proof.
  unfold optimized_items. rewrite generateMappings_compose.
  rewrite (elem_of_compose _ _ F1 F2) by apply groups_defined.
  fold ds. apply exist_proper. intros pss. split; intros [Hpss ->]; (split; [done|]).
  - rewrite assigns_paired; [done|by apply groups_perms_length|].
    simpl. by rewrite groups1_Permutation.
  - rewrite assigns_paired; [done|by apply groups_perms_length|].
    simpl. by rewrite groups1_Permutation.
Qed.

Lemma optimized_items_pairing item :
  item ∈ optimized_items G1 G2 →
  ∃ m, item = Yield m ∧ pairing (vertices G1) (vertices G2) m.
Proof.
  intros (pss & Hpss & ->)%elem_of_optimized_items.
  eexists. split; [done|]. eexists _, _. split; [done|].
  split; [apply groups1_Permutation|].
  rewrite <-groups2_Permutation.
  by apply mjoin_Forall2_Permutation, groups_perms_Permutation.
Qed.
End optimized_items.


Section fromEntries.
Implicit Types m : Mapping.
Implicit Types o : gmap string jsval.



End fromEntries.

Section pairing.
Context (G1 G2 : Graph).
Context (Hnd1 : NoDup (vertices G1)) (Hnd2 : NoDup (vertices G2)).
Context (Hlen : length (vertices G1) = length (vertices G2)).

Lemma mapping_get_paired ks ps i u :
  NoDup ks → ks !! i = Some u → mapping_get u (paired ks ps) = ps !! i.
Proof.
  intros Hnd Hi. unfold mapping_get. erewrite elem_of_get; [done| |].
  - by rewrite paired_keys.
  - apply list_elem_of_lookup. exists i. unfold paired.
    by rewrite list_lookup_imap, Hi.
Qed.

(** A valid pairing is an isomorphism. *)
Lemma pairing_isomorphism m :
  pairing (vertices G1) (vertices G2) m → valid G1 G2 m = true →
  isomorphism G1 G2 (λ u, mapping_get u m).
Proof.
  intros (ks & ps & -> & Hks & Hps) Hvalid.
  assert (NoDup ks) as Hndk by (by rewrite Hks).
  assert (NoDup ps) as Hndp by (by rewrite Hps).
  assert (length ks = length ps) as Hkp by (by rewrite Hks, Hps).
  assert (∀ u, u ∈ vertices G1 →
            ∃ i x, ks !! i = Some u ∧ ps !! i = Some x
                   ∧ mapping_get u (paired ks ps) = Some x) as Hget.
  { intros u Hu. rewrite <-Hks in Hu.
    apply list_elem_of_lookup in Hu as [i Hi].
    destruct (lookup_lt_is_Some_2 ps i) as [x Hx].
    { apply lookup_lt_Some in Hi. lia. }
    exists i, x. split_and!; [done..|].
    by rewrite (mapping_get_paired _ _ i). }
  split.
  - intros u (i & x & _ & Hx & ->)%Hget. exists x. split; [done|].
    rewrite <-Hps. by eapply list_elem_of_lookup_2.
  - intros u v (i & x & Hi & Hx & ->)%Hget (j & y & Hj & Hy & ->)%Hget [= <-].
    assert (i = j) as -> by (by eapply NoDup_lookup).
    congruence.
  - intros x Hx. rewrite <-Hps in Hx.
    apply list_elem_of_lookup in Hx as [i Hi].
    destruct (lookup_lt_is_Some_2 ks i) as [u Hu].
    { apply lookup_lt_Some in Hi. lia. }
    exists u. split.
    + rewrite <-Hks. by eapply list_elem_of_lookup_2.
    + by rewrite (mapping_get_paired _ _ i).
  - intros u v Hu Hv. unfold valid in Hvalid.
    rewrite <-Is_true_true, forallb_True, Forall_forall in Hvalid.
    specialize (Hvalid u Hu).
    rewrite forallb_True, Forall_forall in Hvalid.
    specialize (Hvalid v Hv). unfold preserves in Hvalid.
    by apply bool_decide_unpack in Hvalid.
Qed.

End pairing.


Lemma assign_pairing vs1 vs2 perm :
  NoDup vs1 → perm ≡ₚ vs2 →
  pairing vs1 vs2 (assign vs1 perm JsMap.empty).
Proof.
  intros Hnd Hperm. exists vs1, perm. by rewrite assign_fresh.
Qed.

Section soundness.
Context (σ : store) (g1 g2 : loc) (options : Options).
Let G1 := σ g1.
Let G2 := σ g2.
Context (Hnd1 : NoDup (vertices G1)).

(** A successful brute-force search returns the object of a valid pairing. *)
Lemma detectIsomorphism_found r :
  value (detectIsomorphism g1 g2 options σ) = inr r →
  isIsomorphic r = Some true →
  isomorphismPossible (invariants G1 G2) = true
  ∧ ∃ m, mapping r = Some (Object_fromEntries m)
      ∧ pairing (vertices G1) (vertices G2) m ∧ valid G1 G2 m = true.
Proof.
  intros Hr Hiso.
  destruct (isomorphismPossible (invariants G1 G2)) eqn:Hic.
  - split; [done|].
    destruct (decide (default 10 (maxVertices options)
                      < Z.of_nat (getVertexCount G1))%Z) as [Hbig|Hsmall].
    + destruct (detectIsomorphism_too_large σ g1 g2 options Hic Hbig)
        as (r' & Hr' & Hiso' & _).
      rewrite Hr' in Hr. simpl in Hr. injection Hr as <-. congruence.
    + pose proof (detectIsomorphism_search_loop σ g1 g2 options Hic Hsmall) as Hs.
      rewrite Hs in Hr. simpl in Hr.
      destruct (loop _ _ _ _).2 as [e|[c|r']] eqn:Hloop; simpl in Hr; [done|..];
        injection Hr as <-; [done|].
      apply loop_Return in Hloop as (perm & c & Hperm%permute_spec & Hstep).
      unfold brute_step in Hstep.
      destruct (valid _ _ _) eqn:Hvalid; [|done]. injection Hstep as <-.
      eexists. split; [done|]. split; [|done]. by apply assign_pairing.
  - destruct (detectIsomorphism_mismatch σ g1 g2 options Hic)
      as (r' & Hr' & Hiso' & _).
    rewrite Hr' in Hr. simpl in Hr. injection Hr as <-. congruence.
Qed.

(** So does a successful degree-partitioned search. *)
Lemma detectIsomorphismOptimized_found r :
  value (detectIsomorphismOptimized g1 g2 options σ) = inr r →
  isIsomorphic r = Some true →
  isomorphismPossible (invariants G1 G2) = true
  ∧ ∃ m, mapping r = Some (Object_fromEntries m)
      ∧ pairing (vertices G1) (vertices G2) m ∧ valid G1 G2 m = true.
Proof.
  intros Hr Hiso.
  destruct (isomorphismPossible (invariants G1 G2)) eqn:Hic.
  - split; [done|].
    destruct (decide (default 12 (maxVertices options)
                      < Z.of_nat (getVertexCount G1))%Z) as [Hbig|Hsmall].
    + destruct (detectIsomorphismOptimized_too_large σ g1 g2 options Hic Hbig)
        as (r' & Hr' & Hiso' & _).
      rewrite Hr' in Hr. simpl in Hr. injection Hr as <-. congruence.
    + pose proof (detectIsomorphismOptimized_search σ g1 g2 options Hic Hsmall) as Hs.
      rewrite Hs in Hr. simpl in Hr.
      destruct (loop _ _ _ _).2 as [e|[c|r']] eqn:Hloop; simpl in Hr; [done|..];
        injection Hr as <-; [done|].
      apply loop_Return in Hloop as (item & c & Hitem & Hstep).
      apply optimized_items_pairing in Hitem as (m & -> & Hm); [|done..].
      unfold optimized_step in Hstep.
      destruct (valid _ _ _) eqn:Hvalid; [|done]. injection Hstep as <-.
      by exists m.
  - destruct (detectIsomorphismOptimized_mismatch σ g1 g2 options Hic)
      as (r' & Hr' & Hiso' & _).
    rewrite Hr' in Hr. simpl in Hr. injection Hr as <-. congruence.
Qed.
End soundness.

Section list_facts.
Context {A B : Type}.

Lemma fmap_mjoin (f : A → B) (ls : list (list A)) :
  f <$> mjoin ls = mjoin (fmap f <$> ls).
Proof. induction ls as [|l ls IH]; csimpl; [done|]. by rewrite fmap_app, IH. Qed.

Lemma zip_fmap_graph (f : A → B) (l : list A) :
  zip l (f <$> l) = (λ x, (x, f x)) <$> l.
Proof. induction l as [|x l IH]; csimpl; by f_equal. Qed.
End list_facts.

Section valid_pairs.
Context (G1 G2 : Graph).
Context (Hnd1 : NoDup (vertices G1)).

Lemma valid_paired_preserve ks ps :
  ks ≡ₚ vertices G1 → length ps = length ks →
  valid G1 G2 (paired ks ps) = true ↔ pairs_preserve G1 G2 (zip ks ps).
Proof.
  intros Hks Hlen.
  assert (NoDup ks) as Hndk by (by rewrite Hks).
  assert (∀ u x, (u, x) ∈ zip ks ps → mapping_get u (paired ks ps) = Some x) as Hget.
  { intros u x [i Hi]%list_elem_of_lookup.
    apply lookup_zip_with_Some in Hi as (u' & x' & [= <- <-] & Hu & Hx).
    by rewrite (mapping_get_paired ks ps i). }
  unfold valid.
  rewrite <-Is_true_true, forallb_True, Forall_forall.
  setoid_rewrite forallb_True. setoid_rewrite Forall_forall.
  unfold preserves. setoid_rewrite bool_decide_spec. split.
  - intros Hv u x v y Hux Hvy.
    rewrite (Hv u), (Hget u x), (Hget v y); try done.
    + rewrite <-Hks. by eapply elem_of_zip_l.
    + rewrite <-Hks. by eapply elem_of_zip_l.
  - intros HL v1 Hv1 v2 Hv2. rewrite <-Hks in Hv1, Hv2.
    apply list_elem_of_lookup in Hv1 as [i Hi], Hv2 as [j Hj].
    destruct (lookup_lt_is_Some_2 ps i) as [x Hx];
      [apply lookup_lt_Some in Hi; lia|].
    destruct (lookup_lt_is_Some_2 ps j) as [y Hy];
      [apply lookup_lt_Some in Hj; lia|].
    assert ((v1, x) ∈ zip ks ps) as Hv1.
    { apply list_elem_of_lookup. exists i. apply lookup_zip_with_Some. eauto. }
    assert ((v2, y) ∈ zip ks ps) as Hv2.
    { apply list_elem_of_lookup. exists j. apply lookup_zip_with_Some. eauto. }
    rewrite (Hget v1 x), (Hget v2 y) by done. by apply HL.
Qed.
End valid_pairs.

Lemma pairing_has_valid G1 G2 m :
  NoDup (vertices G1) →
  length (vertices G1) = length (vertices G2) →
  pairing (vertices G1) (vertices G2) m → valid G1 G2 m = true →
  has_valid G1 G2.
Proof.
  intros Hnd1 Hlen (ks & ps & -> & Hks & Hps) Hvalid.
  assert (length ps = length ks) as Hkp by (by rewrite Hks, Hps).
  apply valid_paired_preserve in Hvalid; [|done..].
  destruct (Permutation_map_inv fst (zip ks ps) (l1 := vertices G1))
    as (L & HL & HLL).
  { change (vertices G1 ≡ₚ (zip ks ps).*1). rewrite fst_zip by lia. done. }
  change (vertices G1 = L.*1) in HL.
  exists (L.*2). split.
  - rewrite <-HLL, snd_zip by lia. done.
  - rewrite assign_fresh by done. simpl.
    apply valid_paired_preserve; [done..| |].
    + by rewrite HL, !length_fmap.
    + rewrite HL at 1. rewrite zip_fst_snd.
      by eapply pairs_preserve_Permutation.
Qed.

Section degree_preserving.
Context (G1 G2 : Graph).
Context (Hinv1 : class_inv G1) (Hinv2 : class_inv G2).
Context (Hsimple1 : simple G1) (Hsimple2 : simple G2).
Context (f : vertex → vertex).
Context (Hinto : ∀ u, u ∈ vertices G1 → f u ∈ vertices G2).
Context (Hinj : ∀ u v, u ∈ vertices G1 → v ∈ vertices G1 → f u = f v → u = v).
Context (Honto : ∀ x, x ∈ vertices G2 → ∃ u, u ∈ vertices G1 ∧ f u = x).
Context (Hadj : ∀ u v, u ∈ vertices G1 → v ∈ vertices G1 →
  areAdjacent (Some u) (Some v) G1 = areAdjacent (Some (f u)) (Some (f v)) G2).

Lemma NoDup_fmap_on (vs : list vertex) :
  (∀ u, u ∈ vs → u ∈ vertices G1) → NoDup vs → NoDup (f <$> vs).
Proof.
  intros Hsub Hnd. apply NoDup_fmap_2_strong; [|done].
  intros u v Hu Hv. apply Hinj; auto.
Qed.

(** An adjacency-preserving bijection maps neighbour lists onto neighbour
    lists; without repeated entries, it preserves the degree. *)
Lemma neighbors_image u :
  u ∈ vertices G1 → f <$> getNeighbors u G1 ≡ₚ getNeighbors (f u) G2.
Proof.
  intros Hu. apply NoDup_Permutation.
  - apply NoDup_fmap_on; [|apply Hsimple1].
    intros v Hv. by apply (inv_closed _ Hinv1 u v).
  - apply Hsimple2.
  - intros y. rewrite list_elem_of_fmap. split.
    + intros (v & -> & Hv).
      assert (v ∈ vertices G1) as Hv1 by (by apply (inv_closed _ Hinv1 u v)).
      specialize (Hadj u v Hu Hv1). rewrite !areAdjacent_neighbors in Hadj.
      apply (bool_decide_unpack _). rewrite <-Hadj. by apply bool_decide_pack.
    + intros Hy.
      destruct (Honto y) as (v & Hv & <-).
      { by apply (inv_closed _ Hinv2 (f u)). }
      exists v. split; [done|].
      specialize (Hadj u v Hu Hv). rewrite !areAdjacent_neighbors in Hadj.
      apply (bool_decide_unpack _). rewrite Hadj. by apply bool_decide_pack.
Qed.

Lemma degree_preserved u :
  u ∈ vertices G1 → getDegree (f u) G2 = getDegree u G1.
Proof.
  intros Hu. unfold getDegree.
  by rewrite <-(neighbors_image u Hu), length_fmap.
Qed.

Lemma with_degree_image d :
  f <$> with_degree G1 d (vertices G1) ≡ₚ with_degree G2 d (vertices G2).
Proof.
  unfold with_degree. apply NoDup_Permutation.
  - apply NoDup_fmap_on.
    + by intros u [_ ?]%list_elem_of_filter.
    + apply NoDup_filter, Hinv1.
  - apply NoDup_filter, Hinv2.
  - intros y. rewrite list_elem_of_fmap. setoid_rewrite list_elem_of_filter.
    split.
    + intros (u & -> & Hd & Hu). split; [|by apply Hinto].
      by rewrite degree_preserved.
    + intros [Hd Hy]. destruct (Honto y Hy) as (u & Hu & <-).
      exists u. split_and!; [done| |done]. by rewrite <-degree_preserved.
Qed.
End degree_preserving.

Section agreement.
Context (G1 G2 : Graph).
Context (Hinv1 : class_inv G1) (Hinv2 : class_inv G2).
Context (Hposs : isomorphismPossible (invariants G1 G2) = true).

Lemma same_vertex_count : length (vertices G1) = length (vertices G2).
Proof. by apply invariants_possible in Hposs as (? & _). Qed.

Lemma has_valid_item_has_valid : has_valid_item G1 G2 → has_valid G1 G2.
Proof.
  intros (m & Hm & Hvalid).
  apply optimized_items_pairing in Hm as (m' & [= <-] & Hpair);
    [|done|apply Hinv1].
  eapply pairing_has_valid; [apply Hinv1|apply same_vertex_count|done..].
Qed.

Lemma has_valid_has_valid_item :
  simple G1 → simple G2 → has_valid G1 G2 → has_valid_item G1 G2.
Proof.
  intros Hs1 Hs2 (perm & Hperm & Hvalid).
  pose proof (inv_set _ Hinv1) as Hnd1. pose proof (inv_set _ Hinv2) as Hnd2.
  pose proof same_vertex_count as Hlen.
  set (m0 := assign (vertices G1) perm JsMap.empty) in *.
  destruct (pairing_isomorphism G1 G2 Hnd1 Hnd2 Hlen m0
              (assign_pairing _ _ _ Hnd1 Hperm) Hvalid)
    as [Hinto Hinj Honto Hadj].
  set (f := λ u, default u (mapping_get u m0)).
  assert (∀ u, u ∈ vertices G1 → mapping_get u m0 = Some (f u)) as Hf.
  { intros u (x & Hx & _)%Hinto. unfold f. by rewrite Hx. }
  assert (∀ u, u ∈ vertices G1 → f u ∈ vertices G2) as Hinto'.
  { intros u Hu. destruct (Hinto u Hu) as (x & Hx & ?).
    rewrite Hf in Hx by done. by injection Hx as ->. }
  assert (∀ u v, u ∈ vertices G1 → v ∈ vertices G1 → f u = f v → u = v) as Hinj'.
  { intros u v Hu Hv Heq. apply Hinj; [done..|]. rewrite !Hf by done. by f_equal. }
  assert (∀ x, x ∈ vertices G2 → ∃ u, u ∈ vertices G1 ∧ f u = x) as Honto'.
  { intros x (u & Hu & Hx)%Honto. exists u. split; [done|].
    rewrite Hf in Hx by done. by injection Hx. }
  assert (∀ u v, u ∈ vertices G1 → v ∈ vertices G1 →
    areAdjacent (Some u) (Some v) G1
    = areAdjacent (Some (f u)) (Some (f v)) G2) as Hadj'.
  { intros u v Hu Hv. rewrite (Hadj u v Hu Hv). by rewrite !Hf. }
  set (ds := JsMap.keys (groups_of G1)).
  set (ks := mjoin ((λ d, with_degree G1 d (vertices G1)) <$> ds)).
  assert (ks ≡ₚ vertices G1) as Hks by (by apply groups1_Permutation).
  exists (paired ks (f <$> ks)). split.
  - apply elem_of_optimized_items; [done..|].
    exists ((λ d, f <$> with_degree G1 d (vertices G1)) <$> ds). split.
    + apply Forall2_fmap_r, Forall_Forall2_diag, Forall_forall.
      intros d _. by apply with_degree_image.
    + unfold ks. by rewrite fmap_mjoin, <-list_fmap_compose.
  - apply valid_paired_preserve; [done..|by rewrite length_fmap|].
    rewrite zip_fmap_graph.
    apply (pairs_preserve_Permutation _ _ ((λ u, (u, f u)) <$> vertices G1)).
    { by rewrite Hks. }
    intros u x v y (u' & [= -> ->] & Hu)%list_elem_of_fmap
      (v' & [= -> ->] & Hv)%list_elem_of_fmap.
    by apply Hadj'.
Qed.
End agreement.

(** The loop of the degree-partitioned search over mappings only. *)
Lemma optimized_loop_verdict G1 G2 ic onP items c :
  (∀ item, item ∈ items → ∃ m, item = Yield m) →
  match (loop (optimized_step G1 G2 ic) (optimized_events onP) items c).2 with
  | inr (Return r) =>
      isIsomorphic r = Some true
      ∧ ∃ m, Yield m ∈ items ∧ valid G1 G2 m = true
  | inr (Continue _) => ∀ m, Yield m ∈ items → valid G1 G2 m = false
  | inl _ => False
  end.
Proof.
  revert c. induction items as [|item items IH]; intros c Hitems; simpl.
  - by intros m ?%elem_of_nil.
  - destruct (Hitems item) as [m ->]; [left|]. simpl.
    destruct (valid G1 G2 m) eqn:Hvalid; simpl.
    + split; [done|]. exists m. split; [left|done].
    + specialize (IH (S c)).
      destruct (loop _ _ items (S c)).2 as [e|[c'|r]].
      * apply IH. intros; apply Hitems; by right.
      * intros m' [[= ->]|Hm']%elem_of_cons; [done|].
        apply IH; [|done]. intros; apply Hitems; by right.
      * destruct IH as (? & m' & ? & ?); [intros; apply Hitems; by right|].
        split; [done|]. exists m'. split; [by right|done].
Qed.

Section strategies.
Context (σ : store) (g1 g2 : loc) (options : Options).
Let G1 := σ g1.
Let G2 := σ g2.

Lemma optimized_search_verdict :
  NoDup (vertices G1) →
  isomorphismPossible (invariants G1 G2) = true →
  ¬ (default 12 (maxVertices options) < Z.of_nat (getVertexCount G1))%Z →
  (has_valid_item G1 G2
     ∧ verdict (detectIsomorphismOptimized g1 g2 options σ) = Some (Some true))
  ∨ (¬ has_valid_item G1 G2
     ∧ verdict (detectIsomorphismOptimized g1 g2 options σ) = Some (Some false)).
Proof.
  intros Hnd1 Hic Hn.
  pose proof (detectIsomorphismOptimized_search σ g1 g2 options Hic Hn) as Hs.
  unfold verdict, returned. rewrite Hs. simpl. fold G1 G2.
  pose proof (optimized_loop_verdict G1 G2 (invariants G1 G2)
                (onProgress options) (optimized_items G1 G2) 0) as Hloop.
  destruct (loop _ _ _ _).2 as [e|[c|r]]; simpl.
  - destruct Hloop. intros item Hitem.
    apply optimized_items_pairing in Hitem as (m & -> & _); [by exists m|done..].
  - right. split; [|done]. intros (m & Hm & Hvalid).
    rewrite Hloop in Hvalid; [done| |done].
    intros item Hitem.
    apply optimized_items_pairing in Hitem as (m' & -> & _); [by exists m'|done..].
  - left. destruct Hloop as [-> Hm]; [|done].
    intros item Hitem.
    apply optimized_items_pairing in Hitem as (m' & -> & _); [by exists m'|done..].
Qed.

End strategies.

(** * The claims *)

(** C1, evaluated where the code departs from it. The claim: the mapping an
    Isomorphic result carries is a bijection from the vertices of A onto
    those of B that preserves adjacency. On A with the vertices [1] and
    ["1"] and B with the vertices ["a"] and ["b"] (no edges), both searches
    build the bijection 1 -> "a", "1" -> "b" and then return
    [Object.fromEntries] of it, in which both vertices of A share the
    property key "1": the returned mapping is the object with the single
    entry "1": "b", it sends both vertices of A to "b", reaches "a" from no
    vertex, and is no isomorphism. *)
Theorem colliding_keys_lose_the_bijection :
  (∃ r, value (detectIsomorphism 0 1 no_options mixed_pair) = inr r
     ∧ isIsomorphic r = Some true
     ∧ mapping r = Some {[ "1" := Some (VStr "b") ]})
  ∧ (∃ r, value (detectIsomorphismOptimized 0 1 no_options mixed_pair) = inr r
     ∧ isIsomorphic r = Some true
     ∧ mapping r = Some {[ "1" := Some (VStr "b") ]})
  ∧ image {[ "1" := Some (VStr "b") ]} (VNum 1)
    = image {[ "1" := Some (VStr "b") ]} (VStr "1")
  ∧ (∀ u, image {[ "1" := Some (VStr "b") ]} u ≠ Some (VStr "a"))
  ∧ ¬ isomorphism mixed_graph ab_graph (image {[ "1" := Some (VStr "b") ]}).
Proof.
  split_and!.
  - eexists. split; [vm_compute; reflexivity|]. split; [done|]. by vm_compute.
  - eexists. split; [vm_compute; reflexivity|]. split; [done|]. by vm_compute.
  - done.
  - intros u. unfold image.
    destruct (decide (ToPropertyKey u = "1")) as [->|Hne].
    + by rewrite lookup_singleton_eq.
    + by rewrite lookup_singleton_ne.
  - intros Hiso.
    assert (VNum 1 = VStr "1") as Heq; [|done].
    apply (iso_inj _ _ _ Hiso); [by vm_compute; set_solver..|done].
Qed.

(** C2: when [checkInvariants] reports that isomorphism is not possible,
    [detectIsomorphism] and [detectIsomorphismOptimized] both return, without
    throwing and with an empty trace (no candidate drawn, no callback call),
    a result whose [isIsomorphic] is [false] and whose reason is "Invariants
    do not match"; the number of candidates checked is zero (the result
    object itself carries no [permutationsChecked] property). *)
Theorem invariant_mismatch_short_circuits
    (σ : store) (g1 g2 : loc) (options : Options) (ic : InvariantCheck) :
  value (checkInvariants g1 g2 σ) = inr ic →
  isomorphismPossible ic = false →
  (∃ r, detectIsomorphism g1 g2 options σ = Outcome σ [] (inr r)
     ∧ isIsomorphic r = Some false
     ∧ reason r = Some "Invariants do not match"
     ∧ mapping r = None ∧ permutationsChecked r = None)
  ∧ (∃ r, detectIsomorphismOptimized g1 g2 options σ = Outcome σ [] (inr r)
     ∧ isIsomorphic r = Some false
     ∧ reason r = Some "Invariants do not match"
     ∧ mapping r = None ∧ permutationsChecked r = None)
  ∧ count_candidates (trace (detectIsomorphism g1 g2 options σ)) = 0
  ∧ count_candidates (trace (detectIsomorphismOptimized g1 g2 options σ)) = 0.
Proof.
  intros Hic Hposs. rewrite checkInvariants_runs in Hic.
  injection Hic as <-.
  destruct (detectIsomorphism_mismatch σ g1 g2 options Hposs)
    as (r & Hr & ? & ? & ? & ?).
  destruct (detectIsomorphismOptimized_mismatch σ g1 g2 options Hposs)
    as (r' & Hr' & ? & ? & ? & ? & ?).
  split_and!; [by exists r|by exists r'|by rewrite Hr|by rewrite Hr'].
Qed.

Lemma invariant_mismatch_short_circuits_witness :
  (∃ r, detectIsomorphism 0 1 no_options path_and_triangle
        = Outcome path_and_triangle [] (inr r)
     ∧ isIsomorphic r = Some false
     ∧ reason r = Some "Invariants do not match"
     ∧ mapping r = None ∧ permutationsChecked r = None)
  ∧ (∃ r, detectIsomorphismOptimized 0 1 no_options path_and_triangle
          = Outcome path_and_triangle [] (inr r)
     ∧ isIsomorphic r = Some false
     ∧ reason r = Some "Invariants do not match"
     ∧ mapping r = None ∧ permutationsChecked r = None)
  ∧ count_candidates
      (trace (detectIsomorphism 0 1 no_options path_and_triangle)) = 0
  ∧ count_candidates
      (trace (detectIsomorphismOptimized 0 1 no_options path_and_triangle)) = 0.
Proof.
  apply (invariant_mismatch_short_circuits path_and_triangle 0 1 no_options
           (invariants path_abc triangle_123)).
  - reflexivity.
  - vm_compute. reflexivity.
Defined.

(** C3, evaluated where the code departs from it. The claim: within both
    ceilings the two searches reach the same verdict. The graphs [multi_a]
    and [multi_b] have four vertices each and pass the invariant check (six
    edges, degree sequence 5,4,2,1); [detectIsomorphism] returns an
    Isomorphic result for them and [detectIsomorphismOptimized] a
    NotIsomorphic one: a repeated edge counts in the degree a vertex is
    grouped by but not in [areAdjacent]. *)
Theorem strategies_disagree_on_repeated_edges :
  getVertexCount multi_a = 4 ∧ getVertexCount multi_b = 4
  ∧ getDegreeSequence multi_a = [5; 4; 2; 1]
  ∧ getDegreeSequence multi_b = [5; 4; 2; 1]
  ∧ isomorphismPossible (invariants multi_a multi_b) = true
  ∧ verdict (detectIsomorphism 0 1 no_options multi_pair) = Some (Some true)
  ∧ verdict (detectIsomorphismOptimized 0 1 no_options multi_pair)
    = Some (Some false).
Proof. split_and!; by vm_compute. Qed.

(** C4: when the pair passes the invariant check and the vertex count of the
    first graph exceeds the ceiling ([maxVertices], 10 by default for
    [detectIsomorphism] and 12 for [detectIsomorphismOptimized]), the search
    returns, without throwing and with an empty trace, a result whose
    [isIsomorphic] is [null], which is not the [false] of NotIsomorphic. *)
Theorem size_ceiling_is_indeterminate
    (σ : store) (g1 g2 : loc) (options : Options) (ic : InvariantCheck) :
  value (checkInvariants g1 g2 σ) = inr ic →
  isomorphismPossible ic = true →
  ((default 10 (maxVertices options) < Z.of_nat (getVertexCount (σ g1)))%Z →
   ∃ r, detectIsomorphism g1 g2 options σ = Outcome σ [] (inr r)
     ∧ isIsomorphic r = None ∧ isIsomorphic r ≠ Some false
     ∧ mapping r = None ∧ permutationsChecked r = None)
  ∧ ((default 12 (maxVertices options) < Z.of_nat (getVertexCount (σ g1)))%Z →
   ∃ r, detectIsomorphismOptimized g1 g2 options σ = Outcome σ [] (inr r)
     ∧ isIsomorphic r = None ∧ isIsomorphic r ≠ Some false
     ∧ mapping r = None ∧ permutationsChecked r = None).
Proof.
  intros Hic Hposs. rewrite checkInvariants_runs in Hic.
  injection Hic as <-. split; intros Hbig.
  - destruct (detectIsomorphism_too_large σ g1 g2 options Hposs Hbig)
      as (r & Hr & Hiso & _ & ? & ?).
    exists r. rewrite Hiso. by split_and!.
  - destruct (detectIsomorphismOptimized_too_large σ g1 g2 options Hposs Hbig)
      as (r & Hr & Hiso & _ & ? & ?).
    exists r. rewrite Hiso. by split_and!.
Qed.

Lemma size_ceiling_is_indeterminate_witness :
  (∃ r, detectIsomorphism 0 0 no_options large_pair
        = Outcome large_pair [] (inr r)
     ∧ isIsomorphic r = None ∧ isIsomorphic r ≠ Some false
     ∧ mapping r = None ∧ permutationsChecked r = None)
  ∧ (∃ r, detectIsomorphismOptimized 1 1 no_options large_pair
          = Outcome large_pair [] (inr r)
     ∧ isIsomorphic r = None ∧ isIsomorphic r ≠ Some false
     ∧ mapping r = None ∧ permutationsChecked r = None).
Proof.
  split.
  - refine (proj1 (size_ceiling_is_indeterminate large_pair 0 0 no_options
                     (invariants (isolated 11) (isolated 11)) _ _) _).
    + reflexivity.
    + vm_compute. reflexivity.
    + vm_compute. reflexivity.
  - refine (proj2 (size_ceiling_is_indeterminate large_pair 1 1 no_options
                     (invariants (isolated 13) (isolated 13)) _ _) _).
    + reflexivity.
    + vm_compute. reflexivity.
    + vm_compute. reflexivity.
Defined.

(** C5: [detectIsomorphism] called on (A, B) and on (B, A), with the same
    options, reaches the same verdict. The vertex sets are sets: they hold
    no vertex twice. *)
Theorem detectIsomorphism_symmetric
    (σ : store) (g1 g2 : loc) (options : Options) :
  NoDup (vertices (σ g1)) → NoDup (vertices (σ g2)) →
  verdict (detectIsomorphism g1 g2 options σ)
  = verdict (detectIsomorphism g2 g1 options σ).
Proof.
  intros Hnd1 Hnd2.
  destruct (isomorphismPossible (invariants (σ g1) (σ g2))) eqn:Hic.
  - pose proof Hic as Hci. rewrite invariants_sym in Hci.
    pose proof Hic as (Hn & _ & _)%invariants_possible.
    destruct (decide (default 10 (maxVertices options)
                      < Z.of_nat (getVertexCount (σ g1)))%Z) as [Hbig|Hsmall].
    + destruct (detectIsomorphism_too_large σ g1 g2 options Hic Hbig)
        as (r & Hr & Hiso & _).
      rewrite Hn in Hbig.
      destruct (detectIsomorphism_too_large σ g2 g1 options Hci Hbig)
        as (r' & Hr' & Hiso' & _).
      by rewrite (verdict_runs _ _ _ _ Hr), (verdict_runs _ _ _ _ Hr'), Hiso, Hiso'.
    + pose proof Hsmall as Hsmall'. rewrite Hn in Hsmall'.
      destruct (search_verdict σ g1 g2 options Hic Hsmall) as [[H12 ->]|[H12 ->]],
        (search_verdict σ g2 g1 options Hci Hsmall') as [[H21 ->]|[H21 ->]];
        try done.
      * destruct H21. by apply has_valid_sym.
      * destruct H12. by apply has_valid_sym.
  - pose proof Hic as Hci. rewrite invariants_sym in Hci.
    destruct (detectIsomorphism_mismatch σ g1 g2 options Hic) as (r & Hr & Hiso & _).
    destruct (detectIsomorphism_mismatch σ g2 g1 options Hci) as (r' & Hr' & Hiso' & _).
    by rewrite (verdict_runs _ _ _ _ Hr), (verdict_runs _ _ _ _ Hr'), Hiso, Hiso'.
Qed.

Lemma detectIsomorphism_symmetric_witness :
  verdict (detectIsomorphism 0 1 no_options triangles)
  = verdict (detectIsomorphism 1 0 no_options triangles).
Proof.
  apply detectIsomorphism_symmetric;
    apply (bool_decide_unpack _); vm_compute; exact I.
Defined.

(** C6: [checkInvariants] returns (it never throws and has no effect), and
    its [isomorphismPossible] is true exactly when the two graphs have equal
    vertex counts, equal edge counts, and degree sequences of equal length
    that agree at every index, each degree sequence being the vertex degrees
    sorted in descending order. *)
Theorem checkInvariants_possible_iff (σ : store) (g1 g2 : loc) :
  ∃ ic, checkInvariants g1 g2 σ = Outcome σ [] (inr ic)
    ∧ (isomorphismPossible ic = true
       ↔ getVertexCount (σ g1) = getVertexCount (σ g2)
         ∧ getEdgeCount (σ g1) = getEdgeCount (σ g2)
         ∧ (length (getDegreeSequence (σ g1)) = length (getDegreeSequence (σ g2))
            ∧ ∀ i, getDegreeSequence (σ g1) !! i = getDegreeSequence (σ g2) !! i))
    ∧ (∀ g, Sorted desc (getDegreeSequence (σ g))
            ∧ getDegreeSequence (σ g) ≡ₚ degrees_of (σ g)).
Proof.
  exists (invariants (σ g1) (σ g2)). split; [apply checkInvariants_runs|]. split.
  - rewrite invariants_possible. split.
    + intros (? & ? & Hseq). rewrite Hseq. done.
    + intros (? & ? & _ & Hseq). split_and!; [done..|]. by apply list_eq.
  - intros g. split; [apply sort_desc_Sorted|apply sort_desc_Permutation].
Qed.

(** C7, as amended. When the two graphs have different numbers of degree
    groups, [detectIsomorphismOptimized] returns NotIsomorphic without
    drawing any candidate, but the reason is "Invariants do not match", not
    "Different number of degree groups": such a pair already fails the
    degree-sequence check of [checkInvariants]. The degree-group count
    rejects no pair that the degree-sequence check passes. *)
Theorem degree_group_count_mismatch
    (σ : store) (g1 g2 : loc) (options : Options)
    (degreeGroups1 degreeGroups2 : JsMap.t nat (list vertex)) :
  value (groupByDegree g1 σ) = inr degreeGroups1 →
  value (groupByDegree g2 σ) = inr degreeGroups2 →
  JsMap.size degreeGroups1 ≠ JsMap.size degreeGroups2 →
  ∃ r, detectIsomorphismOptimized g1 g2 options σ = Outcome σ [] (inr r)
    ∧ isIsomorphic r = Some false
    ∧ reason r = Some "Invariants do not match"
    ∧ reason r ≠ Some "Different number of degree groups"
    ∧ degreeSequence (checks (invariantCheck r)) = false
    ∧ mapping r = None ∧ permutationsChecked r = None.
Proof.
  intros H1 H2 Hsize. rewrite groupByDegree_runs in H1, H2.
  injection H1 as <-. injection H2 as <-.
  assert (getDegreeSequence (σ g1) ≠ getDegreeSequence (σ g2)) as Hseq.
  { intros Heq. by apply Hsize, groups_of_size. }
  assert (isomorphismPossible (invariants (σ g1) (σ g2)) = false) as Hposs.
  { apply not_true_is_false. rewrite invariants_possible. naive_solver. }
  destruct (detectIsomorphismOptimized_mismatch σ g1 g2 options Hposs)
    as (r & Hr & ? & Hreason & Hic & ? & ?).
  exists r. split_and!; try done.
  - by rewrite Hreason.
  - rewrite Hic. simpl. apply bool_decide_eq_false.
    intros Heq%JSON_stringify_inj. done.
Qed.

Lemma degree_group_count_mismatch_witness :
  ∃ r, detectIsomorphismOptimized 0 1 no_options square_and_path
       = Outcome square_and_path [] (inr r)
    ∧ isIsomorphic r = Some false
    ∧ reason r = Some "Invariants do not match"
    ∧ reason r ≠ Some "Different number of degree groups"
    ∧ degreeSequence (checks (invariantCheck r)) = false
    ∧ mapping r = None ∧ permutationsChecked r = None.
Proof.
  apply (degree_group_count_mismatch square_and_path 0 1 no_options
           (groups_of square) (groups_of path_abcd)).
  - reflexivity.
  - reflexivity.
  - vm_compute. lia.
Defined.

(** C7 as stated fails on the square and the four-vertex path: their
    vertices fall into one and two degree groups, and the reason the search
    returns is not "Different number of degree groups". *)
Lemma degree_group_reason_counterexample :
  ¬ ((∃ dg1 dg2, value (groupByDegree 0 square_and_path) = inr dg1
        ∧ value (groupByDegree 1 square_and_path) = inr dg2
        ∧ JsMap.size dg1 ≠ JsMap.size dg2) →
     ∃ r, value (detectIsomorphismOptimized 0 1 no_options square_and_path)
          = inr r
       ∧ isIsomorphic r = Some false
       ∧ reason r = Some "Different number of degree groups").
Proof.
  intros Hclaim. destruct Hclaim as (r & Hr & _ & Hreason).
  - exists (groups_of square), (groups_of path_abcd).
    split_and!; [reflexivity..|]. vm_compute. lia.
  - vm_compute in Hr. injection Hr as <-. discriminate Hreason.
Qed.

(** C8: neither search mutates its inputs. Whatever the outcome, the store
    after a call of [detectIsomorphism] or [detectIsomorphismOptimized] is
    the store before it; in particular the vertices, adjacency lists, edges
    and directedness flag of both graphs are what they were. *)
Theorem searches_do_not_mutate
    (σ : store) (g1 g2 : loc) (options : Options) :
  final (detectIsomorphism g1 g2 options σ) = σ
  ∧ final (detectIsomorphismOptimized g1 g2 options σ) = σ
  ∧ unchanged (σ g1) (final (detectIsomorphism g1 g2 options σ) g1)
  ∧ unchanged (σ g2) (final (detectIsomorphism g1 g2 options σ) g2)
  ∧ unchanged (σ g1) (final (detectIsomorphismOptimized g1 g2 options σ) g1)
  ∧ unchanged (σ g2) (final (detectIsomorphismOptimized g1 g2 options σ) g2).
Proof.
  rewrite (detectIsomorphism_read_only g1 g2 options σ).
  rewrite (detectIsomorphismOptimized_read_only g1 g2 options σ).
  by split_and!.
Qed.

(** C9: in an undirected graph built by any sequence of [addVertex] and
    [addEdge] calls (none of which throws), every recorded edge (u, v) has
    v in the neighbour list of u and u in that of v, and [areAdjacent] is
    symmetric, also when an argument is [undefined]. *)
Theorem undirected_adjacency_symmetric (ops : list op) :
  ∃ g, run_ops ops (new false) = Some g
    ∧ (∀ u v, (u, v) ∈ edges g →
         v ∈ getNeighbors u g ∧ u ∈ getNeighbors v g)
    ∧ (∀ u v : vertex, areAdjacent (Some u) (Some v) g
                       = areAdjacent (Some v) (Some u) g)
    ∧ (∀ u : jsval, areAdjacent u undefined g = areAdjacent undefined u g).
Proof.
  destruct (run_ops_inv ops (new false) (new_inv false)) as (g & Hg & Hinv & Hd).
  simpl in Hd. exists g. split_and!; [done|..].
  - intros u v Huv%(inv_edges _ Hinv). split; [done|].
    by apply (inv_sym _ Hinv Hd).
  - intros u v. rewrite !areAdjacent_neighbors.
    apply bool_decide_ext. split; apply (inv_sym _ Hinv Hd).
  - intros [u|]; [|done]. unfold areAdjacent. simpl.
    by destruct (adjacencyList g !! u).
Qed.

(** C10: for two graphs built through the class that have no vertex, and a
    ceiling that is not negative (as the default is), [detectIsomorphism]
    returns Isomorphic with the empty mapping and [permutationsChecked] = 1:
    [permute] of the empty vertex array is the single empty permutation, it
    is drawn as the one candidate (followed by one callback call when a
    callback is supplied), and it passes [isValidMapping]. *)
Theorem empty_graphs_are_isomorphic
    (σ : store) (g1 g2 : loc) (options : Options) :
  built (σ g1) → built (σ g2) →
  getVertexCount (σ g1) = 0 → getVertexCount (σ g2) = 0 →
  (0 ≤ default 10 (maxVertices options))%Z →
  ∃ r, detectIsomorphism g1 g2 options σ
       = Outcome σ
           (Candidate JsMap.empty
            :: if onProgress options
               then [OnProgress {| checked := 1; total := Some 1 |}] else [])
           (inr r)
    ∧ isIsomorphic r = Some true
    ∧ mapping r = Some ∅
    ∧ permutationsChecked r = Some 1
    ∧ permute (vertices (σ g2)) = [[]]
    ∧ valid (σ g1) (σ g2) JsMap.empty = true.
Proof.
  intros Hb1 Hb2 Hn1 Hn2 Hmax.
  apply length_zero_iff_nil in Hn1, Hn2.
  pose proof (built_empty _ Hb1 Hn1) as H1.
  pose proof (built_empty _ Hb2 Hn2) as H2.
  assert (isomorphismPossible (invariants (σ g1) (σ g2)) = true) as Hposs.
  { apply invariants_possible. rewrite H1, H2.
    by destruct (isDirected (σ g1)), (isDirected (σ g2)). }
  destruct (detectIsomorphism_search σ g1 g2 options Hposs) as (r & Hr & ->).
  { unfold getVertexCount. rewrite Hn1. simpl. lia. }
  rewrite Hr. revert Hr. rewrite Hn1, Hn2. intros _.
  assert (valid (σ g1) (σ g2) JsMap.empty = true) as Hvalid.
  { unfold valid. by rewrite Hn1. }
  cbn [permute permute_fuel length decide_rel]. simpl.
  unfold brute_step, brute_events, assign. rewrite Hn1. simpl.
  rewrite Hvalid. simpl.
  eexists. split_and!; try done.
  all: by destruct (onProgress options).
Qed.

Lemma empty_graphs_are_isomorphic_witness :
  ∃ r, detectIsomorphism 0 1 no_options empty_pair
       = Outcome empty_pair
           (Candidate JsMap.empty
            :: if onProgress no_options
               then [OnProgress {| checked := 1; total := Some 1 |}] else [])
           (inr r)
    ∧ isIsomorphic r = Some true
    ∧ mapping r = Some ∅
    ∧ permutationsChecked r = Some 1
    ∧ permute (vertices (empty_pair 1)) = [[]]
    ∧ valid (empty_pair 0) (empty_pair 1) JsMap.empty = true.
Proof.
  apply (empty_graphs_are_isomorphic empty_pair 0 1 no_options).
  - by exists false, [].
  - by exists true, [].
  - reflexivity.
  - reflexivity.
  - simpl. lia.
Defined.

(** * Further properties of the code

    Properties of the two files beyond the ones above: the functions left
    out there, and more of the behaviour of those already met. *)

(** ** Permutations *)

Section permute_count.
Context {A : Type}.
Implicit Types arr p : list A.

Lemma length_bind_const {B} (f : nat → list B) (l : list nat) n :
  (∀ i, i ∈ l → length (f i) = n) → length (l ≫= f) = length l * n.
Proof.
  induction l as [|i l IH]; intros Hf; csimpl; [done|].
  rewrite length_app, Hf, IH by set_solver. done.
Qed.

Lemma permute_fuel_length fuel arr :
  length arr ≤ fuel → length (permute_fuel fuel arr) = fact (length arr).
Proof.
  revert arr. induction fuel as [|fuel IH]; intros arr Hfuel.
  - destruct arr; [done|simpl in Hfuel; lia].
  - simpl. case_decide as Hshort.
    { by destruct arr as [|? [|??]]; simpl in *; try lia. }
    rewrite (length_bind_const _ _ (fact (length arr - 1))).
    + rewrite length_seq. destruct (length arr) as [|n]; [lia|].
      simpl. rewrite Nat.sub_0_r. lia.
    + intros i Hi%elem_of_seq.
      destruct (lookup_lt_is_Some_2 arr i) as [x Hx]; [lia|].
      rewrite Hx, length_fmap.
      apply remaining_Permutation, Permutation_length in Hx. simpl in Hx.
      rewrite IH by lia. f_equal. lia.
Qed.

Lemma permute_fuel_head fuel arr :
  length arr ≤ fuel → head (permute_fuel fuel arr) = Some arr.
Proof.
  revert arr. induction fuel as [|fuel IH]; intros arr Hfuel.
  - destruct arr; [done|simpl in Hfuel; lia].
  - simpl. case_decide as Hshort; [done|].
    destruct arr as [|x arr]; [simpl in Hshort; lia|].
    simpl in Hfuel. cbn [length seq]. rewrite bind_cons. simpl.
    rewrite drop_0.
    specialize (IH arr ltac:(lia)).
    destruct (permute_fuel fuel arr) as [|p ps]; [done|].
    simpl in IH. injection IH as ->. done.
Qed.

Lemma permute_fuel_NoDup fuel arr :
  length arr ≤ fuel → NoDup arr → NoDup (permute_fuel fuel arr).
Proof.
  revert arr. induction fuel as [|fuel IH]; intros arr Hfuel Hnd.
  - destruct arr; [|simpl in Hfuel; lia]. simpl. apply NoDup_singleton.
  - simpl. case_decide as Hshort; [apply NoDup_singleton|].
    apply NoDup_bind; [| |apply NoDup_seq].
    + intros i j p Hi%elem_of_seq Hj%elem_of_seq Hpi Hpj.
      destruct (lookup_lt_is_Some_2 arr i) as [x Hx]; [lia|].
      destruct (lookup_lt_is_Some_2 arr j) as [y Hy]; [lia|].
      rewrite Hx in Hpi. rewrite Hy in Hpj.
      apply list_elem_of_fmap in Hpi as (p1 & -> & _).
      apply list_elem_of_fmap in Hpj as (p2 & [= -> _] & _).
      by eapply NoDup_lookup.
    + intros i Hi%elem_of_seq.
      destruct (lookup_lt_is_Some_2 arr i) as [x Hx]; [lia|].
      rewrite Hx. apply (NoDup_fmap_2 _).
      pose proof (remaining_Permutation _ _ _ Hx) as Hrem.
      apply IH.
      * apply Permutation_length in Hrem. simpl in Hrem. lia.
      * rewrite Hrem in Hnd. by apply NoDup_cons in Hnd as [_ ?].
Qed.
End permute_count.

(** X1 ([permute]): the result holds exactly the permutations of the
    array: a list is in it if and only if it is a rearrangement of [arr];
    there are [n!] of them for an array of length [n]; the first one is
    [arr] itself; and when [arr] has no repeated element no permutation is
    produced twice. *)
Theorem permute_enumerates {A : Type} (arr : list A) :
  (∀ p, p ∈ permute arr ↔ p ≡ₚ arr)
  ∧ length (permute arr) = fact (length arr)
  ∧ head (permute arr) = Some arr
  ∧ (NoDup arr → NoDup (permute arr)).
Proof.
  split_and!.
  - intros p. apply permute_spec.
  - by apply permute_fuel_length.
  - by apply permute_fuel_head.
  - by apply permute_fuel_NoDup.
Qed.

(** ** Validation, invariants and verdicts *)

Lemma valid_spec G1 G2 m :
  valid G1 G2 m = true
  ↔ ∀ v1 v2, v1 ∈ vertices G1 → v2 ∈ vertices G1 →
      areAdjacent (Some v1) (Some v2) G1
      = areAdjacent (mapping_get v1 m) (mapping_get v2 m) G2.
Proof.
  unfold valid. rewrite forallb_forall. split.
  - intros H v1 v2 Hv1%list_elem_of_In Hv2%list_elem_of_In.
    specialize (H v1 Hv1). rewrite forallb_forall in H.
    by apply (bool_decide_eq_true_1 _), H.
  - intros H v1 Hv1. rewrite forallb_forall. intros v2 Hv2.
    apply (bool_decide_eq_true_2 _), H; by apply list_elem_of_In.
Qed.

(** X2 ([isValidMapping]): the function returns without throwing, without
    an effect on the graphs and without an event, and its result is [true]
    exactly when, for every ordered pair of vertices of the first graph (a
    vertex paired with itself included), [areAdjacent] in the first graph
    equals [areAdjacent] of the two images in the second graph. A vertex the
    mapping has no entry for has the image [undefined], which is adjacent to
    nothing. *)
Theorem isValidMapping_correct (g1 g2 : loc) (m : Mapping) (σ : store) :
  ∃ b : bool,
    isValidMapping g1 g2 m σ = Outcome σ [] (inr b)
    ∧ (b = true
       ↔ ∀ v1 v2, v1 ∈ vertices (σ g1) → v2 ∈ vertices (σ g1) →
           areAdjacent (Some v1) (Some v2) (σ g1)
           = areAdjacent (mapping_get v1 m) (mapping_get v2 m) (σ g2)).
Proof.
  exists (valid (σ g1) (σ g2) m). split; [apply isValidMapping_runs|].
  apply valid_spec.
Qed.

(** X3 ([checkInvariants]): swapping the arguments gives the same three
    checks and the same [isomorphismPossible], with the two [details]
    swapped; and a graph checked against itself always passes. *)
Theorem checkInvariants_symmetric (g1 g2 : loc) (σ : store) :
  ∃ ic ic' ic1,
    checkInvariants g1 g2 σ = Outcome σ [] (inr ic)
    ∧ checkInvariants g2 g1 σ = Outcome σ [] (inr ic')
    ∧ checkInvariants g1 g1 σ = Outcome σ [] (inr ic1)
    ∧ isomorphismPossible ic' = isomorphismPossible ic
    ∧ checks ic' = checks ic
    ∧ details ic' = ((details ic).2, (details ic).1)
    ∧ isomorphismPossible ic1 = true.
Proof.
  exists (invariants (σ g1) (σ g2)), (invariants (σ g2) (σ g1)),
    (invariants (σ g1) (σ g1)).
  split_and!; try apply checkInvariants_runs.
  - apply invariants_sym.
  - unfold invariants. simpl. f_equal; apply bool_decide_ext; naive_solver.
  - done.
  - by apply invariants_possible.
Qed.

(** X4 ([detectIsomorphism], [detectIsomorphismOptimized]): a verdict
    [isIsomorphic = true] is never wrong. When either search returns it, the
    two graphs are isomorphic in the sense of the header of [isomorphism.js]:
    some bijection between the vertex sets preserves [areAdjacent] (the [Map]
    the search validated is one). The vertex sets are sets. *)
Theorem isomorphic_verdict_sound
    (σ : store) (g1 g2 : loc) (options : Options) :
  NoDup (vertices (σ g1)) → NoDup (vertices (σ g2)) →
  verdict (detectIsomorphism g1 g2 options σ) = Some (Some true)
  ∨ verdict (detectIsomorphismOptimized g1 g2 options σ) = Some (Some true) →
  ∃ f, isomorphism (σ g1) (σ g2) f.
Proof.
  intros Hnd1 Hnd2 Hv.
  assert (isomorphismPossible (invariants (σ g1) (σ g2)) = true
          ∧ ∃ m, pairing (vertices (σ g1)) (vertices (σ g2)) m
              ∧ valid (σ g1) (σ g2) m = true) as (Hic & m & Hpair & Hvalid).
  { unfold verdict, returned in Hv.
    destruct Hv as [Hv|Hv];
      destruct (value _) as [e|r] eqn:Hr; simpl in Hv; try done;
      injection Hv as Hv.
    - destruct (detectIsomorphism_found σ g1 g2 options Hnd1 r Hr Hv)
        as (? & m & _ & ? & ?). eauto.
    - destruct (detectIsomorphismOptimized_found σ g1 g2 options Hnd1 r Hr Hv)
        as (? & m & _ & ? & ?). eauto. }
  exists (λ u, mapping_get u m). apply pairing_isomorphism; try done.
  by apply invariants_possible in Hic as (? & _).
Qed.

Lemma isomorphic_verdict_sound_witness :
  ∃ f, isomorphism (triangles 0) (triangles 1) f.
Proof.
  apply (isomorphic_verdict_sound triangles 0 1 no_options).
  - apply (bool_decide_unpack _). vm_compute. exact I.
  - apply (bool_decide_unpack _). vm_compute. exact I.
  - left. vm_compute. reflexivity.
Defined.

(** X5 ([detectIsomorphism]): when the result carries
    [permutationsChecked = k], the two graphs have the same number [n] of
    vertices, [1 <= k <= n!], and a NotIsomorphic verdict was reached only
    after all [n!] permutations were checked. *)
Theorem permutationsChecked_bounds
    (σ : store) (g1 g2 : loc) (options : Options) (r : SearchResult) (k : nat) :
  value (detectIsomorphism g1 g2 options σ) = inr r →
  permutationsChecked r = Some k →
  1 ≤ k ≤ fact (getVertexCount (σ g2))
  ∧ getVertexCount (σ g1) = getVertexCount (σ g2)
  ∧ (isIsomorphic r = Some false → k = fact (getVertexCount (σ g2))).
Proof.
  intros Hr Hk.
  destruct (isomorphismPossible (invariants (σ g1) (σ g2))) eqn:Hic.
  - destruct (decide (default 10 (maxVertices options)
                      < Z.of_nat (getVertexCount (σ g1)))%Z) as [Hbig|Hsmall].
    + destruct (detectIsomorphism_too_large σ g1 g2 options Hic Hbig)
        as (r' & Hr' & _ & _ & _ & Hpc).
      rewrite (value_runs _ _ _ _ Hr') in Hr. injection Hr as <-. congruence.
    + destruct (detectIsomorphism_search σ g1 g2 options Hic Hsmall)
        as (r' & Hr' & Heq).
      rewrite (value_runs _ _ _ _ Hr') in Hr. injection Hr as <-.
      pose proof (permute_fuel_length (length (vertices (σ g2)))
                    (vertices (σ g2)) (Nat.le_refl _)) as Hlen.
      fold (permute (vertices (σ g2))) in Hlen.
      apply invariants_possible in Hic as (Hn & _).
      destruct (first_valid _ _ _) as [[perm k']|] eqn:Hfirst.
      * apply first_valid_Some in Hfirst as (_ & _ & Hk').
        subst r'. simpl in Hk. injection Hk as <-.
        rewrite Hlen in Hk'. unfold getVertexCount.
        split_and!; [lia..|done|done].
      * subst r'. simpl in Hk. injection Hk as <-. rewrite Hlen.
        unfold getVertexCount. split_and!; [|lia|done..].
        pose proof (fact_neq_0 (length (vertices (σ g2)))). lia.
  - destruct (detectIsomorphism_mismatch σ g1 g2 options Hic)
      as (r' & Hr' & _ & _ & _ & Hpc).
    rewrite (value_runs _ _ _ _ Hr') in Hr. injection Hr as <-. congruence.
Qed.

Lemma permutationsChecked_bounds_witness :
  1 ≤ 1 ≤ fact (getVertexCount (triangles 1))
  ∧ getVertexCount (triangles 0) = getVertexCount (triangles 1)
  ∧ (isIsomorphic (found (assign (vertices triangle_abc) (vertices triangle_123)
                            JsMap.empty)
                         (invariants triangle_abc triangle_123) 1 None)
     = Some false → 1 = fact (getVertexCount (triangles 1))).
Proof.
  apply (permutationsChecked_bounds triangles 0 1 no_options).
  - vm_compute. reflexivity.
  - reflexivity.
Defined.

(** ** Progress reports *)

Lemma reports_app t1 t2 : reports (t1 ++ t2) = reports t1 ++ reports t2.
Proof. apply omap_app. Qed.

Lemma count_candidates_cons_candidate m t :
  count_candidates (Candidate m :: t) = S (count_candidates t).
Proof. done. Qed.

Lemma count_candidates_cons_progress p t :
  count_candidates (OnProgress p :: t) = count_candidates t.
Proof. done. Qed.

Lemma brute_events_reports G1 onP tot perm c :
  reports (brute_events G1 onP tot perm c)
  = if onP then [{| checked := S c; total := Some tot |}] else [].
Proof. by destruct onP. Qed.

Lemma optimized_events_reports onP m c :
  reports (optimized_events onP (Yield m) c)
  = if onP && bool_decide (S c `mod` 100 = 0)
    then [{| checked := S c; total := None |}] else [].
Proof. unfold optimized_events. by destruct (onP && _). Qed.

Lemma brute_loop_reports G1 G2 ic onP tot perms c :
  reports (loop (brute_step G1 G2 ic) (brute_events G1 onP tot) perms c).1
  = if onP
    then (λ i, {| checked := i; total := Some tot |})
           <$> seq (S c) (count_candidates
                 (loop (brute_step G1 G2 ic) (brute_events G1 onP tot) perms c).1)
    else [].
Proof.
  revert c. induction perms as [|perm perms IH]; intros c.
  - by destruct onP.
  - cbn [loop].
    remember (brute_step G1 G2 ic perm c) as st eqn:Hst.
    unfold brute_step in Hst.
    destruct (valid _ _ _); subst st; cbn [fst snd].
    + rewrite app_nil_r, brute_events_reports, brute_events_count.
      by destruct onP.
    + rewrite reports_app, count_candidates_app, IH, brute_events_reports,
        brute_events_count.
      by destruct onP.
Qed.

Lemma optimized_loop_reports G1 G2 ic onP items c :
  reports (loop (optimized_step G1 G2 ic) (optimized_events onP) items c).1
  = if onP
    then (λ i, {| checked := i; total := None |})
           <$> filter (λ i, i `mod` 100 = 0)
                 (seq (S c) (count_candidates
                    (loop (optimized_step G1 G2 ic) (optimized_events onP) items c).1))
    else [].
Proof.
  revert c. induction items as [|[m|e] items IH]; intros c.
  - by destruct onP.
  - cbn [loop].
    remember (optimized_step G1 G2 ic (Yield m) c) as st eqn:Hst.
    unfold optimized_step in Hst.
    destruct (valid _ _ _); subst st; cbn [fst snd].
    + rewrite app_nil_r, optimized_events_reports, optimized_events_count.
      destruct onP; [|done]. cbn [seq andb]. rewrite filter_cons, filter_nil.
      case_bool_decide; by case_decide.
    + rewrite reports_app, count_candidates_app, IH, optimized_events_reports,
        optimized_events_count.
      destruct onP; [|done]. cbn [seq andb Nat.add]. rewrite filter_cons.
      case_bool_decide; by case_decide.
  - by destruct onP.
Qed.

(** X6 ([detectIsomorphism], the [onProgress] option): with a callback,
    the search calls it once per candidate, before the candidate is checked,
    with [checked] running 1, 2, ..., [permutationsChecked] and [total] the
    number [n!] of permutations; without a callback (and on the early
    returns) nothing is reported. *)
Theorem brute_force_progress (σ : store) (g1 g2 : loc) (options : Options) :
  ∃ r, value (detectIsomorphism g1 g2 options σ) = inr r
    ∧ reports (trace (detectIsomorphism g1 g2 options σ))
      = if onProgress options
        then (λ i, {| checked := i;
                      total := Some (fact (getVertexCount (σ g2))) |})
               <$> seq 1 (default 0 (permutationsChecked r))
        else [].
Proof.
  destruct (isomorphismPossible (invariants (σ g1) (σ g2))) eqn:Hic.
  - destruct (decide (default 10 (maxVertices options)
                      < Z.of_nat (getVertexCount (σ g1)))%Z) as [Hbig|Hsmall].
    + destruct (detectIsomorphism_too_large σ g1 g2 options Hic Hbig)
        as (r & Hr & _ & _ & _ & Hpc).
      exists r. rewrite Hr, Hpc. simpl. split; [done|by destruct (onProgress _)].
    + pose proof (proj1 (candidates_counted σ g1 g2 options)) as Hcount.
      pose proof (detectIsomorphism_search_loop σ g1 g2 options Hic Hsmall) as Hs.
      destruct (detectIsomorphism_search σ g1 g2 options Hic Hsmall)
        as (r & Hr & _).
      exists r. specialize (Hcount r (value_runs _ _ _ _ Hr)).
      split; [by apply value_runs in Hr|].
      rewrite <-Hcount, Hs. simpl.
      rewrite brute_loop_reports.
      pose proof (permute_fuel_length (length (vertices (σ g2)))
                    (vertices (σ g2)) (Nat.le_refl _)) as Hlen.
      fold (permute (vertices (σ g2))) in Hlen. by rewrite Hlen.
  - destruct (detectIsomorphism_mismatch σ g1 g2 options Hic)
      as (r & Hr & _ & _ & _ & Hpc).
    exists r. rewrite Hr, Hpc. simpl. split; [done|by destruct (onProgress _)].
Qed.

(** X7 ([detectIsomorphismOptimized], the [onProgress] option): with a
    callback, the search reports every hundredth candidate only: the calls
    have [checked] = 100, 200, ... up to [permutationsChecked], in this
    order, and carry no [total]. Fewer than 100 candidates give no call. *)
Theorem optimized_progress
    (σ : store) (g1 g2 : loc) (options : Options) (r : SearchResult) :
  value (detectIsomorphismOptimized g1 g2 options σ) = inr r →
  reports (trace (detectIsomorphismOptimized g1 g2 options σ))
  = if onProgress options
    then (λ i, {| checked := i; total := None |})
           <$> filter (λ i, i `mod` 100 = 0)
                 (seq 1 (default 0 (permutationsChecked r)))
    else [].
Proof.
  intros Hr.
  pose proof (proj2 (candidates_counted σ g1 g2 options) r Hr) as Hcount.
  rewrite <-Hcount. clear Hcount.
  destruct (isomorphismPossible (invariants (σ g1) (σ g2))) eqn:Hic.
  - destruct (decide (default 12 (maxVertices options)
                      < Z.of_nat (getVertexCount (σ g1)))%Z) as [Hbig|Hsmall].
    + destruct (detectIsomorphismOptimized_too_large σ g1 g2 options Hic Hbig)
        as (r' & Hr' & _).
      rewrite Hr'. simpl. by destruct (onProgress _).
    + rewrite (detectIsomorphismOptimized_search σ g1 g2 options Hic Hsmall).
      simpl. apply optimized_loop_reports.
  - destruct (detectIsomorphismOptimized_mismatch σ g1 g2 options Hic)
      as (r' & Hr' & _).
    rewrite Hr'. simpl. by destruct (onProgress _).
Qed.

(** ** Candidates and degree groups *)


Section candidates.
Context (G1 G2 : Graph) (ic : InvariantCheck) (onP : bool).

Lemma brute_loop_candidates tot perms c m :
  Candidate m ∈ (loop (brute_step G1 G2 ic) (brute_events G1 onP tot) perms c).1 →
  ∃ perm, perm ∈ perms ∧ m = assign (vertices G1) perm JsMap.empty.
Proof.
  revert c. induction perms as [|perm perms IH]; intros c.
  { by intros ?%elem_of_nil. }
  cbn [loop].
  assert (Candidate m ∈ brute_events G1 onP tot perm c →
          m = assign (vertices G1) perm JsMap.empty) as Hev.
  { unfold brute_events. destruct onP; set_solver. }
  remember (brute_step G1 G2 ic perm c) as st eqn:Hst.
  unfold brute_step in Hst.
  destruct (valid _ _ _); subst st; cbn [fst snd].
  - rewrite app_nil_r. intros ?%Hev. exists perm. split; [left|done].
  - intros [?%Hev|(perm' & ? & ?)%IH]%elem_of_app.
    + exists perm. split; [left|done].
    + exists perm'. split; [by right|done].
Qed.

Lemma optimized_loop_candidates items c m :
  Candidate m ∈ (loop (optimized_step G1 G2 ic) (optimized_events onP) items c).1 →
  Yield m ∈ items.
Proof.
  revert c. induction items as [|[m'|e] items IH]; intros c.
  { by intros ?%elem_of_nil. }
  - cbn [loop].
    assert (Candidate m ∈ optimized_events onP (Yield m') c → m = m') as Hev.
    { unfold optimized_events. destruct (onP && _); set_solver. }
    remember (optimized_step G1 G2 ic (Yield m') c) as st eqn:Hst.
    unfold optimized_step in Hst.
    destruct (valid _ _ _); subst st; cbn [fst snd].
    + rewrite app_nil_r. intros ->%Hev. left.
    + intros [->%Hev|?%IH]%elem_of_app; [left|by right].
  - cbn [loop optimized_step optimized_events fst]. by intros ?%elem_of_nil.
Qed.
End candidates.

Section paired_facts.
Implicit Types ks ps : list vertex.

Lemma elem_of_paired ks ps u x :
  (u, Some x) ∈ paired ks ps → u ∈ ks ∧ x ∈ ps.
Proof.
  unfold paired. intros (i & k & [= -> Hx] & Hk)%elem_of_lookup_imap.
  split; by eapply list_elem_of_lookup_2.
Qed.

Lemma elem_of_paired_mjoin (groups perms : list (list vertex)) u x :
  Forall2 (λ g ps, length g = length ps) groups perms →
  (u, Some x) ∈ paired (mjoin groups) (mjoin perms) →
  ∃ i g ps, groups !! i = Some g ∧ perms !! i = Some ps ∧ u ∈ g ∧ x ∈ ps.
Proof.
  induction 1 as [|g ps groups perms Hlen _ IH]; csimpl.
  { by intros ?%elem_of_nil. }
  rewrite paired_app by done.
  intros [[??]%elem_of_paired|Hin]%elem_of_app.
  - by exists 0, g, ps.
  - destruct (IH Hin) as (i & g' & ps' & ? & ? & ? & ?).
    by exists (S i), g', ps'.
Qed.

Lemma paired_values ks ps :
  length ks = length ps → (paired ks ps).*2 = Some <$> ps.
Proof.
  intros Hlen. apply list_eq. intros i.
  unfold paired. rewrite !list_lookup_fmap, list_lookup_imap.
  destruct (ks !! i) as [k|] eqn:Hk; simpl.
  - apply lookup_lt_Some in Hk.
    destruct (lookup_lt_is_Some_2 ps i) as [x Hx]; [lia|]. by rewrite Hx.
  - apply lookup_ge_None in Hk. by rewrite lookup_ge_None_2 by lia.
Qed.

Lemma pairing_keys_values vs1 vs2 m :
  length vs1 = length vs2 → pairing vs1 vs2 m →
  JsMap.keys m ≡ₚ vs1 ∧ m.*2 ≡ₚ Some <$> vs2.
Proof.
  intros Hlen (ks & ps & -> & Hks & Hps).
  rewrite paired_keys, paired_values.
  - split; [done|]. by rewrite Hps.
  - by rewrite Hks, Hps.
Qed.
End paired_facts.

Lemma elem_of_with_degree G d vs v :
  v ∈ with_degree G d vs → getDegree v G = d.
Proof. unfold with_degree. by intros [? _]%list_elem_of_filter. Qed.

Lemma optimized_items_degrees G1 G2 m u x :
  isomorphismPossible (invariants G1 G2) = true →
  NoDup (vertices G1) →
  Yield m ∈ optimized_items G1 G2 → (u, Some x) ∈ m →
  getDegree x G2 = getDegree u G1.
Proof.
  intros Hposs Hnd Hm Hux.
  apply (elem_of_optimized_items G1 G2 Hposs Hnd) in Hm as (pss & Hpss & [= ->]).
  apply elem_of_paired_mjoin in Hux as (i & g & ps & Hg & Hps & Hu & Hx).
  - rewrite list_lookup_fmap in Hg.
    destruct (JsMap.keys (groups_of G1) !! i) as [d|] eqn:Hd; [|done].
    injection Hg as <-.
    apply elem_of_with_degree in Hu.
    destruct (Forall2_lookup_l _ _ _ _ _ Hpss Hd) as (ps' & Hps' & Hperm).
    rewrite Hps in Hps'. injection Hps' as <-.
    rewrite Hperm in Hx. apply elem_of_with_degree in Hx. congruence.
  - by apply (groups_perms_length G1 G2 Hposs).
Qed.

(** X9 ([detectIsomorphism], [detectIsomorphismOptimized]): every
    candidate mapping a search examines has each vertex of the first graph
    as a key exactly once and each vertex of the second graph as a value
    exactly once; and the optimized search only examines candidates that
    send every vertex to a vertex of the same degree. *)
Theorem candidates_are_bijections
    (σ : store) (g1 g2 : loc) (options : Options) (m : Mapping) :
  NoDup (vertices (σ g1)) →
  (Candidate m ∈ trace (detectIsomorphism g1 g2 options σ) →
   JsMap.keys m ≡ₚ vertices (σ g1) ∧ m.*2 ≡ₚ Some <$> vertices (σ g2))
  ∧ (Candidate m ∈ trace (detectIsomorphismOptimized g1 g2 options σ) →
     JsMap.keys m ≡ₚ vertices (σ g1) ∧ m.*2 ≡ₚ Some <$> vertices (σ g2)
     ∧ ∀ u x, (u, Some x) ∈ m → getDegree x (σ g2) = getDegree u (σ g1)).
Proof.
  intros Hnd.
  destruct (isomorphismPossible (invariants (σ g1) (σ g2))) eqn:Hic.
  - pose proof Hic as (Hlen & _)%invariants_possible.
    split.
    + destruct (decide (default 10 (maxVertices options)
                        < Z.of_nat (getVertexCount (σ g1)))%Z) as [Hbig|Hsmall].
      * destruct (detectIsomorphism_too_large σ g1 g2 options Hic Hbig)
          as (r & -> & _). by intros ?%elem_of_nil.
      * rewrite (detectIsomorphism_search_loop σ g1 g2 options Hic Hsmall).
        cbn [trace].
        intros (perm & Hperm%permute_spec & ->)%brute_loop_candidates.
        apply pairing_keys_values; [done|]. by apply assign_pairing.
    + destruct (decide (default 12 (maxVertices options)
                        < Z.of_nat (getVertexCount (σ g1)))%Z) as [Hbig|Hsmall].
      * destruct (detectIsomorphismOptimized_too_large σ g1 g2 options Hic Hbig)
          as (r & -> & _). by intros ?%elem_of_nil.
      * rewrite (detectIsomorphismOptimized_search σ g1 g2 options Hic Hsmall).
        cbn [trace]. intros Hm%optimized_loop_candidates.
        destruct (optimized_items_pairing _ _ Hic Hnd _ Hm) as (m' & [= <-] & Hpair).
        destruct (pairing_keys_values _ _ _ Hlen Hpair) as [??].
        split_and!; [done..|].
        intros u x. by apply optimized_items_degrees.
  - destruct (detectIsomorphism_mismatch σ g1 g2 options Hic) as (r1 & -> & _).
    destruct (detectIsomorphismOptimized_mismatch σ g1 g2 options Hic)
      as (r2 & -> & _).
    split; by intros ?%elem_of_nil.
Qed.

(** X10 (the grouping loops of [detectIsomorphismOptimized]): the [Map]
    built for a graph has one key per degree that occurs; the group under a
    degree holds the vertices of that degree, in the order of the vertex
    set; a degree that does not occur has no group; and the groups together
    hold every vertex once. *)
Theorem groupByDegree_partitions (g : loc) (σ : store) :
  ∃ degreeGroups,
    groupByDegree g σ = Outcome σ [] (inr degreeGroups)
    ∧ NoDup (JsMap.keys degreeGroups)
    ∧ (∀ d, JsMap.get d degreeGroups
            = let group := filter (λ v, getDegree v (σ g) = d) (vertices (σ g)) in
              if decide (group = []) then None else Some group)
    ∧ mjoin degreeGroups.*2 ≡ₚ vertices (σ g).
Proof.
  exists (groups_of (σ g)). split; [apply groupByDegree_runs|].
  destruct (groups_of_keys (σ g)) as [Hnd Hkeys].
  split; [done|]. split; [apply groups_of_get|].
  assert ((groups_of (σ g)).*2
          = (λ d, filter (λ v, getDegree v (σ g) = d) (vertices (σ g)))
              <$> JsMap.keys (groups_of (σ g))) as ->.
  { unfold JsMap.keys. rewrite <-list_fmap_compose.
    apply list_eq. intros i. rewrite !list_lookup_fmap.
    destruct (_ !! i) as [[d group]|] eqn:Hi; [|done].
    simpl. f_equal.
    apply list_elem_of_lookup_2, elem_of_get in Hi; [|done].
    rewrite groups_of_get in Hi. case_decide; [done|].
    by injection Hi as <-. }
  apply partition_Permutation; [done|].
  intros v Hv. apply Hkeys. unfold degrees_of.
  apply list_elem_of_fmap. by exists v.
Qed.

(** ** Graphs built through the class *)

Section consistent.
Implicit Types g : Graph.

Lemma neighbors_from_snoc d es e u :
  neighbors_from d (es ++ [e]) u = neighbors_from d es u ++ pushed d u e.
Proof.
  unfold neighbors_from. rewrite bind_app. csimpl. by rewrite app_nil_r.
Qed.

Lemma neighbors_from_nil d es u :
  (∀ a b, (a, b) ∈ es → a ≠ u ∧ b ≠ u) → neighbors_from d es u = [].
Proof.
  unfold neighbors_from. induction es as [|[a b] es IH]; intros Hes; [done|].
  rewrite bind_cons, IH by (intros ???; apply Hes; by right).
  destruct (Hes a b) as [??]; [left|].
  unfold pushed. simpl. rewrite decide_False by done.
  rewrite bool_decide_eq_false_2 by done. by rewrite andb_false_r.
Qed.

Lemma new_consistent d : consistent (new d).
Proof.
  split.
  - apply NoDup_nil_2.
  - by intros u v ?%elem_of_nil.
  - intros u. cbn [new vertices adjacencyList].
    rewrite decide_False by apply not_elem_of_nil. apply lookup_empty.
Qed.

Lemma addVertex_consistent v g : consistent g → consistent (addVertex v g).
Proof.
  intros [Hset Hedges Hadj]. unfold addVertex, has.
  case_bool_decide as Hv; simpl; [by split|].
  split; simpl.
  - apply NoDup_app. split_and!; [done| |apply NoDup_singleton].
    intros x Hx ->%list_elem_of_singleton. done.
  - intros u w Huw. destruct (Hedges u w Huw). set_solver.
  - intros u. destruct (decide (u = v)) as [->|Hne].
    + rewrite lookup_insert_eq, decide_True by set_solver.
      f_equal. symmetry. apply neighbors_from_nil. intros a b Hab.
      destruct (Hedges a b Hab). split; by intros ->.
    + rewrite lookup_insert_ne by done. rewrite Hadj.
      destruct (decide (u ∈ vertices g)).
      * by rewrite decide_True by set_solver.
      * by rewrite decide_False by set_solver.
Qed.

Lemma addVertex_elem_of v g : v ∈ vertices (addVertex v g).
Proof.
  unfold addVertex, has. case_bool_decide; simpl; [done|set_solver].
Qed.

Lemma addVertex_subseteq v g u : u ∈ vertices g → u ∈ vertices (addVertex v g).
Proof.
  unfold addVertex, has. case_bool_decide; simpl; [done|set_solver].
Qed.

Lemma addVertex_vertices_iff v g u :
  u ∈ vertices (addVertex v g) ↔ u = v ∨ u ∈ vertices g.
Proof.
  unfold addVertex, has. case_bool_decide; simpl; set_solver.
Qed.

Lemma addEdge_consistent v1 v2 g :
  consistent g →
  ∃ g', addEdge v1 v2 g = Some g'
    ∧ consistent g'
    ∧ isDirected g' = isDirected g
    ∧ vertices g' = vertices (addVertex v2 (addVertex v1 g))
    ∧ edges g' = edges g ++ [(v1, v2)].
Proof.
  intros Hg.
  pose proof (addVertex_consistent v2 _ (addVertex_consistent v1 _ Hg)) as Hg'.
  assert (v1 ∈ vertices (addVertex v2 (addVertex v1 g))) as Hv1
    by apply addVertex_subseteq, addVertex_elem_of.
  assert (v2 ∈ vertices (addVertex v2 (addVertex v1 g))) as Hv2
    by apply addVertex_elem_of.
  assert (isDirected (addVertex v2 (addVertex v1 g)) = isDirected g) as Hd
    by (by rewrite !addVertex_isDirected).
  assert (edges (addVertex v2 (addVertex v1 g)) = edges g) as He
    by (by rewrite !addVertex_edges).
  unfold addEdge.
  remember (addVertex v2 (addVertex v1 g)) as h eqn:Hh. clear Hh.
  destruct Hg' as [Hset Hedges Hadj].
  pose proof (Hadj v1) as Hl1. rewrite decide_True in Hl1 by done.
  rewrite Hl1. cbn [mbind option_bind isDirected adjacencyList].
  assert (∀ u w, (u, w) ∈ edges h ++ [(v1, v2)] → u ∈ vertices h ∧ w ∈ vertices h)
    as Hedges'.
  { intros u w [?|[= -> ->]%list_elem_of_singleton]%elem_of_app; auto. }
  destruct (isDirected h) eqn:Hdir; cbn [negb].
  - eexists. split; [done|]. split; [|by rewrite <-Hd, <-He].
    split; cbn [vertices edges adjacencyList isDirected]; [done..|].
    intros u. rewrite neighbors_from_snoc. unfold pushed. cbn [fst snd negb andb].
    rewrite app_nil_r.
    destruct (decide (v1 = u)) as [<-|Hne].
    + by rewrite lookup_insert_eq, decide_True by done.
    + rewrite lookup_insert_ne, Hadj by done.
      case_decide; [|done]. by rewrite app_nil_r.
  - assert (<[v1:=neighbors_from false (edges h) v1 ++ [v2]]> (adjacencyList h) !! v2
            = Some (if decide (v1 = v2)
                    then neighbors_from false (edges h) v1 ++ [v2]
                    else neighbors_from false (edges h) v2)) as Hl2.
    { destruct (decide (v1 = v2)) as [<-|Hne].
      - by rewrite lookup_insert_eq.
      - rewrite lookup_insert_ne, Hadj by done. by rewrite decide_True. }
    rewrite Hl2. cbn [mbind option_bind].
    eexists. split; [done|]. split; [|by rewrite <-Hd, <-He].
    split; cbn [vertices edges adjacencyList isDirected]; [done..|].
    intros u. rewrite neighbors_from_snoc. unfold pushed. cbn [fst snd negb andb].
    destruct (decide (v2 = u)) as [<-|Hne2].
    + rewrite lookup_insert_eq, (decide_True (P := v2 ∈ vertices h)) by done.
      rewrite bool_decide_eq_true_2 by done.
      destruct (decide (v1 = v2)) as [<-|Hne1]; [by rewrite <-app_assoc|done].
    + rewrite lookup_insert_ne by done.
      rewrite bool_decide_eq_false_2 by done.
      destruct (decide (v1 = u)) as [<-|Hne1].
      * by rewrite lookup_insert_eq, (decide_True (P := v1 ∈ vertices h)) by done.
      * rewrite lookup_insert_ne, Hadj by done.
        destruct (decide (u ∈ vertices h)); [|done]. by rewrite !app_nil_r.
Qed.

Lemma run_ops_consistent ops g :
  consistent g →
  ∃ g', run_ops ops g = Some g'
    ∧ consistent g'
    ∧ isDirected g' = isDirected g
    ∧ edges g' = edges g ++ ops ≫= added
    ∧ ∀ v, v ∈ vertices g' ↔ v ∈ vertices g ∨ v ∈ ops ≫= mentioned.
Proof.
  revert g. induction ops as [|[v|v1 v2] ops IH]; intros g Hg.
  - exists g. split_and!; [done..|by rewrite app_nil_r|]. set_solver.
  - destruct (IH _ (addVertex_consistent v g Hg)) as (g' & Hrun & ? & Hd & He & Hv).
    exists g'. split_and!; [done..| | |].
    + by rewrite Hd, addVertex_isDirected.
    + by rewrite He, addVertex_edges.
    + intros u. rewrite Hv, addVertex_vertices_iff, bind_cons. set_solver.
  - destruct (addEdge_consistent v1 v2 g Hg) as (h & Hh & Hcons & Hd & Hvs & Hes).
    destruct (IH _ Hcons) as (g' & Hrun & ? & Hd' & He & Hv).
    exists g'. split_and!; [|done| | |].
    + simpl. by rewrite Hh.
    + by rewrite Hd'.
    + rewrite He, Hes, bind_cons, <-app_assoc. done.
    + intros u. rewrite Hv, Hvs, !addVertex_vertices_iff, bind_cons. set_solver.
Qed.

Lemma built_consistent g : built g → consistent g.
Proof.
  intros (d & ops & Hrun).
  destruct (run_ops_consistent ops _ (new_consistent d)) as (g' & Hrun' & ? & _).
  congruence.
Qed.

Lemma consistent_neighbors g u :
  consistent g → getNeighbors u g = neighbors_from (isDirected g) (edges g) u.
Proof.
  intros [Hset Hedges Hadj]. unfold getNeighbors. rewrite Hadj.
  case_decide as Hu; [done|]. simpl. symmetry.
  apply neighbors_from_nil. intros a b Hab.
  destruct (Hedges a b Hab). split; by intros ->.
Qed.

Lemma elem_of_neighbors_from d es u v :
  v ∈ neighbors_from d es u ↔ (u, v) ∈ es ∨ (d = false ∧ (v, u) ∈ es).
Proof.
  unfold neighbors_from. rewrite list_elem_of_bind. split.
  - intros ([a b] & Hv & Hab). unfold pushed in Hv. simpl in Hv.
    apply elem_of_app in Hv as [Hv|Hv].
    + case_decide; [|by apply elem_of_nil in Hv].
      apply list_elem_of_singleton in Hv. subst. by left.
    + destruct d; simpl in Hv; [by apply elem_of_nil in Hv|].
      case_bool_decide; [|by apply elem_of_nil in Hv].
      apply list_elem_of_singleton in Hv. subst. by right.
  - intros [Huv|[-> Hvu]].
    + exists (u, v). split; [|done]. unfold pushed. simpl.
      rewrite decide_True by done. set_solver.
    + exists (v, u). split; [|done]. unfold pushed. simpl.
      rewrite bool_decide_eq_true_2 by done. set_solver.
Qed.
End consistent.

Section sums.
Context {A : Type}.

Lemma sum_list_fmap_add (f h : A → nat) (l : list A) :
  sum_list ((λ x, f x + h x) <$> l) = sum_list (f <$> l) + sum_list (h <$> l).
Proof. induction l as [|x l IH]; csimpl; [done|]. rewrite IH. lia. Qed.

Lemma sum_list_fmap_zero (f : A → nat) (l : list A) :
  (∀ x, x ∈ l → f x = 0) → sum_list (f <$> l) = 0.
Proof.
  induction l as [|x l IH]; intros Hf; csimpl; [done|].
  rewrite Hf, IH by set_solver. done.
Qed.

Lemma sum_list_fmap_indicator `{EqDecision A} (a : A) (l : list A) :
  NoDup l → a ∈ l →
  sum_list ((λ x, if decide (a = x) then 1 else 0) <$> l) = 1.
Proof.
  induction 1 as [|x l Hx Hnd IH]; intros Ha; [by apply elem_of_nil in Ha|].
  csimpl. destruct (decide (a = x)) as [->|Hne].
  - rewrite sum_list_fmap_zero; [done|].
    intros y Hy. rewrite decide_False; [done|]. by intros <-.
  - rewrite IH; [done|]. set_solver.
Qed.
End sums.

Lemma length_pushed d u e :
  length (pushed d u e)
  = (if decide (e.1 = u) then 1 else 0)
    + (if negb d then if decide (e.2 = u) then 1 else 0 else 0).
Proof.
  unfold pushed. rewrite length_app.
  destruct (decide (e.1 = u)), d; simpl; try done;
    case_bool_decide; by case_decide.
Qed.

Lemma degrees_sum d (es : list (vertex * vertex)) (vs : list vertex) :
  NoDup vs →
  (∀ a b, (a, b) ∈ es → a ∈ vs ∧ b ∈ vs) →
  sum_list ((λ u, length (neighbors_from d es u)) <$> vs)
  = (if d then 1 else 2) * length es.
Proof.
  intros Hnd. induction es as [|[a b] es IH]; intros Hes.
  - rewrite sum_list_fmap_zero; [simpl; lia|done].
  - destruct (Hes a b) as [Ha Hb]; [left|].
    assert (sum_list ((λ u, length (neighbors_from d ((a, b) :: es) u)) <$> vs)
            = sum_list ((λ u, length (pushed d u (a, b))
                              + length (neighbors_from d es u)) <$> vs)) as ->.
    { f_equal. apply list_fmap_ext. intros _ u _.
      unfold neighbors_from. by rewrite bind_cons, length_app. }
    rewrite sum_list_fmap_add, IH by (intros ???; apply Hes; by right).
    assert (sum_list ((λ u, length (pushed d u (a, b))) <$> vs)
            = if d then 1 else 2) as ->.
    { assert (sum_list ((λ u, length (pushed d u (a, b))) <$> vs)
              = sum_list ((λ u, (if decide (a = u) then 1 else 0)
                                + (if negb d
                                   then if decide (b = u) then 1 else 0
                                   else 0)) <$> vs)) as ->.
      { f_equal. apply list_fmap_ext. intros _ u _. apply length_pushed. }
      rewrite sum_list_fmap_add, sum_list_fmap_indicator by done.
      destruct d; simpl.
      - rewrite sum_list_fmap_zero; done.
      - rewrite sum_list_fmap_indicator; done. }
    simpl. destruct d; lia.
Qed.

(** X11 ([Graph.addVertex], [Graph.addEdge]): in a graph built through the
    class the vertex set has no duplicate, the adjacency list has an entry
    exactly for the vertices, both endpoints of every recorded edge are
    vertices, and the neighbour list of a vertex [u] is determined by the
    recorded edges: going through them in order, an edge [(u, v)]
    contributes [v], and in an undirected graph an edge [(v, u)] contributes
    [v] (a self-loop contributes twice). *)
Theorem adjacency_lists_follow_edges (g : Graph) :
  built g →
  NoDup (vertices g)
  ∧ (∀ u, is_Some (adjacencyList g !! u) ↔ u ∈ vertices g)
  ∧ (∀ u v, (u, v) ∈ edges g → u ∈ vertices g ∧ v ∈ vertices g)
  ∧ (∀ u, getNeighbors u g
          = edges g ≫= λ e,
              (if decide (e.1 = u) then [e.2] else [])
              ++ (if negb (isDirected g) && bool_decide (e.2 = u)
                  then [e.1] else [])).
Proof.
  intros Hg%built_consistent. pose proof Hg as [Hset Hedges Hadj].
  split_and!; [done| |done|].
  - intros u. rewrite Hadj. case_decide; split; try done;
      try (by intros [??]); by eexists.
  - intros u. by rewrite consistent_neighbors.
Qed.

Lemma adjacency_lists_follow_edges_witness :
  NoDup (vertices multi_a)
  ∧ (∀ u, is_Some (adjacencyList multi_a !! u) ↔ u ∈ vertices multi_a)
  ∧ (∀ u v, (u, v) ∈ edges multi_a → u ∈ vertices multi_a ∧ v ∈ vertices multi_a)
  ∧ (∀ u, getNeighbors u multi_a
          = edges multi_a ≫= λ e,
              (if decide (e.1 = u) then [e.2] else [])
              ++ (if negb (isDirected multi_a) && bool_decide (e.2 = u)
                  then [e.1] else [])).
Proof.
  apply (adjacency_lists_follow_edges multi_a).
  exists false,
    [AddEdge (VStr "a") (VStr "b");
     AddEdge (VStr "b") (VStr "c"); AddEdge (VStr "b") (VStr "c");
     AddEdge (VStr "b") (VStr "c");
     AddEdge (VStr "c") (VStr "d"); AddEdge (VStr "c") (VStr "d")].
  reflexivity.
Defined.

(** X12 ([Graph.areAdjacent]): in a graph built through the class,
    [areAdjacent(u, v)] is true exactly when the edge [(u, v)] was recorded
    or, in an undirected graph, the edge [(v, u)] was. *)
Theorem areAdjacent_iff_edge (g : Graph) (u v : vertex) :
  built g →
  areAdjacent (Some u) (Some v) g = true
  ↔ (u, v) ∈ edges g ∨ (isDirected g = false ∧ (v, u) ∈ edges g).
Proof.
  intros Hg%built_consistent.
  rewrite areAdjacent_neighbors, bool_decide_eq_true, consistent_neighbors by done.
  apply elem_of_neighbors_from.
Qed.

(** X13 ([Graph.getDegreeSequence], [Graph.getEdgeCount]): in a graph
    built through the class the degrees add up to twice the edge count when
    the graph is undirected and to the edge count when it is directed
    (repeated edges and self-loops included), and the degree sequence has
    one entry per vertex. *)
Theorem degree_sum_formula (g : Graph) :
  built g →
  sum_list (getDegreeSequence g)
  = (if isDirected g then 1 else 2) * getEdgeCount g
  ∧ length (getDegreeSequence g) = getVertexCount g.
Proof.
  intros Hg%built_consistent. pose proof Hg as [Hset Hedges Hadj].
  unfold getDegreeSequence. rewrite sort_desc_Permutation.
  split; [|by rewrite length_fmap].
  assert (getEdgeCount g = length (edges g)) as ->.
  { unfold getEdgeCount. by destruct (isDirected g). }
  rewrite <-(degrees_sum _ _ (vertices g)) by done.
  f_equal. apply list_fmap_ext. intros _ u _.
  unfold getDegree. by rewrite consistent_neighbors.
Qed.

(** X14 ([Graph.addVertex], [Graph.addEdge]): no sequence of [addVertex]
    and [addEdge] calls on a new graph throws; afterwards [edges] holds the
    [addEdge] calls in call order (nothing is deduplicated), [getEdgeCount]
    is their number, and the vertices are exactly the values the calls
    mention, each once. *)
Theorem construction_history (d : bool) (ops : list op) :
  ∃ g, run_ops ops (new d) = Some g
    ∧ isDirected g = d
    ∧ edges g = ops ≫= added
    ∧ getEdgeCount g = length (ops ≫= added)
    ∧ NoDup (vertices g)
    ∧ ∀ v, v ∈ vertices g ↔ v ∈ ops ≫= mentioned.
Proof.
  destruct (run_ops_consistent ops _ (new_consistent d))
    as (g & Hrun & Hcons & Hd & He & Hv).
  exists g. simpl in He. split_and!; [done..| |apply Hcons|].
  - unfold getEdgeCount. rewrite He. by destruct (isDirected g).
  - intros v. rewrite Hv. simpl. split; [|by right].
    by intros [?%elem_of_nil|?].
Qed.

(** X15 ([Graph.getNeighbors], [Graph.getDegree], [Graph.areAdjacent] on
    a missing key): for a value that is no vertex of a graph built through
    the class, [getNeighbors] is the empty array, [getDegree] is 0, and
    [areAdjacent] is false with the value on either side; [areAdjacent] with
    [undefined] as its first argument is false as well. Nothing throws. *)
Theorem unknown_vertex (g : Graph) (v : vertex) :
  built g → v ∉ vertices g →
  getNeighbors v g = []
  ∧ getDegree v g = 0
  ∧ ∀ w : jsval, areAdjacent (Some v) w g = false
                 ∧ areAdjacent w (Some v) g = false
                 ∧ areAdjacent undefined w g = false.
Proof.
  intros Hg%built_consistent Hv. pose proof Hg as [Hset Hedges Hadj].
  assert (adjacencyList g !! v = None) as Hnone.
  { by rewrite Hadj, decide_False. }
  assert (getNeighbors v g = []) as Hn.
  { unfold getNeighbors. by rewrite Hnone. }
  split; [done|]. split; [unfold getDegree; by rewrite Hn|].
  intros w. split_and!; [|..|done].
  - unfold areAdjacent. simpl. by rewrite Hnone.
  - destruct w as [w|]; [|done].
    destruct (areAdjacent (Some w) (Some v) g) eqn:Hadjwv; [|done].
    rewrite areAdjacent_neighbors, bool_decide_eq_true,
      consistent_neighbors in Hadjwv by done.
    apply elem_of_neighbors_from in Hadjwv as [Hin|[_ Hin]];
      destruct (Hedges _ _ Hin); done.
Qed.

(** ** The adjacency matrix *)

Lemma foldl_ext {A B} (f h : A → B → A) (l : list B) (a : A) :
  (∀ a x, f a x = h a x) → foldl f a l = foldl h a l.
Proof.
  intros Hfh. revert a. induction l as [|x l IH]; intros a; simpl; [done|].
  by rewrite Hfh, IH.
Qed.

Section matrix.
Context {A : Type}.
Implicit Types row : list A.
Implicit Types matrix : list (list A).

Lemma foldl_alter_row (P : nat → bool) (x : A) i js matrix :
  foldl (λ matrix j, if P j then alter (insert j x) i matrix else matrix)
        matrix js
  = alter (λ row, foldl (λ row j, if P j then <[j:=x]> row else row) row js)
          i matrix.
Proof.
  revert matrix. induction js as [|j js IH]; intros matrix; simpl.
  - by rewrite list_alter_id.
  - rewrite IH. destruct (P j); [|done]. by rewrite list_alter_alter_eq.
Qed.

Lemma foldl_insert_lookup (P : nat → bool) (x : A) js row k :
  foldl (λ row j, if P j then <[j:=x]> row else row) row js !! k
  = if bool_decide (k ∈ js) && P k then (λ _, x) <$> row !! k else row !! k.
Proof.
  revert row. induction js as [|j js IH]; intros row; simpl; [done|].
  rewrite IH. destruct (decide (k = j)) as [->|Hne].
  - rewrite (bool_decide_eq_true_2 (j ∈ j :: js)) by left. simpl.
    destruct (P j) eqn:HP.
    + destruct (decide (j < length row)) as [Hlt|Hge].
      * rewrite list_lookup_insert_eq by done.
        destruct (lookup_lt_is_Some_2 row j Hlt) as [y ->].
        by destruct (bool_decide _).
      * rewrite list_insert_ge, (lookup_ge_None_2 row j) by lia.
        by destruct (bool_decide _).
    + by rewrite andb_false_r.
  - assert (bool_decide (k ∈ j :: js) = bool_decide (k ∈ js)) as ->.
    { apply bool_decide_ext. set_solver. }
    destruct (P j); [|done]. by rewrite list_lookup_insert_ne.
Qed.

Lemma foldl_alter_lookup (F : nat → list A → list A) ixs matrix k :
  NoDup ixs →
  foldl (λ matrix i, alter (F i) i matrix) matrix ixs !! k
  = if bool_decide (k ∈ ixs) then F k <$> matrix !! k else matrix !! k.
Proof.
  intros Hnd. revert matrix.
  induction Hnd as [|i ixs Hi Hnd IH]; intros matrix; simpl; [done|].
  rewrite IH. destruct (decide (k = i)) as [->|Hne].
  - rewrite (bool_decide_eq_true_2 (i ∈ i :: ixs)) by left.
    rewrite bool_decide_eq_false_2 by done.
    by rewrite list_lookup_alter_eq.
  - assert (bool_decide (k ∈ i :: ixs) = bool_decide (k ∈ ixs)) as ->.
    { apply bool_decide_ext. set_solver. }
    by rewrite list_lookup_alter_ne.
Qed.
End matrix.

Lemma getAdjacencyMatrix_lookup g i :
  getAdjacencyMatrix g !! i
  = if bool_decide (i < length (vertices g))
    then Some ((λ j, if areAdjacent (vertices g !! i) (vertices g !! j) g
                     then 1 else 0) <$> seq 0 (length (vertices g)))
    else None.
Proof.
  unfold getAdjacencyMatrix.
  set (n := length (vertices g)).
  rewrite (foldl_ext _ (λ matrix i, alter (λ row, foldl (λ row j,
       if areAdjacent (vertices g !! i) (vertices g !! j) g
       then <[j:=1]> row else row) row (seq 0 n)) i matrix)); last first.
  { intros matrix i'.
    apply (foldl_alter_row
             (λ j, areAdjacent (vertices g !! i') (vertices g !! j) g) 1). }
  rewrite (foldl_alter_lookup
    (λ i row, foldl (λ row j,
       if areAdjacent (vertices g !! i) (vertices g !! j) g
       then <[j:=1]> row else row) row (seq 0 n))) by apply NoDup_seq.
  fold n. destruct (decide (i < n)) as [Hi|Hi].
  - rewrite (bool_decide_eq_true_2 (i ∈ seq 0 n)) by (apply elem_of_seq; lia).
    rewrite (bool_decide_eq_true_2 (i < n)) by done.
    rewrite lookup_replicate_2 by done. simpl. f_equal.
    apply list_eq. intros j. rewrite foldl_insert_lookup, list_lookup_fmap.
    destruct (decide (j < n)) as [Hj|Hj].
    + rewrite bool_decide_eq_true_2 by (apply elem_of_seq; lia).
      rewrite lookup_replicate_2, lookup_seq_lt by done. simpl.
      by destruct (areAdjacent _ _ _).
    + rewrite bool_decide_eq_false_2 by (rewrite elem_of_seq; lia).
      rewrite (proj1 (lookup_replicate_None _ _ _)), lookup_seq_ge by lia. done.
  - rewrite (bool_decide_eq_false_2 (i ∈ seq 0 n)) by (rewrite elem_of_seq; lia).
    rewrite (bool_decide_eq_false_2 (i < n)) by done.
    apply lookup_replicate_None. lia.
Qed.

Lemma getAdjacencyMatrix_sym (g : Graph) (i j : nat) :
  built g → isDirected g = false →
  getAdjacencyMatrix g !! i ≫= (.!! j) = getAdjacencyMatrix g !! j ≫= (.!! i).
Proof.
  intros Hg%built_inv Hd.
  rewrite !getAdjacencyMatrix_lookup.
  do 2 case_bool_decide; simpl; try done.
  - rewrite !list_lookup_fmap, !lookup_seq_lt by done. simpl.
    destruct (lookup_lt_is_Some_2 (vertices g) i) as [vi Hi]; [done|].
    destruct (lookup_lt_is_Some_2 (vertices g) j) as [vj Hj]; [done|].
    rewrite Hi, Hj, !areAdjacent_neighbors.
    rewrite (bool_decide_ext (vj ∈ getNeighbors vi g) (vi ∈ getNeighbors vj g));
      [done|].
    split; apply (inv_sym _ Hg Hd).
  - rewrite list_lookup_fmap, lookup_seq_ge by lia. done.
  - rewrite list_lookup_fmap, lookup_seq_ge by lia. done.
Qed.

(** X16 ([Graph.getAdjacencyMatrix]): the matrix has one row per vertex and
    every row one entry per vertex; the entry at row [i], column [j] is 1
    when [areAdjacent] holds of the [i]-th and the [j]-th vertex of the
    vertex set and 0 otherwise (a repeated edge still gives 1); and for an
    undirected graph built through the class the matrix is symmetric. *)
Theorem getAdjacencyMatrix_entries (g : Graph) :
  length (getAdjacencyMatrix g) = getVertexCount g
  ∧ (∀ row, row ∈ getAdjacencyMatrix g → length row = getVertexCount g)
  ∧ (∀ i j vi vj,
       vertices g !! i = Some vi → vertices g !! j = Some vj →
       getAdjacencyMatrix g !! i ≫= (.!! j)
       = Some (if areAdjacent (Some vi) (Some vj) g then 1 else 0))
  ∧ (built g → isDirected g = false →
     ∀ i j, getAdjacencyMatrix g !! i ≫= (.!! j)
            = getAdjacencyMatrix g !! j ≫= (.!! i)).
Proof.
  split_and!; [| | |intros Hg Hd i j; by apply getAdjacencyMatrix_sym].
  - apply Nat.le_antisymm.
    + apply Nat.nlt_ge. intros Hlt.
      destruct (lookup_lt_is_Some_2 (getAdjacencyMatrix g)
                  (getVertexCount g)) as [row Hrow]; [done|].
      rewrite getAdjacencyMatrix_lookup in Hrow.
      unfold getVertexCount in Hrow.
      rewrite bool_decide_eq_false_2 in Hrow by lia. done.
    + apply Nat.nlt_ge. intros Hlt.
      pose proof (getAdjacencyMatrix_lookup g (length (getAdjacencyMatrix g)))
        as Hrow.
      unfold getVertexCount in Hlt.
      rewrite bool_decide_eq_true_2 in Hrow by done.
      rewrite lookup_ge_None_2 in Hrow by done. done.
  - intros row (i & Hi)%list_elem_of_lookup.
    rewrite getAdjacencyMatrix_lookup in Hi.
    case_bool_decide; [|done]. injection Hi as <-.
    by rewrite length_fmap, length_seq.
  - intros i j vi vj Hi Hj.
    rewrite getAdjacencyMatrix_lookup.
    rewrite bool_decide_eq_true_2 by (by eapply lookup_lt_Some).
    simpl. rewrite list_lookup_fmap, lookup_seq_lt by (by eapply lookup_lt_Some).
    simpl. by rewrite Hi, Hj.
Qed.

(** ** Cloning *)

Section clone.
Implicit Types g h : Graph.

Lemma addVertex_known v g : v ∈ vertices g → addVertex v g = g.
Proof.
  intros Hv. unfold addVertex, has. by rewrite bool_decide_eq_true_2.
Qed.

Lemma addVertex_fresh v g :
  v ∉ vertices g → vertices (addVertex v g) = vertices g ++ [v].
Proof.
  intros Hv. unfold addVertex, has. by rewrite bool_decide_eq_false_2.
Qed.

Lemma foldl_addVertex vs g :
  consistent g → NoDup (vertices g ++ vs) →
  let h := foldl (λ g v, addVertex v g) g vs in
  consistent h ∧ vertices h = vertices g ++ vs
  ∧ edges h = edges g ∧ isDirected h = isDirected g.
Proof.
  revert g. induction vs as [|v vs IH]; intros g Hg Hnd; simpl.
  - by rewrite app_nil_r.
  - assert (v ∉ vertices g) as Hv.
    { apply NoDup_app in Hnd as (_ & Hdisj & _). intros Hin.
      apply (Hdisj _ Hin). left. }
    destruct (IH (addVertex v g)) as (? & Hvs & Hes & Hd).
    + by apply addVertex_consistent.
    + by rewrite addVertex_fresh, <-app_assoc.
    + split_and!; [done|..].
      * by rewrite Hvs, addVertex_fresh, <-app_assoc.
      * by rewrite Hes, addVertex_edges.
      * by rewrite Hd, addVertex_isDirected.
Qed.

Lemma foldl_addEdge es h :
  consistent h →
  (∀ a b, (a, b) ∈ es → a ∈ vertices h ∧ b ∈ vertices h) →
  ∃ h', foldl (λ (g : option Graph) '(v1, v2), g ≫= addEdge v1 v2) (Some h) es
        = Some h'
    ∧ consistent h' ∧ vertices h' = vertices h
    ∧ edges h' = edges h ++ es ∧ isDirected h' = isDirected h.
Proof.
  revert h. induction es as [|[a b] es IH]; intros h Hh Hes.
  - exists h. by rewrite app_nil_r.
  - destruct (Hes a b) as [Ha Hb]; [left|].
    destruct (addEdge_consistent a b h Hh) as (h1 & Hh1 & Hcons & Hd & Hvs & He).
    rewrite (addVertex_known a), (addVertex_known b) in Hvs by done.
    destruct (IH h1 Hcons) as (h' & Hh' & ? & Hvs' & He' & Hd').
    { intros ???. rewrite Hvs. apply Hes. by right. }
    exists h'. simpl. rewrite Hh1. split_and!; [done..| | |].
    + by rewrite Hvs', Hvs.
    + by rewrite He', He, <-app_assoc.
    + by rewrite Hd', Hd.
Qed.

Lemma consistent_eq g h :
  consistent g → consistent h →
  vertices g = vertices h → edges g = edges h → isDirected g = isDirected h →
  g = h.
Proof.
  intros [_ _ Hg] [_ _ Hh] Hvs Hes Hd.
  assert (adjacencyList g = adjacencyList h) as Hadj.
  { apply map_eq. intros u. by rewrite Hg, Hh, Hvs, Hes, Hd. }
  destruct g, h. simpl in *. by subst.
Qed.

Lemma clone_built g : consistent g → clone g = Some g.
Proof.
  intros Hg. unfold clone.
  destruct (foldl_addVertex (vertices g) (new (isDirected g)))
    as (Hh & Hvs & Hes & Hd).
  { apply new_consistent. }
  { apply Hg. }
  simpl in Hvs, Hes, Hd.
  destruct (foldl_addEdge (edges g) _ Hh) as (h' & -> & Hh' & Hvs' & Hes' & Hd').
  { intros a b Hab. rewrite Hvs. by apply Hg. }
  f_equal. apply consistent_eq; [done..| | |].
  - by rewrite Hvs', Hvs.
  - by rewrite Hes', Hes.
  - by rewrite Hd', Hd.
Qed.
End clone.

(** X17 ([Graph.clone]): cloning a graph built through the class does not
    throw and gives a graph with the same directedness, the same vertices in
    the same order, the same recorded edges and the same neighbour lists. *)
Theorem clone_round_trip (g : Graph) : built g → clone g = Some g.
Proof. intros Hg%built_consistent. by apply clone_built. Qed.

Lemma clone_round_trip_witness : clone multi_a = Some multi_a.
Proof.
  apply clone_round_trip.
  exists false,
    [AddEdge (VStr "a") (VStr "b");
     AddEdge (VStr "b") (VStr "c"); AddEdge (VStr "b") (VStr "c");
     AddEdge (VStr "b") (VStr "c");
     AddEdge (VStr "c") (VStr "d"); AddEdge (VStr "c") (VStr "d")].
  reflexivity.
Defined.

(** ** Completeness of the searches *)

Lemma consistent_degree_sum g :
  consistent g →
  sum_list (degrees_of g) = (if isDirected g then 1 else 2) * length (edges g).
Proof.
  intros Hg. pose proof Hg as [Hset Hedges Hadj].
  rewrite <-(degrees_sum _ _ (vertices g)) by done.
  unfold degrees_of. f_equal. apply list_fmap_ext. intros _ u _.
  unfold getDegree. by rewrite consistent_neighbors.
Qed.

Section completeness.
Context (G1 G2 : Graph).
Context (Hinv1 : class_inv G1) (Hinv2 : class_inv G2).
Context (Hcons1 : consistent G1) (Hcons2 : consistent G2).
Context (Hsimple1 : simple G1) (Hsimple2 : simple G2).
Context (Hd : isDirected G1 = isDirected G2).
Context (f : vertex → jsval) (Hiso : isomorphism G1 G2 f).

(** The isomorphism as a total function on vertices. *)
Let f' (u : vertex) : vertex := default u (f u).

Lemma iso_total u : u ∈ vertices G1 → f u = Some (f' u) ∧ f' u ∈ vertices G2.
Proof.
  intros Hu. destruct (iso_into _ _ _ Hiso u Hu) as (x & Hx & ?).
  unfold f'. by rewrite Hx.
Qed.

Lemma iso_total_inj u v :
  u ∈ vertices G1 → v ∈ vertices G1 → f' u = f' v → u = v.
Proof.
  intros Hu Hv Heq. apply (iso_inj _ _ _ Hiso); [done..|].
  destruct (iso_total u Hu) as [-> _], (iso_total v Hv) as [-> _]. by f_equal.
Qed.

Lemma iso_total_onto x :
  x ∈ vertices G2 → ∃ u, u ∈ vertices G1 ∧ f' u = x.
Proof.
  intros Hx. destruct (iso_onto _ _ _ Hiso x Hx) as (u & Hu & Hfu).
  exists u. split; [done|]. unfold f'. by rewrite Hfu.
Qed.

Lemma iso_total_adjacent u v :
  u ∈ vertices G1 → v ∈ vertices G1 →
  areAdjacent (Some u) (Some v) G1 = areAdjacent (Some (f' u)) (Some (f' v)) G2.
Proof.
  intros Hu Hv. rewrite (iso_adjacent _ _ _ Hiso u v Hu Hv).
  by destruct (iso_total u Hu) as [-> _], (iso_total v Hv) as [-> _].
Qed.

Lemma iso_image : f' <$> vertices G1 ≡ₚ vertices G2.
Proof.
  apply NoDup_Permutation.
  - apply NoDup_fmap_2_strong; [|apply Hinv1].
    intros u v Hu Hv. by apply iso_total_inj.
  - apply Hinv2.
  - intros x. rewrite list_elem_of_fmap. split.
    + intros (u & -> & Hu). by apply iso_total.
    + intros (u & Hu & <-)%iso_total_onto. by exists u.
Qed.

Lemma iso_degrees : degrees_of G1 ≡ₚ degrees_of G2.
Proof.
  unfold degrees_of. rewrite <-iso_image, <-list_fmap_compose.
  assert ((λ v, getDegree v G1) <$> vertices G1
          = (λ v, getDegree v G2) ∘ f' <$> vertices G1) as ->; [|done].
  apply list_fmap_ext. intros _ u Hu%list_elem_of_lookup_2.
  simpl. symmetry.
  apply (degree_preserved G1 G2 Hinv1 Hinv2 Hsimple1 Hsimple2 f');
    auto using iso_total_inj, iso_total_onto, iso_total_adjacent.
Qed.

Lemma iso_invariants : isomorphismPossible (invariants G1 G2) = true.
Proof.
  apply invariants_possible. split_and!.
  - unfold getVertexCount. by rewrite <-iso_image, length_fmap.
  - pose proof (consistent_degree_sum G1 Hcons1) as H1.
    pose proof (consistent_degree_sum G2 Hcons2) as H2.
    rewrite iso_degrees, H2, Hd in H1.
    unfold getEdgeCount. rewrite Hd.
    destruct (isDirected G2); lia.
  - unfold getDegreeSequence. apply sort_desc_eq, iso_degrees.
Qed.

Lemma iso_has_valid : has_valid G1 G2.
Proof.
  exists (f' <$> vertices G1). split; [apply iso_image|].
  apply valid_pairs_preserve; [apply Hinv1|by rewrite length_fmap|].
  rewrite zip_fmap_graph.
  intros u x v y (u' & [= <- ->] & Hu)%list_elem_of_fmap
    (v' & [= <- ->] & Hv)%list_elem_of_fmap.
  by apply iso_total_adjacent.
Qed.
End completeness.

(** X18 ([checkInvariants], "necessary conditions for isomorphism"): two
    graphs built through the class, both directed or both undirected,
    without repeated neighbour entries, that are isomorphic pass all three
    checks. (Both restrictions matter: [getDegree] counts repeated entries,
    and [getEdgeCount] counts a pair of opposite directed edges twice.) *)
Theorem isomorphism_passes_invariants
    (σ : store) (g1 g2 : loc) (f : vertex → jsval) :
  built (σ g1) → built (σ g2) → simple (σ g1) → simple (σ g2) →
  isDirected (σ g1) = isDirected (σ g2) →
  isomorphism (σ g1) (σ g2) f →
  ∃ ic, checkInvariants g1 g2 σ = Outcome σ [] (inr ic)
    ∧ isomorphismPossible ic = true.
Proof.
  intros Hb1 Hb2 Hs1 Hs2 Hd Hiso.
  exists (invariants (σ g1) (σ g2)). split; [apply checkInvariants_runs|].
  eapply iso_invariants; eauto using built_inv, built_consistent.
Qed.

(** X19 ([detectIsomorphism], [detectIsomorphismOptimized]): the searches
    miss no isomorphism. For two isomorphic graphs as in X18, each search
    returns [isIsomorphic = true] unless the vertex count is above its
    ceiling. *)
Theorem isomorphic_graphs_are_detected
    (σ : store) (g1 g2 : loc) (options : Options) (f : vertex → jsval) :
  built (σ g1) → built (σ g2) → simple (σ g1) → simple (σ g2) →
  isDirected (σ g1) = isDirected (σ g2) →
  isomorphism (σ g1) (σ g2) f →
  ((default 10 (maxVertices options) < Z.of_nat (getVertexCount (σ g1)))%Z
   ∨ verdict (detectIsomorphism g1 g2 options σ) = Some (Some true))
  ∧ ((default 12 (maxVertices options) < Z.of_nat (getVertexCount (σ g1)))%Z
     ∨ verdict (detectIsomorphismOptimized g1 g2 options σ) = Some (Some true)).
Proof.
  intros Hb1 Hb2 Hs1 Hs2 Hd Hiso.
  pose proof (built_inv _ Hb1) as Hinv1. pose proof (built_inv _ Hb2) as Hinv2.
  pose proof (built_consistent _ Hb1) as Hc1.
  pose proof (built_consistent _ Hb2) as Hc2.
  pose proof (iso_invariants _ _ Hinv1 Hinv2 Hc1 Hc2 Hs1 Hs2 Hd f Hiso) as Hic.
  pose proof (iso_has_valid _ _ Hinv1 Hinv2 f Hiso) as Hvalid.
  split.
  - destruct (decide (default 10 (maxVertices options)
                      < Z.of_nat (getVertexCount (σ g1)))%Z) as [|Hsmall];
      [by left|right].
    by destruct (search_verdict σ g1 g2 options Hic Hsmall) as [[_ ?]|[? _]].
  - destruct (decide (default 12 (maxVertices options)
                      < Z.of_nat (getVertexCount (σ g1)))%Z) as [|Hsmall];
      [by left|right].
    destruct (optimized_search_verdict σ g1 g2 options (inv_set _ Hinv1)
                Hic Hsmall) as [[_ ?]|[Hno _]]; [done|].
    destruct Hno. by apply has_valid_has_valid_item.
Qed.

(** A check of [simple] that evaluates on a concrete graph. *)
Lemma simple_check (G : Graph) :
  map_Forall (λ _ l, NoDup l) (adjacencyList G) → simple G.
Proof.
  intros H u. unfold getNeighbors.
  destruct (adjacencyList G !! u) as [l|] eqn:Hl; simpl.
  - by eapply H.
  - apply NoDup_nil_2.
Qed.





(** X22 ([detectIsomorphism], [detectIsomorphismOptimized]): the result
    carries [permutationsChecked] exactly when it was reached by the search
    loop (not on an invariant mismatch, not above the size ceiling), and the
    value is then the number of candidates the loop drew, the successful one
    included. *)
Theorem permutationsChecked_counts_candidates
    (σ : store) (g1 g2 : loc) (options : Options) :
  (∀ r, value (detectIsomorphism g1 g2 options σ) = inr r →
     permutationsChecked r
     = if isIsomorphic r is Some _ then
         if decide (reason r = Some "Invariants do not match") then None
         else Some (count_candidates (trace (detectIsomorphism g1 g2 options σ)))
       else None)
  ∧ (∀ r, value (detectIsomorphismOptimized g1 g2 options σ) = inr r →
     permutationsChecked r
     = if isIsomorphic r is Some _ then
         if decide (reason r = Some "Invariants do not match") then None
         else Some (count_candidates
                      (trace (detectIsomorphismOptimized g1 g2 options σ)))
       else None).
Proof.
  destruct (candidates_counted σ g1 g2 options) as [Hb Ho].
  destruct (isomorphismPossible (invariants (σ g1) (σ g2))) eqn:Hic.
  - split; intros r Hr.
    + specialize (Hb r Hr).
      destruct (decide (default 10 (maxVertices options)
                        < Z.of_nat (getVertexCount (σ g1)))%Z) as [Hbig|Hsmall].
      * destruct (detectIsomorphism_too_large σ g1 g2 options Hic Hbig)
          as (r' & Hr' & Hiso & _ & _ & Hpc).
        rewrite (value_runs _ _ _ _ Hr') in Hr. injection Hr as <-.
        by rewrite Hiso, Hpc.
      * destruct (detectIsomorphism_search σ g1 g2 options Hic Hsmall)
          as (r' & Hr' & Heq).
        rewrite (value_runs _ _ _ _ Hr') in Hr. injection Hr as <-.
        rewrite Hb. subst r'.
        by destruct (first_valid _ _ _) as [[??]|].
    + specialize (Ho r Hr).
      destruct (decide (default 12 (maxVertices options)
                        < Z.of_nat (getVertexCount (σ g1)))%Z) as [Hbig|Hsmall].
      * destruct (detectIsomorphismOptimized_too_large σ g1 g2 options Hic Hbig)
          as (r' & Hr' & Hiso & _ & _ & Hpc).
        rewrite (value_runs _ _ _ _ Hr') in Hr. injection Hr as <-.
        by rewrite Hiso, Hpc.
      * pose proof (detectIsomorphismOptimized_search σ g1 g2 options Hic Hsmall)
          as Hs.
        rewrite (value_runs _ _ _ _ Hs) in Hr. rewrite Ho. clear Ho.
        destruct (loop _ _ _ _).2 as [e|[c|r']] eqn:Hloop; simpl in Hr;
          [done|by injection Hr as <-|].
        injection Hr as <-.
        apply loop_Return in Hloop as ([m|e] & c & _ & Hstep); [|done].
        unfold optimized_step in Hstep.
        destruct (valid _ _ _); [|done]. by injection Hstep as <-.
  - destruct (detectIsomorphism_mismatch σ g1 g2 options Hic)
      as (r1 & Hr1 & Hiso1 & Hreason1 & _ & Hpc1).
    destruct (detectIsomorphismOptimized_mismatch σ g1 g2 options Hic)
      as (r2 & Hr2 & Hiso2 & Hreason2 & _ & _ & Hpc2).
    split; intros r Hr.
    + rewrite (value_runs _ _ _ _ Hr1) in Hr. injection Hr as <-.
      by rewrite Hiso1, Hpc1, Hreason1.
    + rewrite (value_runs _ _ _ _ Hr2) in Hr. injection Hr as <-.
      by rewrite Hiso2, Hpc2, Hreason2.
Qed.

(** X23 ([detectIsomorphism] against [detectIsomorphismOptimized]): on
    graphs built through the class without repeated neighbour entries, and
    within both ceilings, the two searches return the same verdict. *)
Theorem strategies_agree_on_simple_graphs
    (σ : store) (g1 g2 : loc) (options : Options) :
  built (σ g1) → built (σ g2) → simple (σ g1) → simple (σ g2) →
  ¬ (default 10 (maxVertices options) < Z.of_nat (getVertexCount (σ g1)))%Z →
  ¬ (default 12 (maxVertices options) < Z.of_nat (getVertexCount (σ g1)))%Z →
  verdict (detectIsomorphism g1 g2 options σ)
  = verdict (detectIsomorphismOptimized g1 g2 options σ).
Proof.
  intros Hinv1%built_inv Hinv2%built_inv Hs1 Hs2 Hn10 Hn12.
  destruct (isomorphismPossible (invariants (σ g1) (σ g2))) eqn:Hic.
  - destruct (search_verdict σ g1 g2 options Hic Hn10) as [[Hb ->]|[Hb ->]],
      (optimized_search_verdict σ g1 g2 options (inv_set _ Hinv1) Hic Hn12)
        as [[Ho ->]|[Ho ->]];
      try done.
    + destruct Ho. by apply has_valid_has_valid_item.
    + destruct Hb. by apply (has_valid_item_has_valid _ _ Hinv1 Hic).
  - destruct (detectIsomorphism_mismatch σ g1 g2 options Hic)
      as (r & Hr & Hiso & _).
    destruct (detectIsomorphismOptimized_mismatch σ g1 g2 options Hic)
      as (r' & Hr' & Hiso' & _).
    by rewrite (verdict_runs _ _ _ _ Hr), (verdict_runs _ _ _ _ Hr'), Hiso, Hiso'.
Qed.

Lemma strategies_agree_on_simple_graphs_witness :
  verdict (detectIsomorphism 0 1 no_options triangles)
  = verdict (detectIsomorphismOptimized 0 1 no_options triangles).
Proof.
  apply (strategies_agree_on_simple_graphs triangles 0 1 no_options).
  - exists false,
      [AddEdge (VStr "A") (VStr "B"); AddEdge (VStr "B") (VStr "C");
       AddEdge (VStr "C") (VStr "A")].
    reflexivity.
  - exists false,
      [AddEdge (VNum 1) (VNum 2); AddEdge (VNum 2) (VNum 3);
       AddEdge (VNum 3) (VNum 1)].
    reflexivity.
  - apply simple_check, (bool_decide_unpack _). vm_compute. exact I.
  - apply simple_check, (bool_decide_unpack _). vm_compute. exact I.
  - vm_compute. by intros [=].
  - vm_compute. by intros [=].
Defined.

(** ** Instances *)

Lemma optimized_progress_witness :
  ∃ r, value (detectIsomorphismOptimized 0 1 with_callback hexagon_pair) = inr r
    ∧ reports (trace (detectIsomorphismOptimized 0 1 with_callback hexagon_pair))
      = if onProgress with_callback
        then (λ i, {| checked := i; total := None |})
               <$> filter (λ i, i `mod` 100 = 0)
                     (seq 1 (default 0 (permutationsChecked r)))
        else [].
Proof.
  eexists. split; [vm_compute; reflexivity|].
  apply (optimized_progress hexagon_pair 0 1 with_callback).
  vm_compute. reflexivity.
Defined.

Example optimized_progress_example :
  reports (trace (detectIsomorphismOptimized 0 1 with_callback hexagon_pair))
  = (λ i, {| checked := i; total := None |})
      <$> [100; 200; 300; 400; 500; 600; 700].
Proof. vm_compute. reflexivity. Qed.

Lemma triangles_isomorphism :
  isomorphism triangle_abc triangle_123 (λ u, mapping_get u identity_pairing).
Proof.
  apply pairing_isomorphism.
  - apply (bool_decide_unpack _). vm_compute. exact I.
  - apply (bool_decide_unpack _). vm_compute. exact I.
  - reflexivity.
  - apply assign_pairing; [|done].
    apply (bool_decide_unpack _). vm_compute. exact I.
  - vm_compute. reflexivity.
Qed.

Lemma candidates_are_bijections_witness :
  (Candidate identity_pairing ∈ trace (detectIsomorphism 0 1 no_options triangles) →
   JsMap.keys identity_pairing ≡ₚ vertices (triangles 0)
   ∧ identity_pairing.*2 ≡ₚ Some <$> vertices (triangles 1))
  ∧ (Candidate identity_pairing
       ∈ trace (detectIsomorphismOptimized 0 1 no_options triangles) →
     JsMap.keys identity_pairing ≡ₚ vertices (triangles 0)
     ∧ identity_pairing.*2 ≡ₚ Some <$> vertices (triangles 1)
     ∧ ∀ u x, (u, Some x) ∈ identity_pairing →
         getDegree x (triangles 1) = getDegree u (triangles 0)).
Proof.
  apply (candidates_are_bijections triangles 0 1 no_options identity_pairing).
  apply (bool_decide_unpack _). vm_compute. exact I.
Defined.

Lemma areAdjacent_iff_edge_witness :
  areAdjacent (Some (VStr "B")) (Some (VStr "A")) path_abc = true
  ↔ (VStr "B", VStr "A") ∈ edges path_abc
    ∨ (isDirected path_abc = false ∧ (VStr "A", VStr "B") ∈ edges path_abc).
Proof.
  apply (areAdjacent_iff_edge path_abc (VStr "B") (VStr "A")).
  exists false,
    [AddEdge (VStr "A") (VStr "B"); AddEdge (VStr "B") (VStr "C")].
  reflexivity.
Defined.

Lemma degree_sum_formula_witness :
  sum_list (getDegreeSequence multi_a)
  = (if isDirected multi_a then 1 else 2) * getEdgeCount multi_a
  ∧ length (getDegreeSequence multi_a) = getVertexCount multi_a.
Proof.
  apply (degree_sum_formula multi_a).
  exists false,
    [AddEdge (VStr "a") (VStr "b");
     AddEdge (VStr "b") (VStr "c"); AddEdge (VStr "b") (VStr "c");
     AddEdge (VStr "b") (VStr "c");
     AddEdge (VStr "c") (VStr "d"); AddEdge (VStr "c") (VStr "d")].
  reflexivity.
Defined.

Lemma unknown_vertex_witness :
  getNeighbors (VStr "Z") path_abc = []
  ∧ getDegree (VStr "Z") path_abc = 0
  ∧ ∀ w : jsval, areAdjacent (Some (VStr "Z")) w path_abc = false
                 ∧ areAdjacent w (Some (VStr "Z")) path_abc = false
                 ∧ areAdjacent undefined w path_abc = false.
Proof.
  apply (unknown_vertex path_abc (VStr "Z")).
  - exists false,
      [AddEdge (VStr "A") (VStr "B"); AddEdge (VStr "B") (VStr "C")].
    reflexivity.
  - apply (bool_decide_unpack _). vm_compute. exact I.
Defined.

Lemma isomorphism_passes_invariants_witness :
  ∃ ic, checkInvariants 0 1 triangles = Outcome triangles [] (inr ic)
    ∧ isomorphismPossible ic = true.
Proof.
  apply (isomorphism_passes_invariants triangles 0 1
           (λ u, mapping_get u identity_pairing)).
  - exists false,
      [AddEdge (VStr "A") (VStr "B"); AddEdge (VStr "B") (VStr "C");
       AddEdge (VStr "C") (VStr "A")].
    reflexivity.
  - exists false,
      [AddEdge (VNum 1) (VNum 2); AddEdge (VNum 2) (VNum 3);
       AddEdge (VNum 3) (VNum 1)].
    reflexivity.
  - apply simple_check, (bool_decide_unpack _). vm_compute. exact I.
  - apply simple_check, (bool_decide_unpack _). vm_compute. exact I.
  - reflexivity.
  - apply triangles_isomorphism.
Defined.

Lemma isomorphic_graphs_are_detected_witness :
  ((default 10 (maxVertices no_options)
    < Z.of_nat (getVertexCount (triangles 0%nat)))%Z
   ∨ verdict (detectIsomorphism 0 1 no_options triangles) = Some (Some true))
  ∧ ((default 12 (maxVertices no_options)
      < Z.of_nat (getVertexCount (triangles 0%nat)))%Z
     ∨ verdict (detectIsomorphismOptimized 0 1 no_options triangles)
       = Some (Some true)).
Proof.
  apply (isomorphic_graphs_are_detected triangles 0 1 no_options
           (λ u, mapping_get u identity_pairing)).
  - exists false,
      [AddEdge (VStr "A") (VStr "B"); AddEdge (VStr "B") (VStr "C");
       AddEdge (VStr "C") (VStr "A")].
    reflexivity.
  - exists false,
      [AddEdge (VNum 1) (VNum 2); AddEdge (VNum 2) (VNum 3);
       AddEdge (VNum 3) (VNum 1)].
    reflexivity.
  - apply simple_check, (bool_decide_unpack _). vm_compute. exact I.
  - apply simple_check, (bool_decide_unpack _). vm_compute. exact I.
  - reflexivity.
  - apply triangles_isomorphism.
Defined.

(** ** Trees *)

Section rose.

Lemma rose_ind' (P : rose → Prop) :
  (∀ l kids, Forall P kids → P (Rose l kids)) → ∀ t, P t.
Proof.
  intros H. fix IH 1. intros [l kids]. apply H.
  induction kids as [|k kids IHkids]; constructor; [apply IH|apply IHkids].
Qed.

Lemma height_kid l kids k :
  k ∈ kids → height k < height (Rose l kids).
Proof.
  intros Hk. destruct kids as [|k' kids]; [by apply elem_of_nil in Hk|].
  cbn [height].
  assert (height k ≤ max_list (height <$> (k' :: kids))); [|lia].
  apply max_list_elem_of_le, list_elem_of_fmap. by exists k.
Qed.

Lemma post_pre t : post t ≡ₚ pre t.
Proof.
  induction t as [l kids IH] using rose_ind'. cbn [pre post].
  rewrite <-Permutation_cons_append. constructor.
  induction IH as [|k kids Hk _ IHkids]; csimpl; [done|].
  by rewrite Hk, IHkids.
Qed.

Lemma pre_root t : head (pre t) = Some (rose_root t).
Proof. by destruct t. Qed.

Lemma post_root t : last (post t) = Some (rose_root t).
Proof. destruct t. cbn [post rose_root]. by rewrite last_snoc. Qed.
End rose.

Section tree_node_facts.
Import TreeNodeM TreeM.
Context {V : Type} `{EqDecision V}.
Implicit Types h : heap V.
Implicit Types t : rose.

Lemma visits_app {S} h (cb : ref → TreeNode V → S → S) s ls1 ls2 :
  visits h cb s (ls1 ++ ls2) = visits h cb (visits h cb s ls1) ls2.
Proof. apply foldl_app. Qed.

Lemma visits_cons {S} h (cb : ref → TreeNode V → S → S) s l ls n :
  h !! l = Some n → visits h cb s (l :: ls) = visits h cb (cb l n s) ls.
Proof. intros Hl. unfold visits. cbn [foldl]. by rewrite Hl. Qed.

Lemma shape_root h t : shape h t → is_Some (h !! rose_root t).
Proof. intros [l n kids Hl _ _]. by exists n. Qed.

Lemma shape_isLeaf (n : TreeNode V) kids :
  children n = rose_root <$> kids → isLeaf n = bool_decide (kids = []).
Proof.
  intros Hkids. unfold isLeaf. rewrite Hkids, length_fmap.
  apply bool_decide_ext. by destruct kids.
Qed.

Section traversals.
Context {S : Type} (h : heap V) (cb : ref → TreeNode V → S → S).

Lemma preOrder_kids fuel kids :
  Forall (λ k, ∀ s, preOrder fuel h (Some (rose_root k)) cb s
                    = Some (visits h cb s (pre k))) kids →
  ∀ s, foldl (λ s child, s ≫= preOrder fuel h (Some child) cb)
             (Some s) (rose_root <$> kids)
       = Some (visits h cb s (kids ≫= pre)).
Proof.
  induction 1 as [|k kids Hk _ IH]; intros s; csimpl; [done|].
  by rewrite Hk, IH, visits_app.
Qed.

Lemma preOrder_shape t :
  shape h t → ∀ fuel s, height t < fuel →
  preOrder fuel h (Some (rose_root t)) cb s = Some (visits h cb s (pre t)).
Proof.
  induction t as [l kids IH] using rose_ind'.
  intros Hshape fuel s Hfuel. inversion_clear Hshape as [? n ? Hl Hkids Hsub].
  destruct fuel as [|fuel]; [lia|]. cbn [preOrder rose_root pre].
  rewrite Hl. cbn [mbind option_bind]. rewrite Hkids.
  rewrite preOrder_kids.
  - by rewrite (visits_cons _ _ _ _ _ _ Hl).
  - apply Forall_forall. intros k Hk s'.
    rewrite Forall_forall in IH, Hsub.
    apply IH; [done|by apply Hsub|].
    pose proof (height_kid l kids k Hk). lia.
Qed.

Lemma postOrder_kids fuel kids :
  Forall (λ k, ∀ s, postOrder fuel h (Some (rose_root k)) cb s
                    = Some (visits h cb s (post k))) kids →
  ∀ s, foldl (λ s child, s ≫= postOrder fuel h (Some child) cb)
             (Some s) (rose_root <$> kids)
       = Some (visits h cb s (kids ≫= post)).
Proof.
  induction 1 as [|k kids Hk _ IH]; intros s; csimpl; [done|].
  by rewrite Hk, IH, visits_app.
Qed.

Lemma postOrder_shape t :
  shape h t → ∀ fuel s, height t < fuel →
  postOrder fuel h (Some (rose_root t)) cb s = Some (visits h cb s (post t)).
Proof.
  induction t as [l kids IH] using rose_ind'.
  intros Hshape fuel s Hfuel. inversion_clear Hshape as [? n ? Hl Hkids Hsub].
  destruct fuel as [|fuel]; [lia|]. cbn [postOrder rose_root post].
  rewrite Hl. cbn [mbind option_bind]. rewrite Hkids.
  rewrite postOrder_kids.
  - cbn [mbind option_bind].
    by rewrite visits_app, (visits_cons _ _ _ _ _ _ Hl).
  - apply Forall_forall. intros k Hk s'.
    rewrite Forall_forall in IH, Hsub.
    apply IH; [done|by apply Hsub|].
    pose proof (height_kid l kids k Hk). lia.
Qed.
End traversals.

Lemma getHeight_kids h fuel kids :
  Forall (λ k, TreeNodeM.getHeight fuel h (rose_root k) = Some (height k)) kids →
  mapM (TreeNodeM.getHeight fuel h) (rose_root <$> kids) = Some (height <$> kids).
Proof.
  intros Hkids. apply mapM_Some, Forall2_fmap.
  induction Hkids; by constructor.
Qed.

Lemma getHeight_shape h t :
  shape h t → ∀ fuel, height t < fuel →
  TreeNodeM.getHeight fuel h (rose_root t) = Some (height t).
Proof.
  induction t as [l kids IH] using rose_ind'.
  intros Hshape fuel Hfuel. inversion_clear Hshape as [? n ? Hl Hkids Hsub].
  destruct fuel as [|fuel]; [lia|]. cbn [TreeNodeM.getHeight rose_root].
  rewrite Hl. cbn [mbind option_bind].
  rewrite (shape_isLeaf n kids Hkids).
  destruct kids as [|k kids]; [done|].
  rewrite bool_decide_eq_false_2 by done.
  rewrite Hkids, getHeight_kids; [done|].
  apply Forall_forall. intros k' Hk'.
  rewrite Forall_forall in IH, Hsub.
  apply IH; [done|by apply Hsub|].
  pose proof (height_kid l (k :: kids) k' Hk'). lia.
Qed.
End tree_node_facts.

Section levels.

Lemma pre_unfold t : pre t = rose_root t :: (rose_kids t ≫= pre).
Proof. by destruct t. Qed.

Lemma bind_pre_kids q :
  q ≫= pre ≡ₚ (rose_root <$> q) ++ ((q ≫= rose_kids) ≫= pre).
Proof.
  induction q as [|t q IH]; csimpl; [done|].
  rewrite pre_unfold, IH, bind_app. simpl.
  constructor. rewrite !app_assoc. apply Permutation_app_tail, Permutation_app_comm.
Qed.

Lemma height_kids_lt q d t :
  (∀ t, t ∈ q → height t < S d) → t ∈ q ≫= rose_kids → height t < d.
Proof.
  intros Hq (t' & Ht & Ht')%list_elem_of_bind.
  specialize (Hq t' Ht'). destruct t' as [l kids]. simpl in Ht.
  pose proof (height_kid l kids t Ht). lia.
Qed.

Lemma levels_pre d q :
  (∀ t, t ∈ q → height t < d) → levels d q ≡ₚ q ≫= pre.
Proof.
  revert q. induction d as [|d IH]; intros q Hq.
  - destruct q as [|t q]; [done|].
    assert (height t < 0); [apply Hq; left|lia].
  - cbn [levels]. rewrite bind_pre_kids, IH; [done|].
    intros t. by apply height_kids_lt.
Qed.
End levels.

Section level_order.
Import TreeNodeM TreeM.
Context {V : Type} `{EqDecision V}.
Context {S : Type} (h : heap V) (cb : ref → TreeNode V → S → S).

Lemma shape_kids q :
  Forall (shape h) q → Forall (shape h) (q ≫= rose_kids).
Proof.
  induction 1 as [|t q Ht _ IH]; csimpl; [done|].
  apply Forall_app. split; [|done]. by destruct Ht.
Qed.

Lemma levelOrder_loop_level rest :
  Forall (shape h) rest →
  ∀ (acc : list ref) fuel s,
  levelOrder_loop (length rest + fuel) h ((rose_root <$> rest) ++ acc) cb s
  = levelOrder_loop fuel h (acc ++ (rose_root <$> (rest ≫= rose_kids))) cb
      (visits h cb s (rose_root <$> rest)).
Proof.
  induction 1 as [|t rest Ht _ IH]; intros acc fuel s; csimpl.
  - by rewrite app_nil_r.
  - destruct Ht as [l n kids Hl Hkids _]. cbn [rose_root rose_kids].
    rewrite Hl. cbn [mbind option_bind].
    by rewrite Hkids, <-app_assoc, IH, fmap_app, app_assoc.
Qed.

Lemma levelOrder_loop_levels d :
  ∀ q fuel s,
  Forall (shape h) q → (∀ t, t ∈ q → height t < d) →
  length (levels d q) < fuel →
  levelOrder_loop fuel h (rose_root <$> q) cb s
  = Some (visits h cb s (levels d q)).
Proof.
  induction d as [|d IH]; intros q fuel s Hq Hd Hfuel.
  - destruct q as [|t q].
    + by destruct fuel; [simpl in Hfuel; lia|].
    + assert (height t < 0); [apply Hd; left|lia].
  - cbn [levels] in *. rewrite length_app, length_fmap in Hfuel.
    replace fuel with (length q + (fuel - length q)) by lia.
    rewrite <-(app_nil_r (rose_root <$> q)) at 1.
    rewrite levelOrder_loop_level by done. cbn [app].
    rewrite IH, visits_app; [done|by apply shape_kids| |lia].
    intros t. by apply height_kids_lt.
Qed.
End level_order.

Section callbacks.
Import TreeNodeM TreeM.
Context {V : Type} `{EqDecision V}.
Implicit Types h : heap V.

Lemma shape_pre h t : shape h t → ∀ l : ref, l ∈ pre t → is_Some (h !! l).
Proof.
  induction t as [l' kids IH] using rose_ind'.
  intros Hshape l. inversion_clear Hshape as [? n ? Hl Hkids Hsub].
  cbn [pre]. intros [->|Hin]%elem_of_cons.
  - rewrite Hl. by eexists.
  - apply list_elem_of_bind in Hin as (k & Hk & Hin).
    rewrite Forall_forall in IH, Hsub.
    apply (IH k); [done|by apply Hsub|done].
Qed.

Lemma visits_step {S} h (cb : ref → TreeNode V → S → S) s (l : ref) ls :
  visits h cb s (l :: ls)
  = visits h cb (match h !! l with Some n => cb l n s | None => s end) ls.
Proof. done. Qed.

Lemma visits_count h ls (c : nat) :
  (∀ l, l ∈ ls → is_Some (h !! l)) →
  visits h (λ _ _ count, Datatypes.S count) c ls = c + length ls.
Proof.
  revert c. induction ls as [|l ls IH]; intros c Hls.
  - unfold visits. simpl. lia.
  - destruct (Hls l) as [n Hn]; [left|].
    rewrite (visits_cons _ _ _ _ _ _ Hn), IH by (intros ??; apply Hls; by right).
    simpl. lia.
Qed.

Lemma visits_leaves h ls (acc : list ref) :
  visits h (λ l node leaves, if isLeaf node then leaves ++ [l] else leaves) acc ls
  = acc ++ filter (λ l, isLeaf <$> h !! l = Some true) ls.
Proof.
  revert acc. induction ls as [|l ls IH]; intros acc.
  - by rewrite app_nil_r.
  - rewrite visits_step, IH, filter_cons.
    destruct (h !! l) as [n|]; simpl; [destruct (isLeaf n)|]; simpl;
      repeat case_decide; simplify_eq; try done.
    by rewrite <-app_assoc.
Qed.

Lemma visits_find h (v : V) ls (r : option ref) :
  visits h (λ l node result, if decide (value node = v) then Some l else result)
         r ls
  = match last (filter (λ l, value <$> h !! l = Some v) ls) with
    | Some l => Some l
    | None => r
    end.
Proof.
  revert r. induction ls as [|l ls IH]; intros r; [done|].
  rewrite visits_step, IH, filter_cons.
  destruct (h !! l) as [n|]; simpl; repeat case_decide; simplify_eq; try done.
  rewrite last_cons. by destruct (last _).
Qed.
End callbacks.

Section add_remove.
Import TreeNodeM.
Context {V : Type}.
Implicit Types h : heap V.
Implicit Types n : TreeNode V.

Lemma indexOf_snoc (c : ref) (l : list ref) :
  c ∉ l → indexOf c (l ++ [c]) = Some (length l).
Proof.
  unfold indexOf. induction l as [|x l IH]; intros Hc; simpl.
  - by rewrite decide_True.
  - apply not_elem_of_cons in Hc as [Hne Hc].
    rewrite decide_False by done. specialize (IH Hc).
    destruct (list_find _ (l ++ [c])) as [[i y]|]; simpl in *; by simplify_eq.
Qed.

Lemma indexOf_None (c : ref) (l : list ref) : c ∉ l → indexOf c l = None.
Proof.
  unfold indexOf. intros Hc.
  destruct (list_find _ l) as [[i y]|] eqn:Hfind; [|done].
  apply list_find_Some in Hfind as (Hi & -> & _).
  destruct Hc. by eapply list_elem_of_lookup_2.
Qed.

Lemma delete_snoc (l : list ref) (c : ref) : delete (length l) (l ++ [c]) = l.
Proof. induction l as [|x l IH]; simpl; [done|]. by f_equal. Qed.

Lemma TreeNode_eta n :
  {| value := value n; children := children n; parent := parent n |} = n.
Proof. by destruct n. Qed.

Lemma addChild_spec h (p c : ref) np nc :
  h !! p = Some np → h !! c = Some nc →
  ∃ h', addChild p c h = Some h'
    ∧ length h' = length h
    ∧ h' !! p = Some {| value := value np; children := children np ++ [c];
                        parent := if decide (p = c) then Some p else parent np |}
    ∧ (p ≠ c →
       h' !! c = Some {| value := value nc; children := children nc;
                         parent := Some p |})
    ∧ (∀ q : ref, q ≠ p → q ≠ c → h' !! q = h !! q).
Proof.
  intros Hp Hc. unfold addChild. rewrite Hc. cbn [mbind option_bind].
  pose proof (lookup_lt_Some _ _ _ Hp) as Hpl.
  pose proof (lookup_lt_Some _ _ _ Hc) as Hcl.
  destruct (decide (p = c)) as [->|Hne].
  - rewrite list_lookup_insert_eq by done. cbn [mbind option_bind].
    eexists. split; [done|]. rewrite !length_insert.
    rewrite Hp in Hc. injection Hc as ->.
    split_and!; [done| |done|].
    + by rewrite list_lookup_insert_eq by (by rewrite length_insert).
    + intros q Hq _. by rewrite !list_lookup_insert_ne by done.
  - rewrite list_lookup_insert_ne, Hp by done. cbn [mbind option_bind].
    eexists. split; [done|]. rewrite !length_insert.
    split_and!; [done| | |].
    + by rewrite list_lookup_insert_eq by (by rewrite length_insert).
    + intros _. rewrite list_lookup_insert_ne by done.
      by rewrite list_lookup_insert_eq.
    + intros q Hq Hq'. by rewrite !list_lookup_insert_ne by done.
Qed.

Lemma addChild_removeChild h (p c : ref) np nc :
  h !! p = Some np → h !! c = Some nc →
  c ∉ children np → parent nc = None →
  ∃ h', addChild p c h = Some h' ∧ removeChild p c h' = Some h.
Proof.
  intros Hp Hc Hnew Hroot.
  destruct (addChild_spec h p c np nc Hp Hc) as (h' & Hadd & Hlen & Hp' & Hc' & _).
  exists h'. split; [done|].
  pose proof (lookup_lt_Some _ _ _ Hp) as Hpl.
  pose proof (lookup_lt_Some _ _ _ Hc) as Hcl.
  unfold removeChild. rewrite Hp'. cbn [mbind option_bind children value parent].
  rewrite indexOf_snoc, delete_snoc by done.
  revert Hadd Hp' Hc'. unfold addChild. rewrite Hc. cbn [mbind option_bind].
  destruct (decide (p = c)) as [->|Hne].
  - rewrite list_lookup_insert_eq by done. cbn [mbind option_bind].
    intros [= <-] _ _.
    rewrite Hp in Hc. injection Hc as ->.
    rewrite !list_insert_insert_eq.
    rewrite list_lookup_insert_eq by done. cbn [mbind option_bind].
    rewrite list_insert_insert_eq.
    apply f_equal, list_insert_id. rewrite Hp. f_equal.
    destruct nc; simpl in *; by subst.
  - rewrite list_lookup_insert_ne, Hp by done. cbn [mbind option_bind].
    intros [= <-] _ _. clear Hlen.
    rewrite list_insert_insert_eq, (TreeNode_eta np).
    rewrite list_lookup_insert_ne by done.
    rewrite list_lookup_insert_eq by done. cbn [mbind option_bind].
    rewrite list_insert_insert_ne by done.
    rewrite list_insert_insert_eq.
    cbn [value children parent].
    rewrite <-Hroot, (TreeNode_eta nc).
    by rewrite (list_insert_id h c nc), (list_insert_id h p np).
Qed.

Lemma removeChild_absent h (p c : ref) np :
  h !! p = Some np → c ∉ children np → removeChild p c h = Some h.
Proof.
  intros Hp Hc. unfold removeChild. rewrite Hp. cbn [mbind option_bind].
  by rewrite indexOf_None.
Qed.
End add_remove.

Section binary.
Import BinaryTreeNodeM BinaryTreeM.
Context {V : Type}.
Implicit Types h : heap V.

Lemma bin_visits_app {S} h (cb : ref → BinaryTreeNode V → S → S) s ls1 ls2 :
  bin_visits h cb s (ls1 ++ ls2) = bin_visits h cb (bin_visits h cb s ls1) ls2.
Proof. apply foldl_app. Qed.

Lemma bin_visits_cons {S} h (cb : ref → BinaryTreeNode V → S → S) s l ls n :
  h !! l = Some n → bin_visits h cb s (l :: ls) = bin_visits h cb (cb l n s) ls.
Proof. intros Hl. unfold bin_visits. cbn [foldl]. by rewrite Hl. Qed.

Lemma bin_in_pre t : bin_in t ≡ₚ bin_pre t.
Proof.
  induction t as [|l lt IHl rt IHr]; simpl; [done|].
  by rewrite <-Permutation_middle, IHl, IHr.
Qed.

Lemma bin_post_pre t : bin_post t ≡ₚ bin_pre t.
Proof.
  induction t as [|l lt IHl rt IHr]; simpl; [done|].
  rewrite app_assoc, <-Permutation_cons_append. by rewrite IHl, IHr.
Qed.

Section traversals.
Context {S : Type} (h : heap V) (cb : ref → BinaryTreeNode V → S → S).

Lemma inOrder_shape t :
  bin_shape h t → ∀ fuel s, bin_depth t < fuel →
  inOrder fuel h (bin_root t) cb s = Some (bin_visits h cb s (bin_in t)).
Proof.
  induction 1 as [|l n lt rt Hl Hlt Hrt _ IHl _ IHr]; intros fuel s Hfuel;
    (destruct fuel as [|fuel]; [lia|]); cbn [inOrder bin_root bin_in]; [done|].
  cbn [bin_depth] in Hfuel.
  rewrite Hl. cbn [mbind option_bind]. rewrite Hlt, Hrt, IHl by lia.
  cbn [mbind option_bind]. rewrite IHr by lia.
  by rewrite bin_visits_app, (bin_visits_cons _ _ _ _ _ _ Hl).
Qed.

Lemma bin_preOrder_shape t :
  bin_shape h t → ∀ fuel s, bin_depth t < fuel →
  preOrder fuel h (bin_root t) cb s = Some (bin_visits h cb s (bin_pre t)).
Proof.
  induction 1 as [|l n lt rt Hl Hlt Hrt _ IHl _ IHr]; intros fuel s Hfuel;
    (destruct fuel as [|fuel]; [lia|]); cbn [preOrder bin_root bin_pre]; [done|].
  cbn [bin_depth] in Hfuel.
  rewrite Hl. cbn [mbind option_bind]. rewrite Hlt, Hrt, IHl by lia.
  cbn [mbind option_bind]. rewrite IHr by lia.
  by rewrite (bin_visits_cons _ _ _ _ _ _ Hl), bin_visits_app.
Qed.

Lemma bin_postOrder_shape t :
  bin_shape h t → ∀ fuel s, bin_depth t < fuel →
  postOrder fuel h (bin_root t) cb s = Some (bin_visits h cb s (bin_post t)).
Proof.
  induction 1 as [|l n lt rt Hl Hlt Hrt _ IHl _ IHr]; intros fuel s Hfuel;
    (destruct fuel as [|fuel]; [lia|]); cbn [postOrder bin_root bin_post]; [done|].
  cbn [bin_depth] in Hfuel.
  rewrite Hl. cbn [mbind option_bind]. rewrite Hlt, Hrt, IHl by lia.
  cbn [mbind option_bind]. rewrite IHr by lia. cbn [mbind option_bind].
  by rewrite !bin_visits_app, (bin_visits_cons _ _ _ _ _ _ Hl).
Qed.
End traversals.

Lemma bin_getHeight_shape h t :
  bin_shape h t → ∀ fuel, bin_depth t < fuel →
  getHeight fuel h (bin_root t) = Some (Z.of_nat (bin_depth t) - 1)%Z.
Proof.
  induction 1 as [|l n lt rt Hl Hlt Hrt _ IHl _ IHr]; intros fuel Hfuel;
    (destruct fuel as [|fuel]; [lia|]); cbn [getHeight bin_root]; [done|].
  cbn [bin_depth] in Hfuel |- *.
  rewrite Hl. cbn [mbind option_bind]. rewrite Hlt, Hrt, IHl by lia.
  cbn [mbind option_bind]. rewrite IHr by lia. cbn [mbind option_bind].
  f_equal. lia.
Qed.
End binary.

Lemma height_lt_size t : height t < length (pre t).
Proof.
  induction t as [l kids IH] using rose_ind'.
  destruct kids as [|k kids]; [simpl; lia|].
  cbn [height pre length].
  assert (∀ ks, Forall (λ t, height t < length (pre t)) ks →
            max_list (height <$> ks) ≤ length (ks ≫= pre)) as Hle.
  { induction 1 as [|k' ks Hk _ IHks]; csimpl; [done|].
    rewrite length_app. lia. }
  assert (max_list (height <$> (k :: kids)) < length ((k :: kids) ≫= pre));
    [|lia].
  inversion_clear IH as [|?? Hk Hkids]. csimpl. rewrite length_app.
  specialize (Hle kids Hkids). lia.
Qed.

Section tree_theorems.
Import TreeNodeM TreeM.
Context {V : Type} `{EqDecision V}.

(** X24 ([Tree.preOrder], [Tree.postOrder]): when the nodes below [node]
    form a tree, [preOrder] calls the callback on the node and then, child
    by child from left to right, on each subtree, and [postOrder] on the
    subtrees first and on the node last; both visit the same nodes, each
    once per path from [node], [preOrder] starting and [postOrder] ending
    with [node]. Enough fuel: more than the height. *)
Theorem tree_traversals {St : Type} (h : heap V) (t : rose)
    (callback : ref → TreeNode V → St → St) (s : St) (fuel : nat) :
  shape h t → height t < fuel →
  preOrder fuel h (Some (rose_root t)) callback s
  = Some (visits h callback s (pre t))
  ∧ postOrder fuel h (Some (rose_root t)) callback s
    = Some (visits h callback s (post t))
  ∧ post t ≡ₚ pre t
  ∧ head (pre t) = Some (rose_root t)
  ∧ last (post t) = Some (rose_root t).
Proof.
  intros Hshape Hfuel. split_and!.
  - by apply preOrder_shape.
  - by apply postOrder_shape.
  - apply post_pre.
  - apply pre_root.
  - apply post_root.
Qed.

(** X25 ([Tree.levelOrder]): when the nodes below the root form a tree,
    the callback is called on the root, then on the children of the root
    from left to right, then on their children, and so on level by level;
    these are the nodes [preOrder] visits. Enough fuel: more than the number
    of nodes. *)
Theorem levelOrder_by_levels {St : Type} (h : heap V) (this : Tree) (t : rose)
    (callback : ref → TreeNode V → St → St) (s : St) (fuel : nat) :
  shape h t → root this = Some (rose_root t) → length (pre t) < fuel →
  levelOrder fuel h this callback s
  = Some (visits h callback s (levels (S (height t)) [t]))
  ∧ levels (S (height t)) [t] ≡ₚ pre t.
Proof.
  intros Hshape Hroot Hfuel.
  assert (levels (S (height t)) [t] ≡ₚ pre t) as Hperm.
  { rewrite levels_pre.
    - csimpl. by rewrite app_nil_r.
    - intros t' ->%list_elem_of_singleton. lia. }
  split; [|done].
  unfold levelOrder. rewrite Hroot.
  apply (levelOrder_loop_levels h callback (S (height t)) [t]).
  - by repeat constructor.
  - intros t' ->%list_elem_of_singleton. lia.
  - by rewrite Hperm.
Qed.

(** X26 ([Tree.find]): when the nodes below the root form a tree, [find]
    returns the last node, in pre-order, whose value is the one looked for
    (the callback overwrites earlier matches), and [null] when no node has
    it. *)
Theorem find_returns_last_match (h : heap V) (this : Tree) (t : rose)
    (v : V) (fuel : nat) :
  shape h t → root this = Some (rose_root t) → height t < fuel →
  find fuel h this v
  = Some (last (filter (λ l, value <$> h !! l = Some v) (pre t))).
Proof.
  intros Hshape Hroot Hfuel. unfold find. rewrite Hroot.
  rewrite preOrder_shape, visits_find by done.
  by destruct (last _).
Qed.

(** X27 ([Tree.countNodes], [Tree.getLeaves], [Tree.getHeight]): when the
    nodes below the root form a tree, [countNodes] is the number of its
    nodes, [getLeaves] holds the nodes without children in pre-order,
    [getHeight] is the number of edges on a longest path down from the
    root, and the height is less than the number of nodes. *)
Theorem tree_measures (h : heap V) (this : Tree) (t : rose) (fuel : nat) :
  shape h t → root this = Some (rose_root t) → height t < fuel →
  countNodes fuel h this = Some (length (pre t))
  ∧ getLeaves fuel h this
    = Some (filter (λ l, isLeaf <$> h !! l = Some true) (pre t))
  ∧ getHeight fuel h this = Some (Z.of_nat (height t))
  ∧ (Z.of_nat (height t) < Z.of_nat (length (pre t)))%Z.
Proof.
  intros Hshape Hroot Hfuel. split_and!.
  - unfold countNodes. rewrite Hroot, preOrder_shape by done.
    rewrite visits_count; [done|]. by apply shape_pre.
  - unfold getLeaves. rewrite Hroot, preOrder_shape by done.
    by rewrite visits_leaves.
  - unfold getHeight. rewrite Hroot. by rewrite getHeight_shape.
  - pose proof (height_lt_size t). lia.
Qed.

(** X28 ([TreeNode.addChild], [TreeNode.removeChild]): adding a node that
    has no parent, to a node that does not list it yet, appends it to the
    children, sets its parent and leaves every other node alone; removing
    it again gives back the heap as it was. Removing a node that is not
    among the children changes nothing. This also holds when a node is
    added to itself. *)
Theorem addChild_then_removeChild (h : heap V) (p c : ref)
    (np nc : TreeNode V) :
  h !! p = Some np → h !! c = Some nc →
  c ∉ children np → parent nc = None →
  ∃ h', addChild p c h = Some h'
    ∧ h' !! p = Some {| value := value np; children := children np ++ [c];
                        parent := if decide (p = c) then Some p else parent np |}
    ∧ parent <$> h' !! c = Some (Some p)
    ∧ (∀ q : ref, q ≠ p → q ≠ c → h' !! q = h !! q)
    ∧ removeChild p c h' = Some h
    ∧ removeChild p c h = Some h.
Proof.
  intros Hp Hc Hnew Hroot.
  destruct (addChild_spec h p c np nc Hp Hc) as (h' & Hadd & _ & Hp' & Hc' & Hq).
  destruct (addChild_removeChild h p c np nc Hp Hc Hnew Hroot)
    as (h'' & Hadd' & Hremove).
  rewrite Hadd in Hadd'. injection Hadd' as <-.
  exists h'. split_and!; [done..| |done|done|by eapply removeChild_absent].
  destruct (decide (p = c)) as [->|Hne].
  - by rewrite Hp'.
  - by rewrite Hc'.
Qed.
End tree_theorems.

Section binary_tree_theorems.
Import BinaryTreeNodeM BinaryTreeM.
Context {V : Type}.

(** X29 ([BinaryTree.inOrder], [preOrder], [postOrder], [getHeight]): when
    the nodes below [node] form a binary tree, the three traversals call the
    callback in the orders left-node-right, node-left-right and
    left-right-node, all on the same nodes; and [getHeight] is the number of
    nodes on a longest path down from [node], less one ([-1] for [null]). *)
Theorem binary_tree_traversals {St : Type} (h : heap V) (t : bin)
    (callback : ref → BinaryTreeNode V → St → St) (s : St) (fuel : nat) :
  bin_shape h t → bin_depth t < fuel →
  inOrder fuel h (bin_root t) callback s
  = Some (bin_visits h callback s (bin_in t))
  ∧ preOrder fuel h (bin_root t) callback s
    = Some (bin_visits h callback s (bin_pre t))
  ∧ postOrder fuel h (bin_root t) callback s
    = Some (bin_visits h callback s (bin_post t))
  ∧ getHeight fuel h (bin_root t) = Some (Z.of_nat (bin_depth t) - 1)%Z
  ∧ bin_in t ≡ₚ bin_pre t
  ∧ bin_post t ≡ₚ bin_pre t.
Proof.
  intros Hshape Hfuel. split_and!.
  - by apply inOrder_shape.
  - by apply bin_preOrder_shape.
  - by apply bin_postOrder_shape.
  - by apply bin_getHeight_shape.
  - apply bin_in_pre.
  - apply bin_post_pre.
Qed.
End binary_tree_theorems.

Lemma tree_traversals_witness :
  TreeM.preOrder 2 readme_tree.2 (Some 0) (λ l _ ls, ls ++ [l]) []
  = Some (visits readme_tree.2 (λ l _ ls, ls ++ [l]) [] (pre readme_rose))
  ∧ TreeM.postOrder 2 readme_tree.2 (Some 0) (λ l _ ls, ls ++ [l]) []
    = Some (visits readme_tree.2 (λ l _ ls, ls ++ [l]) [] (post readme_rose))
  ∧ post readme_rose ≡ₚ pre readme_rose
  ∧ head (pre readme_rose) = Some 0
  ∧ last (post readme_rose) = Some 0.
Proof.
  apply (tree_traversals readme_tree.2 readme_rose (λ l _ ls, ls ++ [l]) [] 2).
  - repeat econstructor.
  - vm_compute. lia.
Defined.

Lemma levelOrder_by_levels_witness :
  TreeM.levelOrder 4 readme_tree.2 readme_tree.1 (λ l _ ls, ls ++ [l]) []
  = Some (visits readme_tree.2 (λ l _ ls, ls ++ [l]) []
            (levels (S (height readme_rose)) [readme_rose]))
  ∧ levels (S (height readme_rose)) [readme_rose] ≡ₚ pre readme_rose.
Proof.
  apply (levelOrder_by_levels readme_tree.2 readme_tree.1 readme_rose).
  - repeat econstructor.
  - reflexivity.
  - vm_compute. lia.
Defined.

Lemma find_returns_last_match_witness :
  TreeM.find 2 readme_tree.2 readme_tree.1 "child2"
  = Some (last (filter (λ l, TreeNodeM.value <$> readme_tree.2 !! l
                             = Some "child2") (pre readme_rose))).
Proof.
  apply (find_returns_last_match readme_tree.2 readme_tree.1 readme_rose).
  - repeat econstructor.
  - reflexivity.
  - vm_compute. lia.
Defined.

Lemma tree_measures_witness :
  TreeM.countNodes 2 readme_tree.2 readme_tree.1 = Some (length (pre readme_rose))
  ∧ TreeM.getLeaves 2 readme_tree.2 readme_tree.1
    = Some (filter (λ l, TreeNodeM.isLeaf <$> readme_tree.2 !! l = Some true)
                   (pre readme_rose))
  ∧ TreeM.getHeight 2 readme_tree.2 readme_tree.1
    = Some (Z.of_nat (height readme_rose))
  ∧ (Z.of_nat (height readme_rose) < Z.of_nat (length (pre readme_rose)))%Z.
Proof.
  apply (tree_measures readme_tree.2 readme_tree.1 readme_rose 2).
  - repeat econstructor.
  - reflexivity.
  - vm_compute. lia.
Defined.

Section level.
Import TreeNodeM.
Context {V : Type}.
Implicit Types h : heap V.

Lemma getLevel_loop_shift fuel h l level :
  getLevel_loop fuel h l (S level) = S <$> getLevel_loop fuel h l level.
Proof.
  revert l level. induction fuel as [|fuel IH]; intros l level; [done|].
  cbn [getLevel_loop]. destruct (h !! l) as [n|]; [|done].
  cbn [mbind option_bind]. destruct (parent n) as [p|]; [|done]. apply IH.
Qed.

(** X30 ([TreeNode.getLevel], [TreeNode.isRoot]): the level of a node
    without parent, for which [isRoot] is true, is 0, and the level of a
    node with a parent is one more than the level of the parent (with one
    more iteration of the loop). *)
Theorem getLevel_counts_parents (h : heap V) (l : ref) (n : TreeNode V)
    (fuel : nat) :
  h !! l = Some n →
  getLevel (S fuel) h l
  = match parent n with
    | Some p => S <$> getLevel fuel h p
    | None => Some 0
    end
  ∧ (isRoot n = true → getLevel (S fuel) h l = Some 0).
Proof.
  intros Hl. unfold getLevel, isRoot. cbn [getLevel_loop].
  rewrite Hl. cbn [mbind option_bind].
  destruct (parent n) as [p|]; [|done].
  split; [apply getLevel_loop_shift|]. by intros [=]%bool_decide_eq_true.
Qed.
End level.

Lemma getLevel_counts_parents_witness :
  TreeNodeM.getLevel 2 readme_tree.2 2
  = match TreeNodeM.parent
            {| TreeNodeM.value := "child2"; TreeNodeM.children := [];
               TreeNodeM.parent := Some 0 |} with
    | Some p => S <$> TreeNodeM.getLevel 1 readme_tree.2 p
    | None => Some 0
    end
  ∧ (TreeNodeM.isRoot
       {| TreeNodeM.value := "child2"; TreeNodeM.children := [];
          TreeNodeM.parent := Some 0 |} = true →
     TreeNodeM.getLevel 2 readme_tree.2 2 = Some 0).
Proof.
  apply (getLevel_counts_parents readme_tree.2 2). reflexivity.
Defined.

Lemma addChild_then_removeChild_witness :
  ∃ h', TreeNodeM.addChild 0 1 two_nodes = Some h'
    ∧ h' !! 0 = Some {| TreeNodeM.value := "parent";
                        TreeNodeM.children := [] ++ [1];
                        TreeNodeM.parent :=
                          if decide (0 = 1) then Some 0 else None |}
    ∧ TreeNodeM.parent <$> h' !! 1 = Some (Some 0)
    ∧ (∀ q : ref, q ≠ 0 → q ≠ 1 → h' !! q = two_nodes !! q)
    ∧ TreeNodeM.removeChild 0 1 h' = Some two_nodes
    ∧ TreeNodeM.removeChild 0 1 two_nodes = Some two_nodes.
Proof.
  apply (addChild_then_removeChild two_nodes 0 1
           {| TreeNodeM.value := "parent"; TreeNodeM.children := [];
              TreeNodeM.parent := None |}
           {| TreeNodeM.value := "child"; TreeNodeM.children := [];
              TreeNodeM.parent := None |}).
  - reflexivity.
  - reflexivity.
  - apply not_elem_of_nil.
  - reflexivity.
Defined.

Lemma binary_tree_traversals_witness :
  BinaryTreeM.inOrder 3 small_binary_heap (bin_root small_bin)
    (λ l _ ls, ls ++ [l]) []
  = Some (bin_visits small_binary_heap (λ l _ ls, ls ++ [l]) [] (bin_in small_bin))
  ∧ BinaryTreeM.preOrder 3 small_binary_heap (bin_root small_bin)
      (λ l _ ls, ls ++ [l]) []
    = Some (bin_visits small_binary_heap (λ l _ ls, ls ++ [l]) []
              (bin_pre small_bin))
  ∧ BinaryTreeM.postOrder 3 small_binary_heap (bin_root small_bin)
      (λ l _ ls, ls ++ [l]) []
    = Some (bin_visits small_binary_heap (λ l _ ls, ls ++ [l]) []
              (bin_post small_bin))
  ∧ BinaryTreeM.getHeight 3 small_binary_heap (bin_root small_bin)
    = Some (Z.of_nat (bin_depth small_bin) - 1)%Z
  ∧ bin_in small_bin ≡ₚ bin_pre small_bin
  ∧ bin_post small_bin ≡ₚ bin_pre small_bin.
Proof.
  apply (binary_tree_traversals small_binary_heap small_bin
           (λ l _ ls, ls ++ [l]) [] 3).
  - repeat econstructor.
  - vm_compute. lia.
Defined.
